(** * cmp -- compare two files byte by byte (src/cmp.c)

    A shallow embedding of GNU cmp's comparison engine: the word-wise block
    comparators with their sentinels, the block loop of [cmp], the quoting
    of bytes by [sprintc], and the option handling and shortcuts of [main].

    Conventions.
    - A byte is a [Byte.byte]; [byte_val] is its value as an unsigned char.
    - A [word] of [W] bytes is the unsigned integer assembled from [W]
      consecutive bytes, in either byte order.
    - [buffer[0]] and [buffer[1]] are arrays of [W * words_per_buffer]
      bytes; an access outside an array has no defined result ([None]).
    - File offsets and line counts ([off_t]) are integers [Z], which are
      the values of the code as long as they lie within [off_t]; indices
      into the buffers ([size_t]) are natural numbers. *)

From Stdlib Require Import ZArith Lia Strings.Byte String Ascii.
From stdpp Require Import base decidable option list strings sorting.

Open Scope Z_scope.

(** ** Bytes *)

#[global] Instance byte_eq_dec : EqDecision byte := Byte.byte_eq_dec.

(** The value of an [unsigned char]. *)
Definition byte_val (b : byte) : Z := Z.of_N (Byte.to_N b).

(** Conversion of an integer to [unsigned char]: reduction modulo 256. *)
Definition byte_of_Z (z : Z) : byte :=
  default Byte.x00 (Byte.of_N (Z.to_N (z mod 256))).

(** [~c] stored back into a [char]. *)
Definition byte_not (b : byte) : byte := byte_of_Z (Z.lnot (byte_val b)).

(** ['\n'] *)
Definition newline : byte := Byte.x0a.

(** Number of newline bytes in a sequence. *)
Fixpoint count_nl (bs : list byte) : Z :=
  match bs with
  | [] => 0
  | b :: bs' => (if decide (b = newline) then 1 else 0) + count_nl bs'
  end.

(** Length of the longest common prefix: the offset of the first position
    where two sequences differ, or the length of the shorter one. *)
Fixpoint lcp (a b : list byte) : nat :=
  match a, b with
  | x :: a', y :: b' => if decide (x = y) then S (lcp a' b') else 0%nat
  | _, _ => 0%nat
  end.

(** ** The state of a run *)

(** [comparison_type]: the output format. *)
Inductive comparison_type_t : Type :=
| type_first_diff
| type_all_diffs
| type_status.

#[global] Instance comparison_type_eq_dec : EqDecision comparison_type_t.
Proof. solve_decision. Defined.

(** An open file description, as the reads and seeks of [cmp] see it. *)
Record stream : Type := Stream {
  s_bytes : list byte;   (* the bytes from the file position to end of file *)
  s_fail : bool;         (* reading past these bytes fails instead of yielding EOF *)
  s_seekable : bool;     (* the lseek of file_position succeeds on it *)
  s_pos : Z              (* the file position *)
}.

(** What is written on standard output, one constructor per [printf]. *)
Inductive stdout_line : Type :=
| Differ_char (f0 f1 : string) (char_num line_num : Z)
    (* "%s %s differ: char %s, line %s\n" *)
| Differ_byte (f0 f1 : string) (char_num line_num : Z)
    (c0 : byte) (s0 : list byte) (c1 : byte) (s1 : list byte)
    (* "%s %s differ: byte %s, line %s is %3o %s %3o %s\n" *)
| Diff_octal (char_num : Z) (c0 c1 : byte)
    (* "%6s %3o %3o\n" *)
| Diff_octal_bytes (char_num : Z) (c0 : byte) (s0 : list byte) (c1 : byte) (s1 : list byte)
    (* "%6s %3o %s %3o %s\n" *)
| Version_text
| Usage_text.

(** What is written on standard error. *)
Inductive stderr_line : Type :=
| Eof_on (name : string)               (* "cmp: EOF on %s\n" *)
| Error_file (name : string)           (* error (2, errno, "%s", name) *)
| Error_write_failed                   (* error (2, 0, "write failed") *)
| Error_standard_output                (* error (2, errno, "standard output") *)
| Usage_reason (reason operand : string) (* error (0, 0, reason_msgid, operand) *)
| Try_help.                            (* "Try `%s --help' for more information." *)

(** The terminal side of the process: both output streams, and the number
    of calls that read from an input descriptor. *)
Record console : Type := Console {
  c_out : list stdout_line;
  c_err : list stderr_line;
  c_reads : nat
}.

(** The mutable state [cmp ()] works on: the two descriptors, the two
    buffers, the statics of [file_position], and the console. *)
Record world : Type := World {
  file_desc : stream * stream;
  buffer : list byte * list byte;
  positioned : bool * bool;
  position : Z * Z;
  w_console : console
}.

(** The globals that are only read while [cmp ()] runs. *)
Record globals : Type := Globals {
  file : string * string;
  buf_size : nat;
  ignore_initial : Z;
  comparison_type : comparison_type_t;
  opt_print_bytes : bool
}.

(** Element [f] of a two-element array. *)
Definition sel {A} (f : nat) (p : A * A) : A :=
  match f with O => p.1 | S _ => p.2 end.

Definition upd {A} (f : nat) (x : A) (p : A * A) : A * A :=
  match f with O => (x, p.2) | S _ => (p.1, x) end.

Definition set_file_desc (f : nat) (s : stream) (w : world) : world :=
  World (upd f s (file_desc w)) (buffer w) (positioned w) (position w) (w_console w).

Definition set_buffer (f : nat) (b : list byte) (w : world) : world :=
  World (file_desc w) (upd f b (buffer w)) (positioned w) (position w) (w_console w).

Definition set_position (f : nat) (z : Z) (w : world) : world :=
  World (file_desc w) (buffer w) (upd f true (positioned w)) (upd f z (position w))
    (w_console w).

Definition set_console (k : console) (w : world) : world :=
  World (file_desc w) (buffer w) (positioned w) (position w) k.

(** ** Programs: state, [exit], and undefined behaviour *)

Inductive outcome (S A : Type) : Type :=
| Ret (a : A) (s : S)          (* normal completion *)
| Exit (status : Z) (s : S)    (* the process called [exit (status)] *)
| Undef.                       (* out-of-bounds access, or loop bound exceeded *)

Arguments Ret {S A} a s.
Arguments Exit {S A} status s.
Arguments Undef {S A}.

Definition prog (S A : Type) : Type := S → outcome S A.

#[global] Instance prog_ret {S} : MRet (prog S) := λ A a s, Ret a s.

#[global] Instance prog_bind {S} : MBind (prog S) := λ A B f m s,
  match m s with
  | Ret a s' => f a s'
  | Exit c s' => Exit c s'
  | Undef => Undef
  end.

Definition exit {S A} (status : Z) : prog S A := λ s, Exit status s.

Definition undef {S A} : prog S A := λ _, Undef.

Definition get {S} : prog S S := λ s, Ret s s.

Definition modify {S} (f : S → S) : prog S unit := λ s, Ret tt (f s).

Definition defined {S A} (o : option A) : prog S A :=
  match o with Some a => mret a | None => undef end.

(** Run a console action inside a world. *)
Definition on_console {A} (m : prog console A) : prog world A := λ w,
  match m (w_console w) with
  | Ret a k => Ret a (set_console k w)
  | Exit c k => Exit c (set_console k w)
  | Undef => Undef
  end.

Definition printf (l : stdout_line) : prog console unit :=
  modify (λ k, Console (c_out k ++ [l]) (c_err k) (c_reads k)).

Definition eprintf (l : stderr_line) : prog console unit :=
  modify (λ k, Console (c_out k) (c_err k ++ [l]) (c_reads k)).

Definition count_read : prog console unit :=
  modify (λ k, Console (c_out k) (c_err k) (S (c_reads k))).

(** [error (status, errnum, ...)] with a nonzero status: print and exit. *)
Definition error {A} (status : Z) (l : stderr_line) : prog console A :=
  eprintf l;; exit status.

(** ** System calls on a descriptor *)

(** [lseek (fd, offset, SEEK_CUR)] with [0 <= offset]: the new position, or
    -1 when the call fails, as it does on a pipe, and on a file when the
    offset is out of range. *)
Definition lseek_cur (s : stream) (offset : Z) : Z * stream :=
  if s_seekable s
  then (s_pos s + offset,
        Stream (drop (Z.to_nat offset) (s_bytes s)) (s_fail s) true (s_pos s + offset))
  else (-1, s).

Definition advance (s : stream) (n : nat) : stream :=
  Stream (drop n (s_bytes s)) (s_fail s) (s_seekable s) (s_pos s + Z.of_nat n).

(** [read (fd, buf, nbytes)]: the bytes delivered, or [None] for -1. *)
Definition sys_read (s : stream) (nbytes : nat) : option (list byte) * stream :=
  match s_bytes s with
  | [] => (if s_fail s then None else Some [], s)
  | _ => (Some (take nbytes (s_bytes s)), advance s (Nat.min nbytes (length (s_bytes s))))
  end.

(** Modelled from the spec: [block_read] of cmpbuf.c, which is not among
    the sources.  It reads until [nbytes] bytes are in the buffer or the
    end of the file is reached; fewer bytes than [nbytes] mean end of file,
    and a failing read makes it return [(size_t) -1], here [None]. *)
Definition block_read_sys (s : stream) (nbytes : nat) : option (list byte) * stream :=
  if decide (nbytes ≤ length (s_bytes s))%nat
  then (Some (take nbytes (s_bytes s)), advance s nbytes)
  else if s_fail s then (None, advance s (length (s_bytes s)))
  else (Some (s_bytes s), advance s (length (s_bytes s))).

(** The bytes a read leaves at the start of an array. *)
Definition store_bytes (data buf : list byte) : option (list byte) :=
  if decide (length data ≤ length buf)%nat
  then Some (data ++ drop (length data) buf)
  else None.

(** ** Words and the block comparators *)

Section Platform.

(** [sizeof (word)], and the byte order of the machine. *)
Variable W : nat.
Variable big_endian : bool.

(** The macro [ISPRINT] of system.h, which is not among the sources: the
    locale's test for printable characters. *)
Variable ISPRINT : byte → bool.

Fixpoint le_value (bs : list byte) : Z :=
  match bs with
  | [] => 0
  | b :: bs' => byte_val b + 256 * le_value bs'
  end.

(** The value of the word stored in the bytes [bs]. *)
Definition word_of_bytes (bs : list byte) : Z :=
  le_value (if big_endian then reverse bs else bs).

(** [((word const * ) p)[i]]: the [i]-th word of the array [p]. *)
Definition load_word (p : list byte) (i : nat) : option Z :=
  let bs := take W (drop (i * W) p) in
  if decide (length bs = W) then Some (word_of_bytes bs) else None.

(** Arithmetic on [word] is modulo [2 ^ (CHAR_BIT * sizeof (word))]. *)
Definition wrap_word (z : Z) : Z := z mod 2 ^ (8 * Z.of_nat W).

(** [for (i = 0; i < sizeof nnnn; i++) nnnn = (nnnn << CHAR_BIT) | '\n';] *)
Fixpoint make_nnnn (i : nat) (nnnn : Z) : Z :=
  match i with
  | O => nnnn
  | S i' => make_nnnn i' (wrap_word (Z.lor (Z.shiftl nnnn 8) (byte_val newline)))
  end.

(** [for (i = 0; i < sizeof l; i++) { cnt += ! (unsigned char) l; l >>= CHAR_BIT; }] *)
Fixpoint count_zero_bytes (i : nat) (l : Z) (cnt : Z) : Z :=
  match i with
  | O => cnt
  | S i' =>
      count_zero_bytes i' (Z.shiftr l 8)
        (cnt + (if decide (l mod 256 = 0) then 1 else 0))
  end.

(** First loop of [block_compare]: advance word by word while the words
    are equal; yields the index of the first unequal word. *)
Fixpoint word_scan (fuel : nat) (p0 p1 : list byte) (i : nat) : option nat :=
  match fuel with
  | O => None
  | S fuel' =>
      l0 ← load_word p0 i;
      l1 ← load_word p1 i;
      if decide (l0 = l1) then word_scan fuel' p0 p1 (S i) else Some i
  end.

(** Second loop of [block_compare]: advance byte by byte while equal. *)
Fixpoint byte_scan (fuel : nat) (p0 p1 : list byte) (c : nat) : option nat :=
  match fuel with
  | O => None
  | S fuel' =>
      c0 ← p0 !! c;
      c1 ← p1 !! c;
      if decide (c0 = c1) then byte_scan fuel' p0 p1 (S c) else Some c
  end.

(** [block_compare (p0, p1)]: the offset of the first byte that differs. *)
Definition block_compare (p0 p1 : list byte) : option nat :=
  i ← word_scan (S (length p0)) p0 p1 0;
  byte_scan (S (length p0)) p0 p1 (i * W).

(** First loop of [block_compare_and_count]. *)
Fixpoint word_scan_count (fuel : nat) (nnnn : Z) (p0 p1 : list byte)
    (i : nat) (cnt : Z) : option (nat * Z) :=
  match fuel with
  | O => None
  | S fuel' =>
      l ← load_word p0 i;
      l1 ← load_word p1 i;
      if decide (l = l1)
      then word_scan_count fuel' nnnn p0 p1 (S i)
             (count_zero_bytes W (Z.lxor l nnnn) cnt)
      else Some (i, cnt)
  end.

(** Second loop of [block_compare_and_count]. *)
Fixpoint byte_scan_count (fuel : nat) (p0 p1 : list byte) (c : nat) (cnt : Z)
    : option (nat * Z) :=
  match fuel with
  | O => None
  | S fuel' =>
      c0 ← p0 !! c;
      c1 ← p1 !! c;
      if decide (c0 = c1)
      then byte_scan_count fuel' p0 p1 (S c)
             (cnt + (if decide (c0 = newline) then 1 else 0))
      else Some (c, cnt)
  end.

(** [block_compare_and_count (p0, p1, &count)]: the offset of the first
    byte that differs, and the new value of [*count].  The sum is the
    integer sum; it is the value the code stores as long as it lies within
    [off_t]. *)
Definition block_compare_and_count (p0 p1 : list byte) (count : Z)
    : option (nat * Z) :=
  let nnnn := make_nnnn W 0 in
  '(i, cnt) ← word_scan_count (S (length p0)) nnnn p0 p1 0 0;
  '(c, cnt) ← byte_scan_count (S (length p0)) p0 p1 (i * W) cnt;
  Some (c, count + cnt).

(** ** Quoting of bytes *)

(** [while (--width > 0) *buf++ = ' ';] *)
Fixpoint pad_loop (fuel : nat) (width : Z) (buf : list byte) : list byte :=
  match fuel with
  | O => buf
  | S fuel' =>
      let width := width - 1 in
      if decide (0 < width) then pad_loop fuel' width (buf ++ [Byte.x20]) else buf
  end.

(** [sprintc (buf, width, c)]: the string left in [buf], without its
    terminating NUL. *)
Definition sprintc (width : Z) (c : byte) : list byte :=
  let '(buf, c, width) :=
    if negb (ISPRINT c) then
      let c := byte_val c in
      let '(buf, c, width) :=
        if decide (128 ≤ c)
        then ([Byte.x4d; Byte.x2d], c - 128, width - 2)   (* 'M' '-' *)
        else ([], c, width) in
      if decide (c < 32) then (buf ++ [Byte.x5e], byte_of_Z (c + 64), width - 1)
      else if decide (c = 127) then (buf ++ [Byte.x5e], Byte.x3f, width - 1)
      else (buf, byte_of_Z c, width)
    else ([], c, width) in
  pad_loop (Z.to_nat width) width (buf ++ [c]).

(** ** The comparison loop *)

(** [file_position (f)] *)
Definition file_position (g : globals) (f : nat) : prog world Z := λ w,
  if sel f (positioned w) then Ret (sel f (position w)) w
  else
    let '(r, s) := lseek_cur (sel f (file_desc w)) (ignore_initial g) in
    Ret r (set_position f r (set_file_desc f s w)).

(** [read (file_desc[f], buf0, nbytes)] *)
Definition read_buf0 (f : nat) (nbytes : nat) : prog world (option nat) := λ w,
  let '(r, s) := sys_read (sel f (file_desc w)) nbytes in
  let w := set_file_desc f s w in
  match r with
  | None => (on_console count_read;; mret None) w
  | Some data =>
      (on_console count_read;;
       b ← defined (store_bytes data (sel 0 (buffer w)));
       modify (set_buffer 0 b);;
       mret (Some (length data))) w
  end.

(** [block_read (file_desc[f], buffer[f], buf_size)] *)
Definition block_read (g : globals) (f : nat) : prog world (option nat) := λ w,
  let '(r, s) := block_read_sys (sel f (file_desc w)) (buf_size g) in
  let w := set_file_desc f s w in
  match r with
  | None => (on_console count_read;; mret None) w
  | Some data =>
      (on_console count_read;;
       b ← defined (store_bytes data (sel f (buffer w)));
       modify (set_buffer f b);;
       mret (Some (length data))) w
  end.

(** The [do ... while (ig)] loop that reads and discards the ignored
    initial prefix when [lseek] failed. *)
Fixpoint discard_loop (fuel : nat) (g : globals) (f : nat) (ig : Z)
    : prog world unit :=
  match fuel with
  | O => undef
  | S fuel' =>
      r ← read_buf0 f (Z.to_nat (Z.min ig (Z.of_nat (buf_size g))));
      match r with
      | Some O => mret tt
      | None => on_console (error 2 (Error_file (sel f (file g))))
      | Some r =>
          let ig := ig - Z.of_nat r in
          if decide (ig ≠ 0) then discard_loop fuel' g f ig else mret tt
      end
  end.

(** One round of [for (f = 0; f < 2; f++) if (file_position (f) == -1) ...] *)
Definition skip_initial (g : globals) (f : nat) : prog world unit :=
  p ← file_position g f;
  if decide (p = -1)
  then w ← get;
       discard_loop (S (length (s_bytes (sel f (file_desc w))))) g f (ignore_initial g)
  else mret tt.

(** [buf[i]] *)
Definition load_byte (f : nat) (i : nat) : prog world byte :=
  w ← get; defined (sel f (buffer w) !! i).

(** [buf[i] = c] *)
Definition store_byte (f : nat) (i : nat) (c : byte) : prog world unit :=
  w ← get;
  if decide (i < length (sel f (buffer w)))%nat
  then modify (set_buffer f (<[i:=c]> (sel f (buffer w))))
  else undef.

(** [buf0[read0] = ~buf1[read0]; buf1[read1] = ~buf0[read1];] *)
Definition insert_sentinels (read0 read1 : nat) : prog world unit :=
  c ← load_byte 1 read0; store_byte 0 read0 (byte_not c);;
  c ← load_byte 0 read1; store_byte 1 read1 (byte_not c).

(** The [do ... while (first_diff < smaller)] loop of [type_all_diffs];
    yields the final [char_number]. *)
Fixpoint all_diffs_loop (fuel : nat) (g : globals) (smaller : nat)
    (first_diff : nat) (char_number : Z) : prog world Z :=
  match fuel with
  | O => undef
  | S fuel' =>
      c0 ← load_byte 0 first_diff;
      c1 ← load_byte 1 first_diff;
      (if decide (c0 ≠ c1) then
         if negb (opt_print_bytes g)
         then on_console (printf (Diff_octal char_number c0 c1))
         else on_console (printf (Diff_octal_bytes char_number
                                    c0 (sprintc 4 c0) c1 (sprintc 0 c1)))
       else mret tt);;
      let char_number := char_number + 1 in
      let first_diff := S first_diff in
      if decide (first_diff < smaller)%nat
      then all_diffs_loop fuel' g smaller first_diff char_number
      else mret char_number
  end.

(** How one pass through the body of the outer loop ends. *)
Inductive pass : Type :=
| Return (status : Z)                             (* [return status] *)
| Again (line_number char_number : Z) (ret : Z)   (* loop condition holds *)
| Leave (ret : Z).                                (* loop condition fails *)

(** The body of the outer [do ... while (read0 == buf_size)] loop. *)
Definition cmp_pass (g : globals) (line_number char_number : Z) (ret : Z)
    : prog world pass :=
  r0 ← block_read g 0;
  match r0 with
  | None => on_console (error 2 (Error_file (sel 0 (file g))))
  | Some read0 =>
  r1 ← block_read g 1;
  match r1 with
  | None => on_console (error 2 (Error_file (sel 1 (file g))))
  | Some read1 =>
  insert_sentinels read0 read1;;
  w ← get;
  '(first_diff, line_number) ←
    (if decide (comparison_type g = type_first_diff)
     then defined (block_compare_and_count (sel 0 (buffer w)) (sel 1 (buffer w))
                     line_number)
     else defined (d ← block_compare (sel 0 (buffer w)) (sel 1 (buffer w));
                   Some (d, line_number)));
  let char_number := char_number + Z.of_nat first_diff in
  let smaller := Nat.min read0 read1 in
  let finish (char_number : Z) (ret : Z) : prog world pass :=
    if decide (read0 ≠ read1) then
      (if decide (comparison_type g ≠ type_status)
       then on_console
              (eprintf (Eof_on (sel (if decide (read1 < read0)%nat then 1 else 0)%nat
                                  (file g))))
       else mret tt);;
      mret (Return 1)
    else if decide (read0 = buf_size g)
         then mret (Again line_number char_number ret)
         else mret (Leave ret) in
  if decide (first_diff < smaller)%nat then
    match comparison_type g with
    | type_first_diff =>
        (if negb (opt_print_bytes g)
         then on_console (printf (Differ_char (sel 0 (file g)) (sel 1 (file g))
                                    char_number line_number))
         else c0 ← load_byte 0 first_diff;
              c1 ← load_byte 1 first_diff;
              on_console (printf (Differ_byte (sel 0 (file g)) (sel 1 (file g))
                                    char_number line_number
                                    c0 (sprintc 0 c0) c1 (sprintc 0 c1))));;
        mret (Return 1)
    | type_status => mret (Return 1)
    | type_all_diffs =>
        char_number ← all_diffs_loop smaller g smaller first_diff char_number;
        finish char_number 1
    end
  else finish char_number ret
  end end.

(** The outer loop of [cmp]. *)
Fixpoint cmp_loop (fuel : nat) (g : globals) (line_number char_number : Z)
    (ret : Z) : prog world Z :=
  match fuel with
  | O => undef
  | S fuel' =>
      p ← cmp_pass g line_number char_number ret;
      match p with
      | Return status => mret status
      | Again line_number char_number ret =>
          cmp_loop fuel' g line_number char_number ret
      | Leave ret => mret ret
      end
  end.

(** [cmp ()]: 0 if identical, 1 if different. *)
Definition cmp (g : globals) : prog world Z :=
  (if decide (ignore_initial g ≠ 0)
   then skip_initial g 0;; skip_initial g 1
   else mret tt);;
  w ← get;
  cmp_loop (S (length (s_bytes (sel 0 (file_desc w))))) g 1 (ignore_initial g + 1) 0.

(** ** The command line and the files *)

(** One value returned by [getopt_long].  For [-i], [val] is the value
    [strtoumax] returns for [optarg], and [bad] tells whether it set
    [errno] or left characters unread. *)
Inductive getopt_result : Type :=
| Opt_b
| Opt_c
| Opt_i (optarg : string) (val : Z) (bad : bool)
| Opt_l
| Opt_s
| Opt_v
| Opt_help
| Opt_invalid.

(** What [getopt_long] leaves behind: the permuted [argv], the final
    [optind], and the option characters it returned, in order. *)
Record invocation : Type := Invocation {
  argv : list string;
  optind : nat;
  options : list getopt_result
}.

(** What [open] and [fstat] yield for a file. *)
Record file_info : Type := File_info {
  fi_stream : stream;
  fi_stat_ok : bool;        (* fstat succeeds *)
  fi_regular : bool;        (* S_ISREG (st_mode) *)
  fi_size : Z;              (* st_size *)
  fi_ident : Z * Z;         (* st_dev, st_ino *)
  fi_attr : Z;              (* what same_file_attributes compares *)
  fi_blocksize : positive;  (* STAT_BLOCKSIZE *)
  fi_close_ok : bool        (* close succeeds *)
}.

(** The surroundings of the process. *)
Record env : Type := Env {
  open : string → option file_info;   (* [None]: open fails *)
  stdin : file_info;
  stdout_is_null : bool;              (* stdout and NULL_DEVICE are the same file *)
  stdout_ferror : bool;               (* ferror (stdout) *)
  stdout_fclose_ok : bool;            (* fclose (stdout) == 0 *)
  fresh_memory : nat → byte           (* contents of newly allocated memory *)
}.

(** Conversion of a [uintmax_t] to [off_t] (64 bits, two's complement). *)
Definition to_off_t (val : Z) : Z := (val + 2 ^ 63) mod 2 ^ 64 - 2 ^ 63.

Definition initial_globals : globals :=
  Globals (EmptyString, EmptyString) 0 0 type_first_diff false.

Definition set_file (fs : string * string) (g : globals) : globals :=
  Globals fs (buf_size g) (ignore_initial g) (comparison_type g) (opt_print_bytes g).

Definition set_buf_size (n : nat) (g : globals) : globals :=
  Globals (file g) n (ignore_initial g) (comparison_type g) (opt_print_bytes g).

Definition set_ignore_initial (z : Z) (g : globals) : globals :=
  Globals (file g) (buf_size g) z (comparison_type g) (opt_print_bytes g).

Definition set_comparison_type (t : comparison_type_t) (g : globals) : globals :=
  Globals (file g) (buf_size g) (ignore_initial g) t (opt_print_bytes g).

Definition set_opt_print_bytes (b : bool) (g : globals) : globals :=
  Globals (file g) (buf_size g) (ignore_initial g) (comparison_type g) b.

(** [try_help (reason_msgid, operand)] *)
Definition try_help {A} (reason : option (string * string)) : prog console A :=
  match reason with
  | Some (r, operand) => eprintf (Usage_reason r operand)
  | None => mret tt
  end;;
  error 2 Try_help.

(** [check_stdout ()] *)
Definition check_stdout (e : env) : prog console unit :=
  if stdout_ferror e then error 2 Error_write_failed
  else if negb (stdout_fclose_ok e) then error 2 Error_standard_output
  else mret tt.

(** The [while ((c = getopt_long (...)) != -1) switch (c)] loop. *)
Fixpoint parse_options (e : env) (opts : list getopt_result) (g : globals)
    : prog console globals :=
  match opts with
  | [] => mret g
  | c :: opts' =>
      match c with
      | Opt_b | Opt_c => parse_options e opts' (set_opt_print_bytes true g)
      | Opt_i optarg val bad =>
          let ig := to_off_t val in
          if decide (ig < 0 ∨ ig ≠ val ∨ bad = true)
          then try_help (Some ("invalid --ignore-initial value `%s'"%string, optarg))
          else parse_options e opts' (set_ignore_initial ig g)
      | Opt_l => parse_options e opts' (set_comparison_type type_all_diffs g)
      | Opt_s => parse_options e opts' (set_comparison_type type_status g)
      | Opt_v => printf Version_text;; exit 0
      | Opt_help => printf Usage_text;; check_stdout e;; exit 0
      | Opt_invalid => try_help None
      end
  end.

(** The operands: [file[0]] and [file[1]]. *)
Definition parse_operands (i : invocation) (g : globals) : prog console globals :=
  if decide (optind i = length (argv i))
  then last_arg ← defined (argv i !! (length (argv i) - 1)%nat);
       try_help (Some ("missing operand after `%s'"%string, last_arg))
  else
    file0 ← defined (argv i !! optind i);
    let optind1 := S (optind i) in
    '(file1, optind2) ←
      (if decide (optind1 < length (argv i))%nat
       then a ← defined (argv i !! optind1); mret (a, S optind1)
       else mret ("-"%string, optind1));
    if decide (optind2 < length (argv i))%nat
    then extra ← defined (argv i !! optind2);
         try_help (Some ("extra operand `%s'"%string, extra))
    else mret (set_file (file0, file1) g).

(** [strcmp (name, "-") == 0 ? STDIN_FILENO : open (name, O_RDONLY, 0)];
    [None] stands for a negative descriptor. *)
Definition open_file (e : env) (name : string) : option file_info :=
  if decide (name = "-"%string) then Some (stdin e) else open e name.

(** One round of the loop that opens the operands; [opened] collects
    [file_desc[f1]] with [stat_buf[f1]]. *)
Definition open_operand (e : env) (g : globals) (f : nat)
    (opened : option file_info * option file_info)
    : prog console (option file_info * option file_info) :=
  let f1 := Nat.lxor f (if decide (sel 1 (file g) = "-"%string) then 1 else 0) in
  if decide (f ≠ 0%nat ∧ sel 0 (file g) = sel 1 (file g)) then exit 0
  else
    match open_file e (sel f1 (file g)) with
    | None =>
        if decide (comparison_type g = type_status) then exit 2
        else error 2 (Error_file (sel f1 (file g)))
    | Some fi =>
        if fi_stat_ok fi then mret (upd f1 (Some fi) opened)
        else error 2 (Error_file (sel f1 (file g)))
    end.

(** Modelled from the spec: the macros [same_file] and
    [same_file_attributes] of system.h, which is not among the sources:
    the same underlying storage object (same device and inode), and equal
    attributes. *)
Definition same_file (s t : file_info) : Z :=
  if decide (fi_ident s = fi_ident t) then 1 else 0.

Definition same_file_attributes (s t : file_info) : bool :=
  bool_decide (fi_attr s = fi_attr t).

(** Modelled from the spec: [buffer_lcm] of cmpbuf.c, which is not among
    the sources: a common multiple of both block sizes. *)
Definition buffer_lcm (a b : positive) : nat :=
  Nat.lcm (Pos.to_nat a) (Pos.to_nat b).

(** [close (file_desc[f])], with its diagnostic. *)
Definition close_operand (g : globals) (st : file_info * file_info) (f : nat)
    : prog console unit :=
  if fi_close_ok (sel f st) then mret tt
  else error 2 (Error_file (sel f (file g))).

(** [words_per_buffer], for a buffer of [n] bytes and its sentinels. *)
Definition words_per_buffer (n : nat) : nat := ((n + 2 * W - 1) / W)%nat.

(** [main] from the same-inode test on, once both operands are open. *)
Definition compare_files (e : env) (g : globals) (st : file_info * file_info)
    : prog world unit :=
  same ←
    (if decide (0 < same_file (sel 0 st) (sel 1 st)
                ∧ same_file_attributes (sel 0 st) (sel 1 st) = true)
     then p0 ← file_position g 0; p1 ← file_position g 1;
          mret (bool_decide (p0 = p1))
     else mret false);
  if same : bool then exit 0
  else
    (* If output is redirected to the null device, we may assume `-s'. *)
    let g :=
      if decide (comparison_type g ≠ type_status ∧ stdout_is_null e = true)
      then set_comparison_type type_status g else g in
    (if decide (comparison_type g = type_status
                ∧ fi_regular (sel 0 st) = true ∧ fi_regular (sel 1 st) = true)
     then p0 ← file_position g 0;
          let s0 := fi_size (sel 0 st) - p0 in
          p1 ← file_position g 1;
          let s1 := fi_size (sel 1 st) - p1 in
          if decide (Z.max 0 s0 ≠ Z.max 0 s1) then exit 1 else mret tt
     else mret tt);;
    let g := set_buf_size (buffer_lcm (fi_blocksize (sel 0 st))
                                      (fi_blocksize (sel 1 st))) g in
    let words_per_buffer := words_per_buffer (buf_size g) in
    modify (set_buffer 0 (fresh_memory e <$> seq 0 (W * words_per_buffer)));;
    modify (set_buffer 1 (fresh_memory e <$>
                            seq (W * words_per_buffer) (W * words_per_buffer)));;
    exit_status ← cmp g;
    on_console (close_operand g st 0);;
    on_console (close_operand g st 1);;
    (if decide (exit_status ≠ 0 ∧ comparison_type g ≠ type_status)
     then on_console (check_stdout e) else mret tt);;
    exit exit_status.

(** [main] up to the point where both operands are open. *)
Definition startup (e : env) (i : invocation)
    : prog console (globals * (file_info * file_info)) :=
  g ← parse_options e (options i) initial_globals;
  g ← parse_operands i g;
  opened ← open_operand e g 0 (None, None);
  opened ← open_operand e g 1 opened;
  st0 ← defined (sel 0 opened);
  st1 ← defined (sel 1 opened);
  mret (g, (st0, st1)).

(** [main (argc, argv)] *)
Definition main (e : env) (i : invocation) : outcome console unit :=
  match startup e i (Console [] [] 0) with
  | Ret (g, st) k =>
      match compare_files e g st
              (World (fi_stream (sel 0 st), fi_stream (sel 1 st)) ([], [])
                 (false, false) (0, 0) k) with
      | Ret _ w => Ret tt (w_console w)
      | Exit status w => Exit status (w_console w)
      | Undef => Undef
      end
  | Exit status k => Exit status k
  | Undef => Undef
  end.

End Platform.

(** ** What a run is expected to print *)

Section Expected.

Variable W : nat.
Variable ISPRINT : byte → bool.
Variable g : globals.

(** The line of first-difference mode for bytes [x] and [y]. *)
Definition differ_line (char_number line_number : Z) (x y : byte) : stdout_line :=
  if opt_print_bytes g
  then Differ_byte (sel 0 (file g)) (sel 1 (file g)) char_number line_number
         x (sprintc ISPRINT 0 x) y (sprintc ISPRINT 0 y)
  else Differ_char (sel 0 (file g)) (sel 1 (file g)) char_number line_number.

(** The line of all-differences mode for bytes [x] and [y]. *)
Definition diff_line (char_number : Z) (x y : byte) : stdout_line :=
  if opt_print_bytes g
  then Diff_octal_bytes char_number x (sprintc ISPRINT 4 x) y (sprintc ISPRINT 0 y)
  else Diff_octal char_number x y.



(** The same lines, by recursion on the two sequences. *)
Fixpoint diff_lines (char_number : Z) (a b : list byte) : list stdout_line :=
  match a, b with
  | x :: a', y :: b' =>
      (if decide (x ≠ y) then [diff_line char_number x y] else [])
      ++ diff_lines (char_number + 1) a' b'
  | _, _ => []
  end.

(** The diagnostic for sequences of different lengths. *)
Definition eof_lines (a b : list byte) : list stderr_line :=
  if decide (length a ≠ length b ∧ comparison_type g ≠ type_status)
  then [Eof_on (sel (if decide (length b < length a)%nat then 1 else 0)%nat (file g))]
  else [].

(** What one pass over the blocks [x] and [y] yields and prints. *)
Definition pass_outcome (line_number char_number ret : Z) (x y : list byte)
    : pass * list stdout_line * list stderr_line :=
  let d := lcp x y in
  let finish line_number ret :=
    if decide (length x ≠ length y) then Return 1
    else if decide (length x = buf_size g)
         then Again line_number (char_number + Z.of_nat (Nat.min (length x) (length y))) ret
         else Leave ret in
  if decide (d < Nat.min (length x) (length y))%nat then
    match comparison_type g with
    | type_first_diff =>
        (Return 1,
         [differ_line (char_number + Z.of_nat d) (line_number + count_nl (take d x))
            (default Byte.x00 (x !! d)) (default Byte.x00 (y !! d))], [])
    | type_status => (Return 1, [], [])
    | type_all_diffs =>
        (finish line_number 1, diff_lines char_number x y, eof_lines x y)
    end
  else
    (finish (if decide (comparison_type g = type_first_diff)
             then line_number + count_nl (take d x) else line_number) ret,
     [], eof_lines x y).

(** What the whole loop yields and prints for the sequences [a] and [b]. *)
Definition loop_outcome (line_number char_number ret : Z) (a b : list byte)
    : Z * list stdout_line * list stderr_line :=
  let d := lcp a b in
  let status ret := if decide (length a ≠ length b) then 1 else ret in
  match comparison_type g with
  | type_first_diff =>
      if decide (d < Nat.min (length a) (length b))%nat
      then (1, [differ_line (char_number + Z.of_nat d)
                  (line_number + count_nl (take d a))
                  (default Byte.x00 (a !! d)) (default Byte.x00 (b !! d))], [])
      else (status ret, [], eof_lines a b)
  | type_status =>
      if decide (d < Nat.min (length a) (length b))%nat
      then (1, [], [])
      else (status ret, [], [])
  | type_all_diffs =>
      (status (if decide (diff_lines char_number a b = []) then ret else 1),
       diff_lines char_number a b, eof_lines a b)
  end.

(** Both buffers have the size [main] allocates. *)
Definition buffers_ok (w : world) : Prop :=
  length (sel 0 (buffer w)) = (W * words_per_buffer W (buf_size g))%nat
  ∧ length (sel 1 (buffer w)) = (W * words_per_buffer W (buf_size g))%nat.

(** Descriptor [f] delivers its bytes and then end of file. *)
Definition reads_ok (f : nat) (w : world) : Prop :=
  s_fail (sel f (file_desc w)) = false ∧ 0 ≤ s_pos (sel f (file_desc w)).

(** The bytes [cmp] compares from descriptor [f]: those after the ignored
    initial prefix, unless [file_position] has moved past it already. *)
Definition compared (f : nat) (w : world) : list byte :=
if decide (sel f (positioned w) = true ∧ sel f (position w) ≠ -1)
then s_bytes (sel f (file_desc w))
else drop (Z.to_nat (ignore_initial g)) (s_bytes (sel f (file_desc w))).

End Expected.

(** ** Quoted bytes, as the description words them *)

(** The printable characters of the C locale. *)
Definition isprint_C (c : byte) : bool := bool_decide (32 ≤ byte_val c ≤ 126).

(** Control characters get a caret and 64 added, DEL is [^?], and anything
    else stands for itself. *)
Definition control_quote (c : Z) : list byte :=
  if decide (c < 32) then [Byte.x5e; byte_of_Z (c + 64)]
  else if decide (c = 127) then [Byte.x5e; Byte.x3f]
  else [byte_of_Z c].

(** Printable bytes render as themselves; of the others, those with the
    high bit set get [M-] before the quoting of their low seven bits. *)
Definition quoted (ISPRINT : byte → bool) (c : byte) : list byte :=
  if ISPRINT c then [c]
  else if decide (128 ≤ byte_val c)
       then [Byte.x4d; Byte.x2d] ++ control_quote (byte_val c - 128)
       else control_quote (byte_val c).

(** Padding with spaces on the right to [width] characters. *)
Definition padded (width : Z) (s : list byte) : list byte :=
  s ++ replicate (Z.to_nat (width - Z.of_nat (length s))) Byte.x20.

(** ** The command line, as the description words it *)

(** Options that let the option loop run to its end. *)
Definition option_passes (c : getopt_result) : Prop :=
  match c with
  | Opt_v | Opt_help | Opt_invalid => False
  | Opt_i _ val bad => 0 ≤ to_off_t val ∧ to_off_t val = val ∧ bad = false
  | _ => True
  end.

(** The mode chosen by the last of the flags [-l] and [-s], if any. *)
Fixpoint last_mode (opts : list getopt_result) (mode : comparison_type_t)
    : comparison_type_t :=
  match opts with
  | [] => mode
  | Opt_l :: opts' => last_mode opts' type_all_diffs
  | Opt_s :: opts' => last_mode opts' type_status
  | _ :: opts' => last_mode opts' mode
  end.

(** The file position [file_position] yields for a descriptor it has not
    positioned before. *)
Definition skip_position (g : globals) (fi : file_info) : Z :=
  (lseek_cur (fi_stream fi) (ignore_initial g)).1.

(** Diagnostics of usage and I/O errors: all but the EOF message. *)
Definition is_error (l : stderr_line) : Prop :=
  match l with Eof_on _ => False | _ => True end.

(** ** Runs that end in an orderly way *)

(** No diagnostic of an error has been written. *)
Definition quiet (k : console) : Prop := Forall (λ l, ¬ is_error l) (c_err k).

(** Some diagnostic of an error has been written. *)
Definition failed (k : console) : Prop := Exists is_error (c_err k).

(** A program either completes with a result that satisfies [Q], or exits
    with status 0 or 1, having reported no error in both cases, or it exits
    with status 2 after reporting an error (or in the situation [silent],
    where no report is made).  [con] finds the console in the state. *)
Definition orderly {S A} (con : S → console) (silent : Prop) (Q : A → S → Prop)
    (o : outcome S A) : Prop :=
  match o with
  | Ret a s => Q a s ∧ quiet (con s)
  | Exit status s =>
      ((status = 0 ∨ status = 1) ∧ quiet (con s))
      ∨ (status = 2 ∧ (failed (con s) ∨ silent))
  | Undef => False
  end.


(** The command line holds at least the program name, and [optind] lies
    within it. *)
Definition invocation_ok (i : invocation) : Prop :=
  (1 ≤ optind i ≤ length (argv i))%nat.

(** ** Further notions for the statements below *)

(** Reading a rendering back: the value that a caret notation, or a
    single character, stands for. *)
Definition uncontrol (s : list byte) : Z :=
  match s with
  | c :: x :: _ =>
      if decide (c = Byte.x5e ∧ 63 ≤ byte_val x ≤ 95)
      then (if decide (x = Byte.x3f) then 127 else byte_val x - 64)
      else byte_val c
  | [c] => byte_val c
  | [] => 0
  end.

(** The byte that a rendering by [sprintc] stands for. *)
Definition unquote (s : list byte) : byte :=
  match s with
  | m :: d :: s' =>
      if decide (m = Byte.x4d ∧ d = Byte.x2d)
      then byte_of_Z (128 + uncontrol s')
      else byte_of_Z (uncontrol s)
  | _ => byte_of_Z (uncontrol s)
  end.

(** How far the loop of [cmp] scans: in all-differences mode to the end of
    the shorter input, otherwise to the first difference. *)
Definition scanned (g : globals) (a b : list byte) : nat :=
  if decide (comparison_type g = type_all_diffs)
  then Nat.min (length a) (length b)
  else lcp a b.

(** Descriptor [f] is as [open] left it, or as the one [lseek] of
    [file_position] left it. *)
Definition positioned_ok (g : globals) (st : file_info * file_info) (f : nat)
    (w : world) : Prop :=
  if sel f (positioned w)
  then (sel f (position w), sel f (file_desc w))
       = lseek_cur (fi_stream (sel f st)) (ignore_initial g)
  else sel f (file_desc w) = fi_stream (sel f st).

(** The mode after [main] has looked at standard output. *)
Definition assumed_mode (e : env) (g : globals) : globals :=
  if decide (comparison_type g ≠ type_status ∧ stdout_is_null e = true)
  then set_comparison_type type_status g else g.

(** The size shortcut of [main] applies. *)
Definition sizes_differ (e : env) (g : globals) (st : file_info * file_info) : Prop :=
  comparison_type (assumed_mode e g) = type_status
  ∧ fi_regular (sel 0 st) = true ∧ fi_regular (sel 1 st) = true
  ∧ Z.max 0 (fi_size (sel 0 st) - skip_position g (sel 0 st))
    ≠ Z.max 0 (fi_size (sel 1 st) - skip_position g (sel 1 st)).

(** The same-file shortcut of [main] applies. *)
Definition same_open_file (g : globals) (st : file_info * file_info) : Prop :=
  0 < same_file (sel 0 st) (sel 1 st)
  ∧ same_file_attributes (sel 0 st) (sel 1 st) = true
  ∧ skip_position g (sel 0 st) = skip_position g (sel 1 st).

(** The globals [cmp] runs with. *)
Definition cmp_globals (e : env) (g : globals) (st : file_info * file_info) : globals :=
  set_buf_size (buffer_lcm (fi_blocksize (sel 0 st)) (fi_blocksize (sel 1 st)))
    (assumed_mode e g).

(** An input that delivers its bytes and then end of file; if it is a
    regular file, the [lseek] of [file_position] succeeds on it, and its
    size is that of its content. *)
Definition plain_input (fi : file_info) : Prop :=
  s_fail (fi_stream fi) = false ∧ 0 ≤ s_pos (fi_stream fi)
  ∧ (fi_regular fi = true →
     s_seekable (fi_stream fi) = true
     ∧ fi_size fi = s_pos (fi_stream fi) + Z.of_nat (length (s_bytes (fi_stream fi)))).

(** The bytes of an operand after the ignored initial prefix. *)
Definition content (g : globals) (fi : file_info) : list byte :=
  drop (Z.to_nat (ignore_initial g)) (s_bytes (fi_stream fi)).

(** [main] after [cmp] has returned [exit_status]. *)
Definition finish_main (e : env) (g : globals) (st : file_info * file_info)
    (exit_status : Z) : prog world unit :=
  on_console (close_operand g st 0);;
  on_console (close_operand g st 1);;
  (if decide (exit_status ≠ 0 ∧ comparison_type g ≠ type_status)
   then on_console (check_stdout e) else mret tt);;
  exit exit_status.

(** [main] from the call of [cmp] on. *)
Definition wrap_up W big_endian ISPRINT (e : env) (g : globals)
    (st : file_info * file_info) : prog world unit :=
  exit_status ← cmp W big_endian ISPRINT g;
  finish_main e g st exit_status.



(** ** Sample runs *)

(** A run with words of four bytes and blocks of four bytes, on two files
    named [a] and [b]. *)
Definition sample_globals (t : comparison_type_t) (ig : Z) (pb : bool) : globals :=
  Globals ("a"%string, "b"%string) 4 ig t pb.

(** Descriptor 0 cannot seek (a pipe), descriptor 1 can; the buffers hold
    eight bytes each. *)
Definition sample_world (a b : list byte) : world :=
  World (Stream a false false 0, Stream b false true 0)
    (replicate 8 Byte.x00, replicate 8 Byte.xff) (false, false) (0, 0)
    (Console [] [] 0).

(** Two lines and a bit, differing in their last byte only. *)
Definition sample_text (last : byte) : list byte :=
  [Byte.x61; Byte.x62; Byte.x0a; Byte.x63; Byte.x64; Byte.x65; Byte.x66;
   Byte.x0a; Byte.x67; last].

(** Buffers as they are after two reads of three and four bytes. *)
Definition sample_blocks : world :=
  World (Stream [] false false 0, Stream [] false false 0)
    ([Byte.x61; Byte.x62; Byte.x63; Byte.x00; Byte.x00; Byte.x00; Byte.x00; Byte.x00],
     [Byte.x61; Byte.x62; Byte.x63; Byte.x64; Byte.xff; Byte.xff; Byte.xff; Byte.xff])
    (false, false) (0, 0) (Console [] [] 0).

(** A regular file with the given content, read from its start. *)
Definition sample_file (id : Z) (content : list byte) : file_info :=
  File_info (Stream content false true 0) true true (Z.of_nat (length content))
    (0, id) id 4%positive true.

(** The five bytes of [hello]. *)
Definition sample_hello : list byte :=
  [Byte.x68; Byte.x65; Byte.x6c; Byte.x6c; Byte.x6f].

(** Files [a] (five bytes) and [b] (seven bytes); nothing else can be
    opened.  Standard input is a regular file of eight bytes of which three
    have been consumed already, so that the five bytes of [a] remain. *)
Definition sample_env : env :=
  Env (λ name, if decide (name = "a"%string) then Some (sample_file 1 sample_hello)
               else if decide (name = "b"%string)
                    then Some (sample_file 2 (sample_hello ++ [Byte.x21; Byte.x0a]))
                    else None)
    (File_info (Stream sample_hello false true 3) true true 8 (0, 3) 3 4%positive true)
    false false true (λ _, Byte.x00).

(** Two regular files [a] and [b] with the given contents. *)
Definition sample_pair (a b : list byte) : env :=
  Env (λ name, if decide (name = "a"%string) then Some (sample_file 1 a)
               else if decide (name = "b"%string) then Some (sample_file 2 b)
                    else None)
    (sample_file 0 []) false false true (λ _, Byte.xaa).

(** [cmp OPTIONS OPERANDS], with the options already recognised. *)
Definition sample_invocation (opts : list getopt_result) (operands : list string)
    : invocation :=
  Invocation ("cmp"%string :: operands) 1 opts.

(** Files [a] and [b] that are two names of one file. *)
Definition sample_links : env :=
  Env (λ name, if decide (name = "a"%string ∨ name = "b"%string)
               then Some (sample_file 1 sample_hello) else None)
    (sample_file 0 []) false false true (λ _, Byte.x00).

(** Files [a] ([hello]) and [b] ([hellp]); [close] fails on [a] unless
    [close_ok], and [ferror] tells whether writing to standard output has
    failed. *)
Definition sample_faulty (close_ok ferror : bool) : env :=
  Env (λ name, if decide (name = "a"%string)
               then Some (File_info (Stream sample_hello false true 0) true true 5
                            (0, 1) 1 4%positive close_ok)
               else if decide (name = "b"%string)
                    then Some (sample_file 2 [Byte.x68; Byte.x65; Byte.x6c; Byte.x6c;
                                              Byte.x70])
                    else None)
    (sample_file 0 []) false ferror true (λ _, Byte.x00).

(** Files [a] (five bytes) and [b] (seven bytes), regular files on which
    [lseek] fails. *)
Definition sample_unseekable : env :=
  Env (λ name, if decide (name = "a"%string)
               then Some (File_info (Stream sample_hello false false 0) true true 5
                            (0, 1) 1 4%positive true)
               else if decide (name = "b"%string)
                    then Some (File_info (Stream (sample_hello ++ [Byte.x21; Byte.x0a])
                                            false false 0) true true 7
                                 (0, 2) 2 4%positive true)
                    else None)
    (sample_file 0 []) false false true (λ _, Byte.x00).

(** * Properties *)

(** ** Bytes and words *)

Lemma byte_val_range (b : byte) : 0 ≤ byte_val b < 256.
Proof.
  unfold byte_val. pose proof (Byte.to_N_bounded b) as H. lia.
Qed.

Lemma byte_val_inj (a b : byte) : byte_val a = byte_val b → a = b.
Proof.
  unfold byte_val. intros H. apply N2Z.inj in H.
  assert (Some a = Some b) as [= ->]; [|done].
  by rewrite <-(Byte.of_to_N a), <-(Byte.of_to_N b), H.
Qed.

Lemma byte_of_val (b : byte) : byte_of_Z (byte_val b) = b.
Proof. by destruct b. Qed.

Lemma byte_not_neq (b : byte) : byte_not b ≠ b.
Proof. by destruct b. Qed.

Lemma count_nl_app (a b : list byte) : count_nl (a ++ b) = count_nl a + count_nl b.
Proof. induction a as [|x a IH]; simpl; [done|]. rewrite IH. lia. Qed.

Lemma count_nl_reverse (a : list byte) : count_nl (reverse a) = count_nl a.
Proof.
  induction a as [|x a IH]; [done|].
  rewrite reverse_cons, count_nl_app, IH. simpl. lia.
Qed.

Lemma le_value_range (bs : list byte) : 0 ≤ le_value bs < 256 ^ Z.of_nat (length bs).
Proof.
  induction bs as [|b bs IH]; simpl length; [simpl; lia|].
  rewrite Nat2Z.inj_succ, Z.pow_succ_r by lia.
  simpl le_value. pose proof (byte_val_range b). lia.
Qed.

Lemma le_value_inj (a b : list byte) :
  length a = length b → le_value a = le_value b → a = b.
Proof.
  revert b. induction a as [|x a IH]; intros [|y b] Hl Hv; simplify_eq/=; [done|].
  pose proof (byte_val_range x). pose proof (byte_val_range y).
  assert (byte_val x = byte_val y) as Hxy by lia.
  f_equal; [by apply byte_val_inj|]. apply IH; lia.
Qed.

Lemma word_of_bytes_inj big_endian (a b : list byte) :
  length a = length b → word_of_bytes big_endian a = word_of_bytes big_endian b → a = b.
Proof.
  unfold word_of_bytes. destruct big_endian; intros Hl Hv.
  - apply le_value_inj in Hv; [|by rewrite !length_reverse].
    by rewrite <-(reverse_involutive a), Hv, reverse_involutive.
  - by apply le_value_inj.
Qed.

Lemma make_nnnn_replicate W i j :
  (i + j ≤ W)%nat →
  make_nnnn W i (le_value (replicate j newline)) = le_value (replicate (i + j) newline).
Proof.
  revert j. induction i as [|i IH]; intros j Hij; [done|].
  simpl make_nnnn.
  assert (wrap_word W (Z.lor (Z.shiftl (le_value (replicate j newline)) 8)
                         (byte_val newline))
          = le_value (replicate (S j) newline)) as ->.
  { pose proof (le_value_range (replicate j newline)) as Hr.
    rewrite length_replicate in Hr.
    pose proof (le_value_range (replicate (S j) newline)) as Hr'.
    rewrite length_replicate in Hr'.
    assert (Z.lor (Z.shiftl (le_value (replicate j newline)) 8) (byte_val newline)
            = le_value (replicate (S j) newline)) as ->.
    { assert (Z.land (Z.shiftl (le_value (replicate j newline)) 8) (byte_val newline) = 0)
        as Hland.
      { apply Z.bits_inj'. intros n Hn.
        rewrite Z.land_spec, Z.bits_0. destruct (decide (n < 8)).
        - by rewrite Z.shiftl_spec_low by lia.
        - rewrite andb_comm. change (byte_val newline) with 10.
          rewrite (Z.bits_above_log2 10 n); [done|lia|].
          change (Z.log2 10) with 3. lia. }
      rewrite <-Z.lxor_lor, <-Z.add_nocarry_lxor by done.
      rewrite Z.shiftl_mul_pow2 by lia. simpl replicate. simpl le_value.
      change (2 ^ 8) with 256. lia. }
    unfold wrap_word. apply Z.mod_small. split; [lia|].
    eapply Z.lt_le_trans; [apply Hr'|].
    change 256 with (2 ^ 8). rewrite <-Z.pow_mul_r by lia.
    apply Z.pow_le_mono_r; lia. }
  rewrite IH by lia. by replace (i + S j)%nat with (S i + j)%nat by lia.
Qed.

Lemma make_nnnn_spec W : make_nnnn W W 0 = le_value (replicate W newline).
Proof.
  change 0 with (le_value (replicate 0 newline)).
  rewrite make_nnnn_replicate by lia. by rewrite Nat.add_0_r.
Qed.

Lemma land_lxor_distr_l (a b c : Z) :
  Z.land (Z.lxor a b) c = Z.lxor (Z.land a c) (Z.land b c).
Proof.
  apply Z.bits_inj'. intros n _.
  rewrite !Z.land_spec, !Z.lxor_spec, !Z.land_spec.
  by destruct (Z.testbit a n), (Z.testbit b n), (Z.testbit c n).
Qed.

Lemma count_zero_bytes_spec (bs : list byte) (cnt : Z) :
  count_zero_bytes (length bs)
    (Z.lxor (le_value bs) (le_value (replicate (length bs) newline))) cnt
  = cnt + count_nl bs.
Proof.
  revert cnt. induction bs as [|b bs IH]; intros cnt; simpl; [lia|].
  pose proof (byte_val_range b) as Hb.
  pose proof (le_value_range bs) as Hx.
  pose proof (le_value_range (replicate (length bs) newline)) as Hy.
  set (x := le_value bs) in *. set (y := le_value (replicate (length bs) newline)) in *.
  rewrite Z.shiftr_lxor, !Z.shiftr_div_pow2 by lia. change (2 ^ 8) with 256.
  replace ((byte_val b + 256 * x) / 256) with x by (apply Z.div_unique with (byte_val b); lia).
  change (byte_val newline) with 10.
  replace ((10 + 256 * y) / 256) with y by (apply Z.div_unique with 10; lia).
  rewrite IH.
  assert (Z.lxor (byte_val b + 256 * x) (10 + 256 * y) mod 256
          = Z.lxor (byte_val b) 10) as ->.
  { change 256 with (2 ^ 8) at 3. rewrite <-Z.land_ones by lia.
    rewrite land_lxor_distr_l, !Z.land_ones by lia. change (2 ^ 8) with 256.
    f_equal.
    - symmetry. apply Z.mod_unique with x; lia.
    - symmetry. apply Z.mod_unique with y; lia. }
  rewrite Z.add_assoc. f_equal. f_equal.
  do 2 case_decide; try lia.
  - exfalso. apply Z.lxor_eq in H. apply H0. apply byte_val_inj. by rewrite H.
  - exfalso. subst b. by apply H.
Qed.

(** ** The block comparators find the first differing byte *)

Section BlockCompareFacts.

Variable W : nat.
Variable big_endian : bool.
Hypothesis W_pos : (0 < W)%nat.

(** Two arrays that agree on their first [d] bytes and differ at offset [d],
    with room for the whole word that holds offset [d]. *)
Variables p0 p1 : list byte.
Variable d : nat.
Hypothesis prefix_eq : take d p0 = take d p1.
Hypothesis differ : p0 !! d ≠ p1 !! d.
Hypothesis room0 : (d `div` W * W + W ≤ length p0)%nat.
Hypothesis room1 : (d `div` W * W + W ≤ length p1)%nat.

Lemma div_mul_le : (d `div` W * W ≤ d)%nat.
Proof. rewrite Nat.mul_comm. apply Nat.Div0.mul_div_le. Qed.

Lemma lt_div_mul : (d < d `div` W * W + W)%nat.
Proof.
  pose proof (Nat.div_mod_eq d W). pose proof (Nat.mod_upper_bound d W). lia.
Qed.

Lemma div_le_self : (d `div` W ≤ d)%nat.
Proof. pose proof div_mul_le. nia. Qed.

Lemma word_index_bound (i : nat) : (i < d `div` W)%nat → (i * W + W ≤ d)%nat.
Proof. pose proof div_mul_le. nia. Qed.

Lemma load_word_in (p : list byte) (i : nat) :
  (i * W + W ≤ length p)%nat →
  load_word W big_endian p i
  = Some (word_of_bytes big_endian (take W (drop (i * W) p))).
Proof.
  intros Hi. unfold load_word. rewrite decide_True; [done|].
  rewrite length_take, length_drop. lia.
Qed.

Lemma segment_eq (i : nat) :
  (i < d `div` W)%nat → take W (drop (i * W) p0) = take W (drop (i * W) p1).
Proof.
  intros Hi%word_index_bound. rewrite !take_drop_commute.
  rewrite <-(Nat.min_l (i * W + W) d), <-!take_take by lia.
  by rewrite prefix_eq.
Qed.

Lemma segment_neq :
  take W (drop (d `div` W * W) p0) ≠ take W (drop (d `div` W * W) p1).
Proof.
  intros Heq. apply differ.
  pose proof div_mul_le. pose proof lt_div_mul.
  apply (f_equal (λ l, l !! (d - d `div` W * W)%nat)) in Heq.
  rewrite !lookup_take_lt, !lookup_drop in Heq by lia.
  by replace (d `div` W * W + (d - d `div` W * W))%nat with d in Heq by lia.
Qed.

Lemma byte_eq_before (c : nat) : (c < d)%nat → ∃ x, p0 !! c = Some x ∧ p1 !! c = Some x.
Proof.
  intros Hc. pose proof lt_div_mul.
  destruct (lookup_lt_is_Some_2 p0 c) as [x Hx]; [lia|]. exists x. split; [done|].
  rewrite <-(lookup_take_lt p1 d), <-prefix_eq, lookup_take_lt; done.
Qed.

Lemma byte_at_diff : ∃ x y, p0 !! d = Some x ∧ p1 !! d = Some y ∧ x ≠ y.
Proof.
  pose proof lt_div_mul.
  destruct (lookup_lt_is_Some_2 p0 d) as [x Hx]; [lia|].
  destruct (lookup_lt_is_Some_2 p1 d) as [y Hy]; [lia|].
  exists x, y. repeat split; [done..|]. intros ->. apply differ. congruence.
Qed.

Lemma word_scan_spec (n i fuel : nat) :
  (i + n = d `div` W)%nat → (n < fuel)%nat →
  word_scan W big_endian fuel p0 p1 i = Some (d `div` W)%nat.
Proof.
  revert i fuel. induction n as [|n IH]; intros i [|fuel] Hi Hf; try lia; simpl.
  - replace i with (d `div` W)%nat by lia.
    rewrite !load_word_in by lia. simpl.
    rewrite decide_False; [done|].
    intros Hw%word_of_bytes_inj; [by apply segment_neq|].
    rewrite !length_take, !length_drop. lia.
  - assert (i < d `div` W)%nat as Hlt by lia.
    pose proof (word_index_bound i Hlt). pose proof lt_div_mul.
    rewrite !load_word_in by lia. simpl.
    rewrite segment_eq, decide_True by done. apply IH; lia.
Qed.

Lemma byte_scan_spec (n c fuel : nat) :
  (c + n = d)%nat → (n < fuel)%nat →
  byte_scan fuel p0 p1 c = Some d.
Proof.
  revert c fuel. induction n as [|n IH]; intros c [|fuel] Hc Hf; try lia; simpl.
  - replace c with d by lia.
    destruct byte_at_diff as (x & y & -> & -> & Hxy). simpl.
    by rewrite decide_False.
  - destruct (byte_eq_before c) as (x & -> & ->); [lia|]. simpl.
    rewrite decide_True by done. apply IH; lia.
Qed.

Lemma block_compare_spec : block_compare W big_endian p0 p1 = Some d.
Proof.
  pose proof lt_div_mul. pose proof div_mul_le. pose proof div_le_self.
  unfold block_compare.
  rewrite (word_scan_spec (d `div` W) 0) by lia. cbn [mbind option_bind].
  apply (byte_scan_spec (d - d `div` W * W)); lia.
Qed.

Lemma count_word_spec (bs : list byte) (cnt : Z) :
  length bs = W →
  count_zero_bytes W (Z.lxor (word_of_bytes big_endian bs) (make_nnnn W W 0)) cnt
  = cnt + count_nl bs.
Proof.
  intros Hl. rewrite make_nnnn_spec. unfold word_of_bytes.
  destruct big_endian.
  - rewrite <-(count_nl_reverse bs), <-count_zero_bytes_spec.
    by rewrite length_reverse, Hl.
  - by rewrite <-count_zero_bytes_spec, Hl.
Qed.

Lemma word_scan_count_spec (n i fuel : nat) (cnt : Z) :
  (i + n = d `div` W)%nat → (n < fuel)%nat →
  word_scan_count W big_endian fuel (make_nnnn W W 0) p0 p1 i cnt
  = Some ((d `div` W)%nat, cnt + count_nl (take (n * W) (drop (i * W) p0))).
Proof.
  revert i fuel cnt.
  induction n as [|n IH]; intros i [|fuel] cnt Hi Hf; try lia; simpl.
  - replace i with (d `div` W)%nat by lia.
    rewrite !load_word_in by lia. simpl.
    rewrite decide_False; [by rewrite Z.add_0_r|].
    intros Hw%word_of_bytes_inj; [by apply segment_neq|].
    rewrite !length_take, !length_drop. lia.
  - assert (i < d `div` W)%nat as Hlt by lia.
    pose proof (word_index_bound i Hlt). pose proof lt_div_mul.
    rewrite !load_word_in by lia. simpl.
    rewrite segment_eq, decide_True by done.
    rewrite IH by lia. f_equal. f_equal.
    rewrite <-segment_eq by done.
    rewrite count_word_spec by (rewrite length_take, length_drop; lia).
    rewrite <-Z.add_assoc. f_equal.
    rewrite <-take_take_drop, count_nl_app, drop_drop.
    by replace (i * W + W)%nat with (W + i * W)%nat by lia.
Qed.

Lemma byte_scan_count_spec (n c fuel : nat) (cnt : Z) :
  (c + n = d)%nat → (n < fuel)%nat →
  byte_scan_count fuel p0 p1 c cnt
  = Some (d, cnt + count_nl (take n (drop c p0))).
Proof.
  revert c fuel cnt.
  induction n as [|n IH]; intros c [|fuel] cnt Hc Hf; try lia; simpl.
  - replace c with d by lia.
    destruct byte_at_diff as (x & y & -> & -> & Hxy). simpl.
    rewrite decide_False by done. by rewrite Z.add_0_r.
  - destruct (byte_eq_before c) as (x & Hx & Hx'); [lia|].
    rewrite Hx, Hx'. simpl.
    rewrite decide_True by done. rewrite IH by lia. f_equal. f_equal.
    rewrite (drop_S _ _ _ Hx). simpl. lia.
Qed.

Lemma block_compare_and_count_spec (count : Z) :
  block_compare_and_count W big_endian p0 p1 count
  = Some (d, count + count_nl (take d p0)).
Proof.
  pose proof lt_div_mul. pose proof div_mul_le. pose proof div_le_self.
  unfold block_compare_and_count.
  rewrite (word_scan_count_spec (d `div` W) 0) by lia. cbn [mbind option_bind].
  rewrite (byte_scan_count_spec (d - d `div` W * W)) by lia. cbn [mbind option_bind].
  rewrite Z.add_0_l, Nat.mul_0_l, drop_0, <-count_nl_app, take_take_drop.
  by replace (d `div` W * W + (d - d `div` W * W))%nat with d by lia.
Qed.

End BlockCompareFacts.

(** ** The longest common prefix *)

Lemma lcp_le_l (a b : list byte) : (lcp a b ≤ length a)%nat.
Proof.
  revert b. induction a as [|x a IH]; intros [|y b]; simpl; try lia.
  case_decide; [specialize (IH b)|]; lia.
Qed.

Lemma lcp_le_r (a b : list byte) : (lcp a b ≤ length b)%nat.
Proof.
  revert b. induction a as [|x a IH]; intros [|y b]; simpl; try lia.
  case_decide; [specialize (IH b)|]; lia.
Qed.

Lemma lcp_take (a b : list byte) : take (lcp a b) a = take (lcp a b) b.
Proof.
  revert b. induction a as [|x a IH]; intros [|y b]; simpl; try done.
  case_decide; [subst; simpl; by rewrite IH|done].
Qed.

Lemma lcp_differ (a b : list byte) : a !! lcp a b = b !! lcp a b → lcp a b = length a ∧ lcp a b = length b.
Proof.
  revert b. induction a as [|x a IH]; intros [|y b]; simpl; try done.
  case_decide; simpl; [|by intros [= ?]].
  intros []%IH. lia.
Qed.

Lemma lcp_unique (a b : list byte) (k : nat) :
  take k a = take k b → (k ≤ length a)%nat → (k ≤ length b)%nat →
  a !! k ≠ b !! k ∨ k = length a ∨ k = length b →
  lcp a b = k.
Proof.
  revert b k. induction a as [|x a IH]; intros [|y b] [|k]; simpl;
    intros Ht Ha Hb Hd; try done; try lia.
  - case_decide; [|done]. subst. destruct Hd as [?|[?|?]]; done.
  - simplify_eq. rewrite decide_True by done. f_equal.
    apply IH; [done|lia..|]. destruct Hd as [?|[?|?]]; [by left|right; lia..].
Qed.

Lemma lcp_same (a : list byte) : lcp a a = length a.
Proof. induction a as [|x a IH]; simpl; [done|]. by rewrite decide_True, IH. Qed.

Lemma lcp_app (x a b : list byte) : lcp (x ++ a) (x ++ b) = (length x + lcp a b)%nat.
Proof. induction x as [|c x IH]; simpl; [done|]. by rewrite decide_True, IH. Qed.

Lemma lcp_full_eq (a b : list byte) :
  lcp a b = length a → length a = length b → a = b.
Proof.
  intros Hl Hab. pose proof (lcp_take a b) as Ht.
  by rewrite Hl, take_ge, Hab, take_ge in Ht by lia.
Qed.

Lemma lcp_take_blocks (n : nat) (a b : list byte) :
  lcp (take n a) (take n b) = Nat.min n (lcp a b).
Proof.
  revert n b. induction a as [|x a IH]; intros [|n] [|y b]; simpl; try done.
  case_decide; [by rewrite IH|done].
Qed.

(** ** One block: reads, sentinels, comparison *)

Lemma block_read_sys_ok (s : stream) (n : nat) :
  s_fail s = false ∨ (n ≤ length (s_bytes s))%nat →
  block_read_sys s n
  = (Some (take n (s_bytes s)), advance s (length (take n (s_bytes s)))).
Proof.
  intros Hs. unfold block_read_sys. case_decide.
  - by rewrite length_take_le.
  - destruct Hs as [->|?]; [|lia]. by rewrite take_ge by lia.
Qed.

Lemma block_read_spec0 g s0 s1 b0 b1 pd ps out err rd :
  s_fail s0 = false ∨ (buf_size g ≤ length (s_bytes s0))%nat →
  (buf_size g ≤ length b0)%nat →
  let x := take (buf_size g) (s_bytes s0) in
  block_read g 0 (World (s0, s1) (b0, b1) pd ps (Console out err rd))
  = Ret (Some (length x))
      (World (advance s0 (length x), s1) (x ++ drop (length x) b0, b1) pd ps
         (Console out err (S rd))).
Proof.
  intros Hs Hb x. unfold block_read. simpl.
  rewrite block_read_sys_ok by done. fold x. simpl.
  unfold store_bytes. simpl. rewrite decide_True; [done|].
  unfold x. rewrite length_take. lia.
Qed.

Lemma block_read_spec1 g s0 s1 b0 b1 pd ps out err rd :
  s_fail s1 = false ∨ (buf_size g ≤ length (s_bytes s1))%nat →
  (buf_size g ≤ length b1)%nat →
  let y := take (buf_size g) (s_bytes s1) in
  block_read g 1 (World (s0, s1) (b0, b1) pd ps (Console out err rd))
  = Ret (Some (length y))
      (World (s0, advance s1 (length y)) (b0, y ++ drop (length y) b1) pd ps
         (Console out err (S rd))).
Proof.
  intros Hs Hb y. unfold block_read. simpl.
  rewrite block_read_sys_ok by done. fold y. simpl.
  unfold store_bytes. simpl. rewrite decide_True; [done|].
  unfold y. rewrite length_take. lia.
Qed.

Lemma insert_sentinels_spec fd B0 B1 pd ps k (r0 r1 : nat) :
  (r0 < length B0)%nat → (r1 < length B1)%nat → length B0 = length B1 →
  ∃ c c',
    B1 !! r0 = Some c ∧ <[r0:=byte_not c]> B0 !! r1 = Some c' ∧
    insert_sentinels r0 r1 (World fd (B0, B1) pd ps k)
    = Ret tt (World fd (<[r0:=byte_not c]> B0, <[r1:=byte_not c']> B1) pd ps k).
Proof.
  intros H0 H1 Hl.
  destruct (lookup_lt_is_Some_2 B1 r0) as [c Hc]; [lia|].
  destruct (lookup_lt_is_Some_2 (<[r0:=byte_not c]> B0) r1) as [c' Hc'];
    [rewrite length_insert; lia|].
  exists c, c'. split_and!; [done..|].
  unfold insert_sentinels, load_byte, store_byte. simpl.
  unfold mbind, prog_bind, get. simpl. rewrite Hc. simpl.
  rewrite decide_True by done. simpl.
  unfold set_buffer. simpl. rewrite Hc'. simpl.
  rewrite decide_True by done. done.
Qed.

(** After the sentinels are in place the two arrays agree exactly on the
    common prefix of the two blocks, and differ right after it. *)
Lemma sentinel_first_diff (x y b0 b1 : list byte) (c c' : byte) :
  (length x < length b0)%nat → (length y < length b1)%nat → length b0 = length b1 →
  let B0 := x ++ drop (length x) b0 in
  let B1 := y ++ drop (length y) b1 in
  B1 !! length x = Some c →
  <[length x:=byte_not c]> B0 !! length y = Some c' →
  let B0' := <[length x:=byte_not c]> B0 in
  let B1' := <[length y:=byte_not c']> B1 in
  (∀ i, (i < Nat.min (length x) (length y))%nat → B0' !! i = x !! i ∧ B1' !! i = y !! i)
  ∧ take (lcp x y) B0' = take (lcp x y) B1'
  ∧ B0' !! lcp x y ≠ B1' !! lcp x y.
Proof.
  intros Hx Hy Hl B0 B1 Hc Hc' B0' B1'.
  assert (length B0 = length b0) as HB0.
  { unfold B0. rewrite length_app, length_drop. lia. }
  assert (length B1 = length b1) as HB1.
  { unfold B1. rewrite length_app, length_drop. lia. }
  assert (∀ i, (i < Nat.min (length x) (length y))%nat →
               B0' !! i = x !! i ∧ B1' !! i = y !! i) as Hdata.
  { intros i Hi. unfold B0', B1'.
    rewrite !list_lookup_insert_ne by lia. unfold B0, B1.
    rewrite !lookup_app_l by lia. done. }
  split; [done|].
  pose proof (lcp_le_l x y). pose proof (lcp_le_r x y).
  split.
  - apply list_eq. intros i. rewrite !lookup_take.
    case_decide; [|done].
    destruct (Hdata i) as [-> ->]; [lia|].
    rewrite <-(lookup_take_lt x (lcp x y)), <-(lookup_take_lt y (lcp x y)) by done.
    by rewrite lcp_take.
  - destruct (decide (lcp x y < Nat.min (length x) (length y))%nat) as [Hlt|Hge].
    + destruct (Hdata _ Hlt) as [-> ->]. intros []%lcp_differ. lia.
    + destruct (decide (length x = length y)) as [Heq|Hne].
      * assert (lcp x y = length x) as -> by lia.
        unfold B0', B1'. rewrite Heq in *.
        rewrite list_lookup_insert_eq in Hc' by lia. simplify_eq.
        rewrite !list_lookup_insert_eq by lia.
        intros [= Hn]. by apply (byte_not_neq (byte_not c)).
      * destruct (decide (length x < length y)%nat).
        -- assert (lcp x y = length x) as -> by lia.
           unfold B0', B1'.
           rewrite list_lookup_insert_eq, list_lookup_insert_ne, Hc by lia.
           intros [= Hn]. by apply (byte_not_neq c).
        -- assert (lcp x y = length y) as -> by lia.
           unfold B0', B1'. rewrite Hc', list_lookup_insert_eq by lia.
           intros [= Hn]. by apply (byte_not_neq c').
Qed.

Lemma bind_ret_eq {S A B} (m : prog S A) (f : A → prog S B) (s s' : S) (a : A) :
  m s = Ret a s' → (m ≫= f) s = f a s'.
Proof. intros H. unfold mbind, prog_bind. by rewrite H. Qed.

Lemma bind_mret {S A B} (a : A) (f : A → prog S B) (s : S) : (mret a ≫= f) s = f a s.
Proof. done. Qed.

Lemma buffer_room (W n : nat) : (0 < W)%nat → (n + W ≤ W * words_per_buffer W n)%nat.
Proof.
  intros HW. unfold words_per_buffer.
  pose proof (Nat.div_mod_eq (n + 2 * W - 1) W).
  pose proof (Nat.mod_upper_bound (n + 2 * W - 1) W). lia.
Qed.

(** ** The lines of all-differences mode *)

Section DiffLines.

Variable ISPRINT : byte → bool.
Variable g : globals.

Lemma diff_lines_app (cn : Z) (x y a b : list byte) :
  length x = length y →
  diff_lines ISPRINT g cn (x ++ a) (y ++ b)
  = diff_lines ISPRINT g cn x y ++ diff_lines ISPRINT g (cn + Z.of_nat (length x)) a b.
Proof.
  revert cn y. induction x as [|c x IH]; intros cn [|c' y] Hl; simplify_eq/=.
  - by rewrite Z.add_0_r.
  - rewrite IH by done. rewrite <-app_assoc. do 3 f_equal. lia.
Qed.

Lemma diff_lines_same (cn : Z) (x : list byte) : diff_lines ISPRINT g cn x x = [].
Proof.
  revert cn. induction x as [|c x IH]; intros cn; simpl; [done|].
  by rewrite decide_False, IH by (by intros ?).
Qed.

Lemma diff_lines_take (cn : Z) (m : nat) (a b : list byte) :
  (Nat.min (length a) (length b) ≤ m)%nat →
  diff_lines ISPRINT g cn (take m a) (take m b) = diff_lines ISPRINT g cn a b.
Proof.
  revert cn m b. induction a as [|c a IH]; intros cn [|m] [|c' b] Hm;
    simpl in *; try done; try lia.
  by rewrite IH by lia.
Qed.

Lemma diff_lines_skip (cn : Z) (d : nat) (a b : list byte) :
  take d a = take d b → (d ≤ length a)%nat → (d ≤ length b)%nat →
  diff_lines ISPRINT g cn a b
  = diff_lines ISPRINT g (cn + Z.of_nat d) (drop d a) (drop d b).
Proof.
  intros Ht Ha Hb.
  rewrite <-(take_drop d a), <-(take_drop d b) at 1.
  rewrite diff_lines_app by (rewrite !length_take; lia).
  by rewrite Ht, diff_lines_same, length_take_le.
Qed.



End DiffLines.

(** Unfold the operations of [prog] on a state that is known. *)
Ltac run :=
  repeat (progress (cbn [mbind mret prog_bind prog_ret get modify defined exit undef
                         on_console printf eprintf count_read error
                         set_buffer set_file_desc set_console set_position
                         file_desc buffer positioned position w_console
                         c_out c_err c_reads sel upd fst snd negb]
                    || unfold mbind, mret, prog_bind, prog_ret, get, modify, defined,
                         exit, undef, on_console, printf, eprintf, count_read, error,
                         set_buffer, set_file_desc, set_console, set_position)).

Lemma all_diffs_loop_spec ISPRINT g fdesc B0 B1 pd ps err rd (x y : list byte)
    (sm : nat) :
  (∀ i, (i < sm)%nat → B0 !! i = x !! i ∧ B1 !! i = y !! i) →
  (sm ≤ length x)%nat → (sm ≤ length y)%nat →
  ∀ (n fd fuel : nat) (cn : Z) out,
    (fd + S n = sm)%nat → (n < fuel)%nat →
    all_diffs_loop ISPRINT fuel g sm fd cn
      (World fdesc (B0, B1) pd ps (Console out err rd))
    = Ret (cn + Z.of_nat (S n))
        (World fdesc (B0, B1) pd ps
           (Console (out ++ diff_lines ISPRINT g cn (take (S n) (drop fd x))
                              (take (S n) (drop fd y))) err rd)).
Proof.
  intros Hdata Hx Hy n. induction n as [|n IH]; intros fd [|fuel] cn out Hfd Hf;
    try lia.
  - destruct (Hdata fd) as [H0 H1]; [lia|].
    destruct (lookup_lt_is_Some_2 x fd) as [c0 Hc0]; [lia|].
    destruct (lookup_lt_is_Some_2 y fd) as [c1 Hc1]; [lia|].
    rewrite (drop_S _ _ _ Hc0), (drop_S _ _ _ Hc1). simpl take.
    cbn [all_diffs_loop diff_lines]. unfold load_byte. run.
    rewrite H0, Hc0. run. rewrite H1, Hc1. run.
    rewrite (decide_False (P := (S fd < sm)%nat)) by lia.
    unfold diff_line.
    case_decide; destruct (opt_print_bytes g); run; rewrite ?app_nil_r; done.
  - destruct (Hdata fd) as [H0 H1]; [lia|].
    destruct (lookup_lt_is_Some_2 x fd) as [c0 Hc0]; [lia|].
    destruct (lookup_lt_is_Some_2 y fd) as [c1 Hc1]; [lia|].
    rewrite (drop_S _ _ _ Hc0), (drop_S _ _ _ Hc1).
    change (take (S (S n)) (c0 :: drop (S fd) x)) with (c0 :: take (S n) (drop (S fd) x)).
    change (take (S (S n)) (c1 :: drop (S fd) y)) with (c1 :: take (S n) (drop (S fd) y)).
    cbn [all_diffs_loop diff_lines]. unfold load_byte. run.
    rewrite H0, Hc0. run. rewrite H1, Hc1. run.
    rewrite (decide_True (P := (S fd < sm)%nat)) by lia.
    unfold diff_line at 1.
    case_decide; destruct (opt_print_bytes g); run;
      rewrite IH by lia; rewrite <-?app_assoc; simpl;
      (replace (cn + 1 + Z.of_nat (S n)) with (cn + Z.of_nat (S (S n))) by lia); done.
Qed.

Lemma cmp_pass_spec W big_endian ISPRINT g ln cn ret s0 s1 b0 b1 pd ps out err rd :
  (0 < W)%nat →
  s_fail s0 = false ∨ (buf_size g ≤ length (s_bytes s0))%nat →
  s_fail s1 = false ∨ (buf_size g ≤ length (s_bytes s1))%nat →
  length b0 = (W * words_per_buffer W (buf_size g))%nat →
  length b1 = (W * words_per_buffer W (buf_size g))%nat →
  let x := take (buf_size g) (s_bytes s0) in
  let y := take (buf_size g) (s_bytes s1) in
  let r := pass_outcome ISPRINT g ln cn ret x y in
  ∃ B0 B1,
    length B0 = length b0 ∧ length B1 = length b1 ∧
    cmp_pass W big_endian ISPRINT g ln cn ret
      (World (s0, s1) (b0, b1) pd ps (Console out err rd))
    = Ret r.1.1
        (World (advance s0 (length x), advance s1 (length y)) (B0, B1) pd ps
           (Console (out ++ r.1.2) (err ++ r.2) (S (S rd)))).
Proof.
  intros HW Hs0 Hs1 Hb0 Hb1 x y r.
  pose proof (buffer_room W (buf_size g) HW) as Hroom.
  assert (length x ≤ buf_size g)%nat as Hx by (unfold x; rewrite length_take; lia).
  assert (length y ≤ buf_size g)%nat as Hy by (unfold y; rewrite length_take; lia).
  set (B0 := x ++ drop (length x) b0). set (B1 := y ++ drop (length y) b1).
  assert (length B0 = length b0) as HB0.
  { unfold B0. rewrite length_app, length_drop. lia. }
  assert (length B1 = length b1) as HB1.
  { unfold B1. rewrite length_app, length_drop. lia. }
  destruct (insert_sentinels_spec (advance s0 (length x), advance s1 (length y))
              B0 B1 pd ps (Console out err (S (S rd))) (length x) (length y))
    as (c & c' & Hc & Hc' & Hins); [lia..|].
  destruct (sentinel_first_diff x y b0 b1 c c') as (Hdata & Htake & Hne);
    [lia|lia|lia|done|done|]. fold B0 B1 in Hdata, Htake, Hne.
  set (B0' := <[length x:=byte_not c]> B0) in *.
  set (B1' := <[length y:=byte_not c']> B1) in *.
  exists B0', B1'.
  split; [unfold B0'; by rewrite length_insert|].
  split; [unfold B1'; by rewrite length_insert|].
  set (d := lcp x y) in *.
  pose proof (lcp_le_l x y) as Hdl. pose proof (lcp_le_r x y) as Hdr. fold d in Hdl, Hdr.
  assert (d `div` W * W ≤ d)%nat as Hdiv
    by (rewrite Nat.mul_comm; apply Nat.Div0.mul_div_le).
  assert (block_compare W big_endian B0' B1' = Some d) as Hbc.
  { apply (block_compare_spec W big_endian HW B0' B1' d Htake Hne).
    - unfold B0'. rewrite length_insert. lia.
    - unfold B1'. rewrite length_insert. lia. }
  assert (∀ count, block_compare_and_count W big_endian B0' B1' count
                   = Some (d, count + count_nl (take d x))) as Hbcc.
  { intros count.
    rewrite (block_compare_and_count_spec W big_endian HW B0' B1' d Htake Hne).
    - do 3 f_equal. f_equal. apply list_eq. intros i. rewrite !lookup_take.
      case_decide; [|done].
      destruct (decide (i < Nat.min (length x) (length y))%nat) as [Hi|Hi].
      + by destruct (Hdata i Hi) as [-> _].
      + lia.
    - unfold B0'. rewrite length_insert. lia.
    - unfold B1'. rewrite length_insert. lia. }
  unfold cmp_pass.
  rewrite (bind_ret_eq _ _ _ _ _ (block_read_spec0 g s0 s1 b0 b1 pd ps out err rd Hs0 ltac:(lia))).
  fold x. cbv beta iota.
  rewrite (bind_ret_eq _ _ _ _ _ (block_read_spec1 g _ s1 _ b1 pd ps out err (S rd) Hs1 ltac:(lia))).
  fold y. cbv beta iota. fold B0 B1.
  rewrite (bind_ret_eq _ _ _ _ _ Hins).
  rewrite (bind_ret_eq _ _ _ _ _ (eq_refl : get _ = Ret _ _)).
  cbn [buffer sel fst snd].
  assert (∀ i, (i < Nat.min (length x) (length y))%nat →
               ∃ c0 c1, x !! i = Some c0 ∧ y !! i = Some c1
                        ∧ B0' !! i = Some c0 ∧ B1' !! i = Some c1) as Hbytes.
  { intros i Hi. destruct (Hdata i Hi) as [H0 H1].
    destruct (lookup_lt_is_Some_2 x i) as [c0 Hc0]; [lia|].
    destruct (lookup_lt_is_Some_2 y i) as [c1 Hc1]; [lia|].
    exists c0, c1. by rewrite H0, H1. }
  assert (∀ k e, (if decide (length x ≠ length y)
           then (if decide (comparison_type g ≠ type_status)
                 then on_console (eprintf (Eof_on
                        (sel (if decide (length y < length x)%nat then 1 else 0)%nat
                           (file g))))
                 else mret tt) ≫= λ _ : (), mret (Return 1)
           else k)
          (World (advance s0 (length x), advance s1 (length y)) (B0', B1') pd ps
             (Console e err (S (S rd))))
          = if decide (length x ≠ length y)
            then Ret (Return 1)
                   (World (advance s0 (length x), advance s1 (length y)) (B0', B1') pd ps
                      (Console e (err ++ eof_lines g x y) (S (S rd))))
            else k (World (advance s0 (length x), advance s1 (length y)) (B0', B1') pd ps
                      (Console e (err ++ eof_lines g x y) (S (S rd))))) as Hfinish.
  { intros k e. unfold eof_lines.
    repeat case_decide; run; rewrite ?app_nil_r; try done; exfalso; tauto. }
  unfold r, pass_outcome. fold d.
  destruct (comparison_type g) eqn:Hty.
  - (* first-difference mode *)
    rewrite (decide_True (P := type_first_diff = type_first_diff)) by done.
    rewrite Hbcc. cbn [defined]. rewrite bind_mret. cbv beta iota.
    destruct (decide (d < Nat.min (length x) (length y))%nat) as [Hlt|Hge].
    + destruct (Hbytes d Hlt) as (c0 & c1 & Hx0 & Hy0 & HB0d & HB1d).
      unfold differ_line. rewrite Hx0, Hy0. unfold load_byte.
      destruct (opt_print_bytes g); run; rewrite ?HB0d; run; rewrite ?HB1d; run;
        by rewrite app_nil_r.
    + rewrite Hfinish.
      replace (Nat.min (length x) (length y)) with d by lia.
      repeat case_decide; run; rewrite ?app_nil_r; done.
  - (* all-differences mode *)
    rewrite (decide_False (P := type_all_diffs = type_first_diff)) by done.
    rewrite Hbc. cbn [mbind option_bind defined]. rewrite bind_mret. cbv beta iota.
    destruct (decide (d < Nat.min (length x) (length y))%nat) as [Hlt|Hge].
    + rewrite (bind_ret_eq _ _ _ _ _
                 (all_diffs_loop_spec ISPRINT g _ B0' B1' pd ps err (S (S rd)) x y
                    (Nat.min (length x) (length y)) Hdata ltac:(lia) ltac:(lia)
                    (Nat.min (length x) (length y) - d - 1) d
                    (Nat.min (length x) (length y)) (cn + Z.of_nat d) out
                    ltac:(lia) ltac:(lia))).
      rewrite Hfinish.
      assert (diff_lines ISPRINT g (cn + Z.of_nat d)
                (take (S (Nat.min (length x) (length y) - d - 1)) (drop d x))
                (take (S (Nat.min (length x) (length y) - d - 1)) (drop d y))
              = diff_lines ISPRINT g cn x y) as ->.
      { rewrite !take_drop_commute.
        replace (d + S (Nat.min (length x) (length y) - d - 1))%nat
          with (Nat.min (length x) (length y)) by lia.
        rewrite <-diff_lines_skip.
        - by apply diff_lines_take.
        - rewrite !take_take. rewrite !Nat.min_l by lia. apply lcp_take.
        - rewrite length_take. lia.
        - rewrite length_take. lia. }
      replace (cn + Z.of_nat d + Z.of_nat (S (Nat.min (length x) (length y) - d - 1)))
        with (cn + Z.of_nat (Nat.min (length x) (length y))) by lia.
      repeat case_decide; run; done.
    + rewrite Hfinish.
      replace (Nat.min (length x) (length y)) with d by lia.
      repeat case_decide; run; rewrite ?app_nil_r; done.
  - (* status mode *)
    rewrite (decide_False (P := type_status = type_first_diff)) by done.
    rewrite Hbc. cbn [mbind option_bind defined]. rewrite bind_mret. cbv beta iota.
    destruct (decide (d < Nat.min (length x) (length y))%nat) as [Hlt|Hge].
    + run. by rewrite !app_nil_r.
    + rewrite Hfinish.
      replace (Nat.min (length x) (length y)) with d by lia.
      repeat case_decide; run; rewrite ?app_nil_r; done.
Qed.

(** ** From one block to the whole input *)

Lemma diff_lines_nil_iff ISPRINT g cn (a b : list byte) :
  diff_lines ISPRINT g cn a b = [] ↔ lcp a b = Nat.min (length a) (length b).
Proof.
  revert cn b. induction a as [|x a IH]; intros cn [|y b]; simpl; try done.
  case_decide as Hxy.
  - rewrite decide_False by done. simpl. split; [done|lia].
  - assert (x = y) as -> by (by destruct (decide (x = y)); [|destruct Hxy]).
    rewrite decide_True by done. simpl. rewrite IH. lia.
Qed.

Lemma eof_lines_same g (a : list byte) : eof_lines g a a = [].
Proof. unfold eof_lines. rewrite decide_False; [done|]. by intros [? _]. Qed.

Lemma eof_lines_blocks g (n : nat) (a b : list byte) :
  length (take n a) ≠ length (take n b) →
  eof_lines g (take n a) (take n b) = eof_lines g a b.
Proof.
  rewrite !length_take. intros Hne. unfold eof_lines. rewrite !length_take.
  repeat case_decide; try done; exfalso; try lia;
    match goal with H : ¬ (_ ∧ _) |- _ => apply H; split; [lia|tauto] end.
Qed.

Lemma eof_lines_app g (x y a b : list byte) :
  length x = length y → eof_lines g (x ++ a) (y ++ b) = eof_lines g a b.
Proof.
  intros Hl. unfold eof_lines. rewrite !length_app, Hl.
  repeat case_decide; try done; exfalso; try lia;
    match goal with H : ¬ (_ ∧ _) |- _ => apply H; split; [lia|tauto] end.
Qed.

Lemma pass_loop_outcome ISPRINT g ln cn ret (a b : list byte) :
  (0 < buf_size g)%nat →
  let x := take (buf_size g) a in
  let y := take (buf_size g) b in
  let a' := drop (buf_size g) a in
  let b' := drop (buf_size g) b in
  match pass_outcome ISPRINT g ln cn ret x y with
  | (Return st, o, e) => loop_outcome ISPRINT g ln cn ret a b = (st, o, e)
  | (Leave r, o, e) => loop_outcome ISPRINT g ln cn ret a b = (r, o, e)
  | (Again ln' cn' ret', o, e) =>
      (length a' < length a)%nat ∧
      loop_outcome ISPRINT g ln cn ret a b
      = ((loop_outcome ISPRINT g ln' cn' ret' a' b').1.1,
         o ++ (loop_outcome ISPRINT g ln' cn' ret' a' b').1.2,
         e ++ (loop_outcome ISPRINT g ln' cn' ret' a' b').2)
  end.
Proof.
  intros Hbs x y a' b'.
  pose proof (lcp_take_blocks (buf_size g) a b) as F1. fold x y in F1.
  assert (length x = Nat.min (buf_size g) (length a)) as F2 by apply length_take.
  assert (length y = Nat.min (buf_size g) (length b)) as F3 by apply length_take.
  assert (take (buf_size g) a = x) as Tx by done.
  assert (take (buf_size g) b = y) as Ty by done.
  assert (a = x ++ a') as Ea by (symmetry; apply take_drop).
  assert (b = y ++ b') as Eb by (symmetry; apply take_drop).
  pose proof (lcp_le_l a b) as Hla. pose proof (lcp_le_r a b) as Hlb.
  pose proof (lcp_le_l x y) as Hlx. pose proof (lcp_le_r x y) as Hly.
  clearbody x y a' b'. subst a b. rewrite !length_app in *.
  assert (length x < buf_size g → a' = [])%nat as Ha'
    by (intros ?; apply nil_length_inv; lia).
  assert (length y < buf_size g → b' = [])%nat as Hb'
    by (intros ?; apply nil_length_inv; lia).
  assert (eof_lines g x y = eof_lines g (x ++ a') (y ++ b')
          ∨ length x = length y) as Heof.
  { destruct (decide (length x = length y)); [by right|left].
    rewrite <-(eof_lines_blocks g (buf_size g) (x ++ a') (y ++ b')); rewrite Tx, Ty; done. }
  assert (length x = length y → eof_lines g x y = []) as Heof0.
  { intros Hl. unfold eof_lines. rewrite decide_False; [done|]. by intros [? _]. }
  unfold pass_outcome. set (d := lcp x y) in *.
  destruct (decide (d < Nat.min (length x) (length y))%nat) as [Hlt|Hge].
  - assert (lcp (x ++ a') (y ++ b') = d) as Hd by lia.
    assert (take d x = take d (x ++ a')) as E1 by (by rewrite take_app_le by lia).
    assert (x !! d = (x ++ a') !! d) as E2 by (by rewrite lookup_app_l by lia).
    assert (y !! d = (y ++ b') !! d) as E3 by (by rewrite lookup_app_l by lia).
    assert (diff_lines ISPRINT g cn x y ≠ []) as Hnn
      by (rewrite diff_lines_nil_iff; fold d; lia).
    destruct (comparison_type g) eqn:Hty.
    + unfold loop_outcome. rewrite Hty, Hd, !length_app, decide_True by lia.
      by rewrite E1, E2, E3.
    + destruct (decide (length x ≠ length y)) as [Hne|Heq].
      * destruct Heof as [Heof|?]; [|done].
        unfold loop_outcome. rewrite Hty, !length_app.
        rewrite <-(diff_lines_take ISPRINT g cn (buf_size g) (x ++ a') (y ++ b')), Tx, Ty
          by (rewrite !length_app; lia).
        rewrite decide_True by lia. by rewrite <-Heof.
      * destruct (decide (length x = buf_size g)) as [Hfull|Hshort].
        -- split; [lia|].
           unfold loop_outcome. rewrite Hty, !length_app. cbn [fst snd].
           rewrite diff_lines_app, eof_lines_app, Heof0 by lia.
           replace (cn + Z.of_nat (Nat.min (length x) (length y)))
             with (cn + Z.of_nat (length x)) by lia.
           f_equal. f_equal.
           repeat case_decide; try done; try lia;
             exfalso; by destruct (diff_lines ISPRINT g cn x y).
        -- rewrite Ha', Hb', !app_nil_r by lia.
           unfold loop_outcome. rewrite Hty.
           rewrite decide_False by lia. rewrite decide_False by done.
           by rewrite Heof0 by lia.
    + unfold loop_outcome. by rewrite Hty, Hd, !length_app, decide_True by lia.
  - assert (d = Nat.min (length x) (length y)) as Hd by lia.
    assert (diff_lines ISPRINT g cn x y = []) as Hnil by (by apply diff_lines_nil_iff).
    destruct (decide (length x ≠ length y)) as [Hne|Heq].
    + destruct Heof as [Heof|?]; [|done].
      unfold loop_outcome. rewrite !length_app.
      rewrite <-(diff_lines_take ISPRINT g cn (buf_size g) (x ++ a') (y ++ b')), Tx, Ty
        by (rewrite !length_app; lia).
      rewrite Hnil, <-Heof.
      destruct (comparison_type g) eqn:Hty;
        rewrite ?(decide_False (P := (lcp _ _ < _)%nat)) by lia;
        rewrite ?(decide_True (P := (_ + _)%nat ≠ _)) by lia; try done.
      unfold eof_lines. rewrite Hty. rewrite decide_False; [done|]. by intros [_ ?].
    + destruct (decide (length x = buf_size g)) as [Hfull|Hshort].
      * split; [lia|].
        assert (x = y) as Hxy by (apply lcp_full_eq; fold d; lia).
        assert (lcp (x ++ a') (y ++ b') = (length x + lcp a' b')%nat) as Hlcp.
        { rewrite <-Hxy. apply lcp_app. }
        pose proof (lcp_le_l a' b'). pose proof (lcp_le_r a' b').
        unfold loop_outcome.
        rewrite eof_lines_app, Hlcp, Heof0, !length_app by lia. cbn [fst snd app].
        destruct (comparison_type g) eqn:Hty.
        -- rewrite (decide_True (P := type_first_diff = type_first_diff)) by done.
           destruct (decide (lcp a' b' < Nat.min (length a') (length b'))%nat).
           ++ rewrite decide_True by lia. cbn [fst snd].
              rewrite take_app_add, count_nl_app.
              rewrite !lookup_app_r by lia.
              replace (length x + lcp a' b' - length x)%nat with (lcp a' b') by lia.
              replace (length x + lcp a' b' - length y)%nat with (lcp a' b') by lia.
              rewrite (take_ge x d) by lia.
              replace (cn + Z.of_nat (Nat.min (length x) (length y)) + Z.of_nat (lcp a' b'))
                with (cn + Z.of_nat (length x + lcp a' b')) by lia.
              by rewrite Z.add_assoc.
           ++ rewrite decide_False by lia. cbn [fst snd].
              repeat case_decide; try done; lia.
        -- rewrite diff_lines_app, Hnil by lia. cbn [app].
           replace (Nat.min (length x) (length y)) with (length x) by lia.
           cbn [fst snd]. f_equal. f_equal. repeat case_decide; try done; lia.
        -- destruct (decide (lcp a' b' < Nat.min (length a') (length b'))%nat).
           ++ rewrite decide_True by lia. done.
           ++ rewrite decide_False by lia. cbn [fst snd].
              repeat case_decide; try done; lia.
      * assert (x = y) as Hxy by (apply lcp_full_eq; fold d; lia).
        rewrite Ha', Hb', !app_nil_r, <-Hxy by lia.
        unfold loop_outcome.
        rewrite lcp_same, diff_lines_same, eof_lines_same.
        destruct (comparison_type g); repeat case_decide; try done; lia.
Qed.

Lemma drop_length_take {A} (n : nat) (l : list A) : drop (length (take n l)) l = drop n l.
Proof.
  rewrite length_take. destruct (decide (n ≤ length l)%nat).
  - by rewrite Nat.min_l.
  - rewrite Nat.min_r by lia. by rewrite !drop_ge by lia.
Qed.

(** ** The outer loop of [cmp] *)

Lemma cmp_loop_spec W big_endian ISPRINT g :
  (0 < W)%nat → (0 < buf_size g)%nat →
  ∀ (fuel : nat) ln cn ret s0 s1 b0 b1 pd ps out err rd,
    s_fail s0 = false → s_fail s1 = false →
    length b0 = (W * words_per_buffer W (buf_size g))%nat →
    length b1 = (W * words_per_buffer W (buf_size g))%nat →
    (length (s_bytes s0) < fuel)%nat →
    let r := loop_outcome ISPRINT g ln cn ret (s_bytes s0) (s_bytes s1) in
    ∃ fd B rd',
      cmp_loop W big_endian ISPRINT fuel g ln cn ret
        (World (s0, s1) (b0, b1) pd ps (Console out err rd))
      = Ret r.1.1 (World fd B pd ps (Console (out ++ r.1.2) (err ++ r.2) rd')).
Proof.
  intros HW Hbs fuel.
  induction fuel as [|fuel IH];
    intros ln cn ret s0 s1 b0 b1 pd ps out err rd Hs0 Hs1 Hb0 Hb1 Hfuel r; [lia|].
  cbn [cmp_loop].
  destruct (cmp_pass_spec W big_endian ISPRINT g ln cn ret s0 s1 b0 b1 pd ps out err rd)
    as (B0 & B1 & HB0 & HB1 & Hp); [done|by left|by left|done..|].
  rewrite (bind_ret_eq _ _ _ _ _ Hp). clear Hp.
  pose proof (pass_loop_outcome ISPRINT g ln cn ret (s_bytes s0) (s_bytes s1) Hbs) as Hpl.
  cbv zeta in Hpl. unfold r. clear r.
  destruct (pass_outcome ISPRINT g ln cn ret (take (buf_size g) (s_bytes s0))
              (take (buf_size g) (s_bytes s1))) as [[p o] e].
  destruct p as [st|ln' cn' ret'|ret']; cbn [fst snd].
  - rewrite Hpl. by eexists _, _, _.
  - destruct Hpl as [Hlen Hpl]. rewrite Hpl. cbn [fst snd].
    destruct (IH ln' cn' ret'
                (advance s0 (length (take (buf_size g) (s_bytes s0))))
                (advance s1 (length (take (buf_size g) (s_bytes s1))))
                B0 B1 pd ps (out ++ o) (err ++ e) (S (S rd)))
      as (fd & B & rd' & Hloop); [done|done|lia|lia| |].
    { cbn [advance s_bytes]. rewrite drop_length_take. lia. }
    cbn [advance s_bytes] in Hloop. rewrite !drop_length_take in Hloop.
    rewrite Hloop. rewrite <-!app_assoc. by eexists _, _, _.
  - rewrite Hpl. by eexists _, _, _.
Qed.

(** ** Skipping the ignored initial prefix *)

Lemma sel_upd {A} (f : nat) (x : A) (p : A * A) : sel f (upd f x p) = x.
Proof. by destruct f. Qed.

Lemma upd_upd {A} (f : nat) (x y : A) (p : A * A) : upd f x (upd f y p) = upd f x p.
Proof. by destruct f. Qed.

Lemma upd_sel {A} (f : nat) (p : A * A) : upd f (sel f p) p = p.
Proof. by destruct f, p. Qed.

Lemma discard_loop_spec g f :
  (0 < buf_size g)%nat →
  ∀ (fuel : nat) (ig : Z) fd b0 b1 pd ps out err rd,
    0 < ig → s_fail (sel f fd) = false →
    (buf_size g ≤ length b0)%nat →
    (length (s_bytes (sel f fd)) < fuel)%nat →
    ∃ s' b0' rd',
      discard_loop fuel g f ig (World fd (b0, b1) pd ps (Console out err rd))
      = Ret tt (World (upd f s' fd) (b0', b1) pd ps (Console out err rd'))
      ∧ s_bytes s' = drop (Z.to_nat ig) (s_bytes (sel f fd))
      ∧ s_fail s' = false ∧ length b0' = length b0.
Proof.
  intros Hbs fuel. induction fuel as [|fuel IH];
    intros ig fd b0 b1 pd ps out err rd Hig Hs Hb0 Hfuel; [lia|].
  cbn [discard_loop]. unfold read_buf0, sys_read. run.
  destruct (s_bytes (sel f fd)) as [|c bytes] eqn:Hbytes.
  - rewrite Hs. run. unfold store_bytes. cbn [length]. rewrite decide_True by lia. run.
    exists (sel f fd), b0, (S rd). rewrite upd_sel, Hbytes, drop_nil. done.
  - set (n := Z.to_nat (Z.min ig (Z.of_nat (buf_size g)))).
    assert (0 < n)%nat as Hn by (unfold n; lia).
    run. unfold store_bytes.
    rewrite decide_True by (rewrite length_take; simpl in *; lia). run.
    destruct (length (take n (c :: bytes))) as [|r] eqn:Hr.
    { rewrite length_take in Hr. simpl in Hr. lia. }
    cbn [length] in Hfuel.
    assert (S r = Nat.min n (S (length bytes))) as Hr' by (by rewrite <-Hr, length_take).
    case_decide as Hig'.
    + destruct (IH (ig - Z.of_nat (S r))
                  (upd f (advance (sel f fd) (Nat.min n (length (c :: bytes)))) fd)
                  (take n (c :: bytes) ++ drop (S r) b0) b1 pd ps out err (S rd))
        as (s' & b0' & rd' & Hl & Hs' & Hf & Hlen).
      * unfold n in *. lia.
      * by rewrite sel_upd.
      * rewrite length_app, length_take, length_drop. simpl. lia.
      * rewrite sel_upd. cbn [advance s_bytes]. rewrite Hbytes, length_drop. simpl. lia.
      * rewrite upd_upd in Hl. rewrite Hl. exists s', b0', rd'. split_and!; [done| |done|].
        -- rewrite Hs', sel_upd. cbn [advance s_bytes]. rewrite Hbytes, drop_drop. f_equal.
           simpl length. unfold n in *. lia.
        -- rewrite Hlen, length_app, length_take, length_drop. simpl. lia.
    + eexists _, _, _. split_and!; [done|..].
      * cbn [advance s_bytes]. rewrite Hbytes. f_equal. simpl length. unfold n in *. lia.
      * done.
      * rewrite length_app, length_take, length_drop. simpl. lia.
Qed.

Lemma upd_same {A} (f : nat) (x : A) (p : A * A) : sel f p = x → upd f x p = p.
Proof. intros <-. apply upd_sel. Qed.

Lemma skip_initial_spec g f fd b0 b1 pd ps out err rd :
  (0 < buf_size g)%nat → 0 < ignore_initial g →
  s_fail (sel f fd) = false → 0 ≤ s_pos (sel f fd) →
  (buf_size g ≤ length b0)%nat →
  ∃ s' b0' p rd',
    skip_initial g f (World fd (b0, b1) pd ps (Console out err rd))
    = Ret tt (World (upd f s' fd) (b0', b1) (upd f true pd) (upd f p ps)
                (Console out err rd'))
    ∧ s_bytes s'
      = (if decide (sel f pd = true ∧ sel f ps ≠ -1)
         then s_bytes (sel f fd)
         else drop (Z.to_nat (ignore_initial g)) (s_bytes (sel f fd)))
    ∧ s_fail s' = false ∧ length b0' = length b0.
Proof.
  intros Hbs Hig Hs Hpos Hb0.
  unfold skip_initial, file_position. run.
  destruct (sel f pd) eqn:Hpd.
  - run. case_decide as Hp.
    + destruct (discard_loop_spec g f Hbs (S (length (s_bytes (sel f fd))))
                  (ignore_initial g) fd b0 b1 pd ps out err rd)
        as (s' & b0' & rd' & Hl & Hs' & Hf & Hlen); [done..|lia|].
      cbn [file_desc]. rewrite Hl. exists s', b0', (sel f ps), rd'.
      rewrite (upd_same f true pd Hpd), upd_sel.
      rewrite decide_False by tauto. done.
    + exists (sel f fd), b0, (sel f ps), rd.
      rewrite (upd_same f true pd Hpd), !upd_sel.
      rewrite decide_True by done. done.
  - rewrite decide_False by (by intros [? _]).
    unfold lseek_cur. destruct (s_seekable (sel f fd)) eqn:Hseek; run.
    + rewrite decide_False by lia. by eexists _, b0, _, _.
    + rewrite decide_True by done. rewrite upd_sel.
      destruct (discard_loop_spec g f Hbs (S (length (s_bytes (sel f fd))))
                  (ignore_initial g) fd b0 b1 (upd f true pd) (upd f (-1) ps) out err rd)
        as (s' & b0' & rd' & Hl & Hs' & Hf & Hlen); [done..|lia|].
      cbn [file_desc]. rewrite Hl. by eexists s', b0', _, rd'.
Qed.

(** ** What [cmp] returns and prints *)

Lemma cmp_spec W big_endian ISPRINT g w :
  (0 < W)%nat → (0 < buf_size g)%nat → 0 ≤ ignore_initial g →
  buffers_ok W g w → reads_ok 0 w → reads_ok 1 w →
  let r := loop_outcome ISPRINT g 1 (ignore_initial g + 1) 0
             (compared g 0 w) (compared g 1 w) in
  ∃ w',
    cmp W big_endian ISPRINT g w = Ret r.1.1 w'
    ∧ c_out (w_console w') = c_out (w_console w) ++ r.1.2
    ∧ c_err (w_console w') = c_err (w_console w) ++ r.2.
Proof.
  intros HW Hbs Hig [Hb0 Hb1] [Hs0 Hp0] [Hs1 Hp1].
  destruct w as [[s0 s1] [b0 b1] [pd0 pd1] [ps0 ps1] [out err rd]].
  unfold compared.
  cbn [file_desc buffer positioned position w_console sel fst snd c_out c_err] in *.
  pose proof (buffer_room W (buf_size g) HW) as Hroom.
  unfold cmp. case_decide as Hig0.
  - destruct (skip_initial_spec g 0 (s0, s1) b0 b1 (pd0, pd1) (ps0, ps1) out err rd)
      as (s0' & b0' & p0 & rd' & Hskip0 & Hbytes0 & Hf0 & Hlen0); [done|lia|done..|lia|].
    destruct (skip_initial_spec g 1 (s0', s1) b0' b1 (true, pd1) (p0, ps1) out err rd')
      as (s1' & b0'' & p1 & rd'' & Hskip1 & Hbytes1 & Hf1 & Hlen1);
      [done|lia|done..|lia|].
    cbn [upd sel fst snd] in *.
    pose proof (bind_ret_eq _ (λ _, skip_initial g 1) _ _ _ Hskip0) as Hskip.
    cbv beta in Hskip. rewrite Hskip1 in Hskip.
    rewrite (bind_ret_eq _ _ _ _ _ Hskip).
    rewrite (bind_ret_eq _ _ _ _ _ (eq_refl : get _ = Ret _ _)).
    cbn [file_desc sel fst].
    destruct (cmp_loop_spec W big_endian ISPRINT g HW Hbs (S (length (s_bytes s0')))
                1 (ignore_initial g + 1) 0 s0' s1' b0'' b1 (true, true) (p0, p1)
                out err rd'')
      as (fd & B & rd3 & Hloop); [done|done|lia|lia|lia|].
    rewrite Hbytes0, Hbytes1 in Hloop.
    rewrite Hbytes0, Hloop. by eexists.
  - rewrite bind_mret.
    rewrite (bind_ret_eq _ _ _ _ _ (eq_refl : get _ = Ret _ _)).
    cbn [file_desc sel fst].
    destruct (cmp_loop_spec W big_endian ISPRINT g HW Hbs (S (length (s_bytes s0)))
                1 (ignore_initial g + 1) 0 s0 s1 b0 b1 (pd0, pd1) (ps0, ps1) out err rd)
      as (fd & B & rd3 & Hloop); [done|done|lia|lia|lia|].
    assert (ignore_initial g = 0) as Hz by (by destruct (decide (ignore_initial g = 0))).
    rewrite Hz. rewrite Hz in Hloop. cbn [Z.to_nat drop].
    assert (∀ (P : Prop) `{Decision P} (l : list byte), (if decide P then l else l) = l)
      as Hif by (intros; by case_decide).
    rewrite !Hif. rewrite Hloop. by eexists.
Qed.

Lemma lcp_prefix_l (a l : list byte) : lcp a (a ++ l) = length a.
Proof. induction a as [|x a IH]; simpl; [by destruct l|]. by rewrite decide_True, IH. Qed.

Lemma lcp_prefix_r (a l : list byte) : lcp (a ++ l) a = length a.
Proof. induction a as [|x a IH]; simpl; [by destruct l|]. by rewrite decide_True, IH. Qed.



(** ** The claims about the comparison engine *)


(** C2.  After the sentinels are written for read lengths [read0] and
    [read1], [block_compare] returns the exact offset of the first byte at
    which the two buffers differ; that offset never exceeds the shorter
    read length, equals it when the blocks agree over that length, and every
    access stays inside the buffers. *)
Theorem block_compare_exact W big_endian g w (read0 read1 : nat) :
  (0 < W)%nat → buffers_ok W g w →
  (read0 ≤ buf_size g)%nat → (read1 ≤ buf_size g)%nat →
  let data0 := take read0 (sel 0 (buffer w)) in
  let data1 := take read1 (sel 1 (buffer w)) in
  ∃ w' c c' d,
    insert_sentinels read0 read1 w = Ret tt w'
    ∧ sel 1 (buffer w) !! read0 = Some c
    ∧ sel 0 (buffer w') !! read0 = Some (byte_not c)
    ∧ sel 0 (buffer w') !! read1 = Some c'
    ∧ sel 1 (buffer w') !! read1 = Some (byte_not c')
    ∧ block_compare W big_endian (sel 0 (buffer w')) (sel 1 (buffer w')) = Some d
    ∧ take d (sel 0 (buffer w')) = take d (sel 1 (buffer w'))
    ∧ sel 0 (buffer w') !! d ≠ sel 1 (buffer w') !! d
    ∧ d = lcp data0 data1
    ∧ (d ≤ Nat.min read0 read1)%nat
    ∧ (take (Nat.min read0 read1) data0 = take (Nat.min read0 read1) data1 →
       d = Nat.min read0 read1).
Proof.
  intros HW [Hb0 Hb1] H0 H1 data0 data1.
  destruct w as [fd [b0 b1] pd ps k]. cbn [buffer sel fst snd] in *.
  pose proof (buffer_room W (buf_size g) HW) as Hroom.
  assert (length data0 = read0) as Hl0 by (unfold data0; rewrite length_take; lia).
  assert (length data1 = read1) as Hl1 by (unfold data1; rewrite length_take; lia).
  assert (data0 ++ drop (length data0) b0 = b0) as E0 by (rewrite Hl0; apply take_drop).
  assert (data1 ++ drop (length data1) b1 = b1) as E1 by (rewrite Hl1; apply take_drop).
  destruct (insert_sentinels_spec fd b0 b1 pd ps k read0 read1)
    as (c & c' & Hc & Hc' & Hins); [lia..|].
  destruct (sentinel_first_diff data0 data1 b0 b1 c c') as (Hdata & Htake & Hne);
    [lia|lia|lia|by rewrite E1, Hl0|by rewrite E0, Hl0, Hl1|].
  rewrite E0, E1, Hl0, Hl1 in Hdata, Htake, Hne.
  pose proof (lcp_le_l data0 data1) as Hdl. pose proof (lcp_le_r data0 data1) as Hdr.
  assert (lcp data0 data1 `div` W * W ≤ lcp data0 data1)%nat as Hdiv
    by (rewrite Nat.mul_comm; apply Nat.Div0.mul_div_le).
  eexists _, c, c', (lcp data0 data1). split; [exact Hins|].
  cbn [buffer sel fst snd].
  split_and!; try done.
  - rewrite list_lookup_insert_eq; [done|lia].
  - rewrite list_lookup_insert_eq; [done|lia].
  - apply (block_compare_spec W big_endian HW _ _ _ Htake Hne);
      rewrite length_insert; lia.
  - lia.
  - intros Heq. apply lcp_unique; [done|lia..|]. right. lia.
Qed.

Lemma make_nnnn_word W big_endian :
  make_nnnn W W 0 = word_of_bytes big_endian (replicate W newline).
Proof.
  rewrite make_nnnn_spec. unfold word_of_bytes. destruct big_endian; [|done].
  f_equal. induction W as [|n IH]; [done|].
  rewrite replicate_S_end at 1. simpl. by rewrite reverse_cons, <-IH.
Qed.

(** C3.  On two arrays that differ somewhere within bounds (as the
    sentinels guarantee), and for a counter that stays within [off_t],
    [block_compare_and_count] returns the same offset as [block_compare],
    and adds to its counter exactly the number of newline bytes before that
    offset.  It counts as the code does: [nnnn] is the word of newlines;
    every word before the one that holds the difference is equal in both
    arrays, and the zero bytes of its XOR with [nnnn] are as many as its
    newlines; the word loop stops at the word that holds the difference,
    with the newlines of the words before it; the byte loop adds those of
    the rest. *)
Theorem block_compare_and_count_refines W big_endian (p0 p1 : list byte) (d : nat)
    (count : Z) :
  (0 < W)%nat →
  take d p0 = take d p1 → p0 !! d ≠ p1 !! d →
  (d `div` W * W + W ≤ length p0)%nat → (d `div` W * W + W ≤ length p1)%nat →
  - 2 ^ 63 ≤ count → count + count_nl (take d p0) < 2 ^ 63 →
  let nnnn := make_nnnn W W 0 in
  let words := (d `div` W)%nat in
  block_compare W big_endian p0 p1 = Some d
  ∧ block_compare_and_count W big_endian p0 p1 count
    = Some (d, count + count_nl (take d p0))
  ∧ nnnn = word_of_bytes big_endian (replicate W newline)
  ∧ (∀ i, (i < words)%nat →
       ∃ l, load_word W big_endian p0 i = Some l
            ∧ load_word W big_endian p1 i = Some l
            ∧ count_zero_bytes W (Z.lxor l nnnn) 0
              = count_nl (take W (drop (i * W) p0)))
  ∧ word_scan_count W big_endian (S (length p0)) nnnn p0 p1 0 0
    = Some (words, count_nl (take (words * W) p0))
  ∧ byte_scan_count (S (length p0)) p0 p1 (words * W) (count_nl (take (words * W) p0))
    = Some (d, count_nl (take d p0)).
Proof.
  intros HW Htake Hne Hr0 Hr1 _ _ nnnn words.
  pose proof (lt_div_mul W HW p0 p1 d Hr0 Hr1) as Hlt.
  pose proof (div_mul_le W d) as Hle.
  pose proof (div_le_self W HW p0 p1 d Hr0 Hr1) as Hdiv.
  split_and!.
  - by apply block_compare_spec.
  - by apply block_compare_and_count_spec.
  - apply make_nnnn_word.
  - intros i Hi.
    assert (i * W + W ≤ d)%nat as Hin by (unfold words in Hi; nia).
    exists (word_of_bytes big_endian (take W (drop (i * W) p0))).
    split; [apply (load_word_in W big_endian HW p0 p1 d Hr0 Hr1); lia|].
    split.
    + rewrite (segment_eq W HW p0 p1 d Htake Hr0 Hr1 i Hi).
      apply (load_word_in W big_endian HW p0 p1 d Hr0 Hr1). lia.
    + unfold nnnn. rewrite count_word_spec; [lia|].
      rewrite length_take, length_drop. lia.
  - unfold nnnn, words.
    rewrite (word_scan_count_spec W big_endian HW p0 p1 d Htake Hne Hr0 Hr1
               (d `div` W) 0 (S (length p0)) 0) by lia.
    by rewrite Nat.mul_0_l, drop_0, Z.add_0_l.
  - unfold words.
    rewrite (byte_scan_count_spec W HW p0 p1 d Htake Hne Hr0 Hr1
               (d - d `div` W * W) (d `div` W * W) (S (length p0))) by lia.
    rewrite <-count_nl_app, take_take_drop.
    by replace (d `div` W * W + (d - d `div` W * W))%nat with d by lia.
Qed.

(** C4.  When both descriptors deliver the same bytes, [cmp] returns 0 and
    prints nothing, in every comparison mode. *)
Theorem identical_inputs W big_endian ISPRINT g w :
  (0 < W)%nat → (0 < buf_size g)%nat → 0 ≤ ignore_initial g →
  buffers_ok W g w → reads_ok 0 w → reads_ok 1 w →
  compared g 0 w = compared g 1 w →
  ∃ w',
    cmp W big_endian ISPRINT g w = Ret 0 w'
    ∧ c_out (w_console w') = c_out (w_console w)
    ∧ c_err (w_console w') = c_err (w_console w).
Proof.
  intros HW Hbs Hig Hb Hr0 Hr1 Heq.
  destruct (cmp_spec W big_endian ISPRINT g w) as (w' & Hcmp & Hout & Herr); [done..|].
  unfold loop_outcome in *. rewrite <-Heq in *.
  rewrite lcp_same, diff_lines_same, eof_lines_same in *.
  exists w'.
  destruct (comparison_type g); repeat case_decide; try lia; try done;
    cbn [fst snd] in *; by rewrite Hcmp, Hout, Herr, !app_nil_r.
Qed.


(** C6.  When the bytes of one descriptor are a strict prefix of the bytes
    of the other, [cmp] returns 1, and unless the mode is status-only it
    writes on standard error that end of file was reached on the shorter
    operand. *)
Theorem strict_prefix_eof W big_endian ISPRINT g w (f : nat) (c : byte)
    (rest : list byte) :
  (0 < W)%nat → (0 < buf_size g)%nat → 0 ≤ ignore_initial g →
  buffers_ok W g w → reads_ok 0 w → reads_ok 1 w →
  (f = 0 ∨ f = 1)%nat →
  compared g (1 - f) w = compared g f w ++ c :: rest →
  ∃ w',
    cmp W big_endian ISPRINT g w = Ret 1 w'
    ∧ c_out (w_console w') = c_out (w_console w)
    ∧ c_err (w_console w')
      = c_err (w_console w)
        ++ (if decide (comparison_type g = type_status) then []
            else [Eof_on (sel f (file g))]).
Proof.
  intros HW Hbs Hig Hb Hr0 Hr1 Hf Hpre.
  destruct (cmp_spec W big_endian ISPRINT g w) as (w' & Hcmp & Hout & Herr); [done..|].
  exists w'. unfold loop_outcome, eof_lines in *.
  destruct Hf as [-> | ->]; cbn [Nat.sub] in Hpre; rewrite Hpre in *.
  - rewrite lcp_prefix_l, length_app in *. cbn [length] in *.
    rewrite (proj2 (diff_lines_nil_iff ISPRINT g _ _ _)) in *
      by (rewrite lcp_prefix_l, length_app; cbn [length]; lia).
    destruct (comparison_type g); repeat case_decide; try lia; try done;
      cbn [fst snd] in *; destruct_and?; try done;
      rewrite ?Hcmp, ?Hout, ?Herr, ?app_nil_r; try done; exfalso; tauto.
  - rewrite lcp_prefix_r, length_app in *. cbn [length] in *.
    rewrite (proj2 (diff_lines_nil_iff ISPRINT g _ _ _)) in *
      by (rewrite lcp_prefix_r, length_app; cbn [length]; lia).
    destruct (comparison_type g); repeat case_decide; try lia; try done;
      cbn [fst snd] in *; destruct_and?; try done;
      rewrite ?Hcmp, ?Hout, ?Herr, ?app_nil_r; try done; exfalso; tauto.
Qed.

(** ** Quoting of bytes *)

Lemma pad_loop_spec (fuel : nat) (width : Z) (buf : list byte) :
  (Z.to_nat width ≤ fuel)%nat →
  pad_loop fuel width buf = buf ++ replicate (Z.to_nat (width - 1)) Byte.x20.
Proof.
  revert width buf. induction fuel as [|fuel IH]; intros width buf Hf; simpl.
  - replace (Z.to_nat (width - 1)) with 0%nat by lia. by rewrite app_nil_r.
  - case_decide.
    + rewrite IH by lia. rewrite <-app_assoc. f_equal.
      replace (Z.to_nat (width - 1)) with (S (Z.to_nat (width - 1 - 1))) by lia.
      done.
    + replace (Z.to_nat (width - 1)) with 0%nat by lia. by rewrite app_nil_r.
Qed.

Lemma sprintc_spec ISPRINT (width : Z) (c : byte) :
  sprintc ISPRINT width c = padded width (quoted ISPRINT c).
Proof.
  unfold sprintc, quoted, padded, control_quote.
  pose proof (byte_val_range c) as Hc.
  destruct (ISPRINT c); cbn [negb].
  - rewrite pad_loop_spec by lia. simpl. done.
  - repeat case_decide; try lia; rewrite pad_loop_spec by lia; simpl;
      rewrite ?byte_of_val;
      repeat match goal with |- _ :: _ = _ :: _ => f_equal end;
      apply (f_equal (λ n, replicate n Byte.x20)); lia.
Qed.

(** C7, as the code has it.  Byte 0 is rendered as [^@], byte 10 as [^J],
    byte 127 as [^?]; a byte with the high bit set gets [M-] followed by the
    quoting of its low seven bits, so byte 200 (low bits 72, the letter H)
    is rendered as [M-H], and byte 136 as [M-^H]; the result is padded with
    spaces on the right to the requested width. *)
Theorem sprintc_quoting ISPRINT (width : Z) :
  ISPRINT Byte.x00 = false → ISPRINT Byte.x0a = false → ISPRINT Byte.x7f = false →
  ISPRINT Byte.xc8 = false → ISPRINT Byte.x88 = false →
  sprintc ISPRINT width Byte.x00 = padded width [Byte.x5e; Byte.x40]
  ∧ sprintc ISPRINT width Byte.x0a = padded width [Byte.x5e; Byte.x4a]
  ∧ sprintc ISPRINT width Byte.x7f = padded width [Byte.x5e; Byte.x3f]
  ∧ sprintc ISPRINT width Byte.xc8 = padded width [Byte.x4d; Byte.x2d; Byte.x48]
  ∧ sprintc ISPRINT width Byte.x88
    = padded width [Byte.x4d; Byte.x2d; Byte.x5e; Byte.x48]
  ∧ (∀ c, sprintc ISPRINT width c = padded width (quoted ISPRINT c))
  ∧ (∀ c, ISPRINT c = false → 128 ≤ byte_val c →
          quoted ISPRINT c
          = [Byte.x4d; Byte.x2d] ++ control_quote (byte_val c - 128)).
Proof.
  intros H0 H10 H127 H200 H136.
  split_and!; try (rewrite sprintc_spec; unfold quoted;
                   rewrite ?H0, ?H10, ?H127, ?H200, ?H136; reflexivity).
  - apply sprintc_spec.
  - intros c Hc Hhigh. unfold quoted. rewrite Hc. by rewrite decide_True.
Qed.

(** C10.  Each [-l] and each [-s] overwrites the comparison mode, so the
    flag that occurs last decides: after [-l -s] the mode is status-only,
    after [-s -l] it is all-differences. *)
Theorem last_mode_flag_wins (e : env) (opts : list getopt_result) (g : globals)
    (k : console) :
  Forall option_passes opts →
  ∃ g',
    parse_options e opts g k = Ret g' k
    ∧ comparison_type g' = last_mode opts (comparison_type g)
    ∧ (∀ pre post, opts = pre ++ Opt_l :: post →
         Forall (λ c, c ≠ Opt_l ∧ c ≠ Opt_s) post →
         comparison_type g' = type_all_diffs)
    ∧ (∀ pre post, opts = pre ++ Opt_s :: post →
         Forall (λ c, c ≠ Opt_l ∧ c ≠ Opt_s) post →
         comparison_type g' = type_status).
Proof.
  intros Hok.
  assert (∃ g', parse_options e opts g k = Ret g' k
                ∧ comparison_type g' = last_mode opts (comparison_type g))
    as (g' & Hrun & Hmode).
  { revert g. induction Hok as [|c opts Hc Hok IH]; intros g; [by exists g|].
    destruct c; try done; cbn [parse_options last_mode].
    - apply (IH (set_opt_print_bytes true g)).
    - apply (IH (set_opt_print_bytes true g)).
    - destruct Hc as (? & ? & ->).
      rewrite decide_False by (intros [?|[?|?]]; [lia|done..]).
      apply (IH (set_ignore_initial (to_off_t val) g)).
    - apply (IH (set_comparison_type type_all_diffs g)).
    - apply (IH (set_comparison_type type_status g)). }
  assert (∀ post m, Forall (λ c, c ≠ Opt_l ∧ c ≠ Opt_s) post → last_mode post m = m)
    as Hpost.
  { intros post m Hp. induction Hp as [|c post [Hl Hs] Hp IH]; [done|].
    by destruct c. }
  assert (∀ pre rest m, ∃ m', last_mode (pre ++ rest) m = last_mode rest m') as Hpre.
  { intros pre rest. induction pre as [|c pre IH]; intros m; [by exists m|].
    destruct c; cbn [app last_mode]; apply IH. }
  exists g'. split_and!; [done..| |].
  - intros pre post -> Hp. rewrite Hmode.
    destruct (Hpre pre (Opt_l :: post) (comparison_type g)) as [m' ->].
    cbn [last_mode]. by apply Hpost.
  - intros pre post -> Hp. rewrite Hmode.
    destruct (Hpre pre (Opt_s :: post) (comparison_type g)) as [m' ->].
    cbn [last_mode]. by apply Hpost.
Qed.

(** ** Every run ends in an orderly way *)

Lemma orderly_bind {S A B} (con : S → console) (silent : Prop)
    (Q : A → S → Prop) (R : B → S → Prop) (m : prog S A) (f : A → prog S B) (s : S) :
  orderly con silent Q (m s) →
  (∀ a s', Q a s' → quiet (con s') → orderly con silent R (f a s')) →
  orderly con silent R ((m ≫= f) s).
Proof.
  unfold mbind, prog_bind. destruct (m s) as [a s'|c s'|]; simpl; [|done..].
  intros [HQ Hq] Hf. by apply Hf.
Qed.


Lemma failed_eprintf (out : list stdout_line) (err : list stderr_line)
    (l : stderr_line) (rd : nat) :
  is_error l → failed (Console out (err ++ [l]) rd).
Proof. unfold failed. simpl. intros ?. apply Exists_app. right. by constructor. Qed.

Lemma orderly_error {A} (silent : Prop) (Q : A → console → Prop) (l : stderr_line)
    (k : console) :
  is_error l → orderly id silent Q (error 2 l k).
Proof. intros Hl. right. split; [done|]. left. by apply failed_eprintf. Qed.










(** ** [main] *)

Lemma try_help_orderly {A} silent (Q : A → console → Prop) reason (k : console) :
  orderly id silent Q (try_help reason k).
Proof.
  unfold try_help. destruct reason as [[r operand]|]; run;
    right; (split; [done|]); left; by apply failed_eprintf.
Qed.

Lemma check_stdout_orderly silent (e : env) (k : console) :
  quiet k → orderly id silent (λ _ k', k' = k) (check_stdout e k).
Proof.
  intros Hq. unfold check_stdout.
  destruct (stdout_ferror e); [by apply orderly_error|].
  destruct (stdout_fclose_ok e); cbn [negb]; [by split|by apply orderly_error].
Qed.

Lemma parse_options_total silent (e : env) (opts : list getopt_result) (g : globals)
    (k : console) :
  quiet k → orderly id silent (λ _ k', k' = k) (parse_options e opts g k).
Proof.
  intros Hq. revert g. induction opts as [|c opts IH]; intros g; [by split|].
  destruct c; cbn [parse_options]; try apply IH.
  - case_decide; [apply try_help_orderly|apply IH].
  - run. left. split; [by left|done].
  - rewrite (bind_ret_eq _ _ _ _ _ (eq_refl : printf Usage_text k = Ret _ _)).
    eapply orderly_bind; [by apply check_stdout_orderly|].
    intros _ k' -> _. left. split; [by left|done].
  - apply try_help_orderly.
Qed.

Lemma parse_operands_total silent (i : invocation) (g : globals) (k : console) :
  invocation_ok i → quiet k →
  orderly id silent
    (λ g' k', k' = k
              ∧ sel 0 (file g') ∈ argv i
              ∧ (sel 1 (file g') ∈ argv i ∨ sel 1 (file g') = "-"%string))
    (parse_operands i g k).
Proof.
  intros [Hlo Hhi] Hq. unfold parse_operands. case_decide as Hend.
  - destruct (lookup_lt_is_Some_2 (argv i) (length (argv i) - 1)) as [a Ha]; [lia|].
    rewrite Ha. run. apply try_help_orderly.
  - destruct (lookup_lt_is_Some_2 (argv i) (optind i)) as [file0 H0]; [lia|].
    rewrite H0. cbn [defined]. rewrite bind_mret.
    case_decide as H1.
    + destruct (lookup_lt_is_Some_2 (argv i) (S (optind i))) as [file1 Hf1]; [lia|].
      rewrite Hf1. run.
      case_decide as H2.
      * destruct (lookup_lt_is_Some_2 (argv i) (S (S (optind i)))) as [x Hx]; [lia|].
        rewrite Hx. apply (try_help_orderly silent).
      * split; [|done]. split_and!; [done|..]; cbn [set_file file sel fst snd].
        -- by eapply list_elem_of_lookup_2.
        -- left. by eapply list_elem_of_lookup_2.
    + run. rewrite decide_False by lia.
      split; [|done]. split_and!; [done|..]; cbn [set_file file sel fst snd].
      * by eapply list_elem_of_lookup_2.
      * by right.
Qed.

Lemma open_operand_total (e : env) (i : invocation) (g : globals) (f : nat)
    opened (k : console) :
  quiet k →
  sel 0 (file g) ∈ argv i →
  sel 1 (file g) ∈ argv i ∨ sel 1 (file g) = "-"%string →
  orderly id (∃ name, name ∈ argv i ∧ open_file e name = None)
    (λ opened' k',
       k' = k
       ∧ ∃ fi, opened'
               = upd (Nat.lxor f (if decide (sel 1 (file g) = "-"%string) then 1 else 0))
                   (Some fi) opened)
    (open_operand e g f opened k).
Proof.
  intros Hq H0 H1. unfold open_operand.
  set (f1 := Nat.lxor f _).
  assert (sel f1 (file g) ∈ argv i ∨ sel f1 (file g) = "-"%string) as Hname.
  { destruct f1; [by left|done]. }
  case_decide; [left; split; [by left|done]|].
  destruct (open_file e (sel f1 (file g))) as [fi|] eqn:Hopen.
  - destruct (fi_stat_ok fi); [|by apply orderly_error].
    split; [|done]. split; [done|]. by exists fi.
  - case_decide; [|by apply orderly_error].
    right. split; [done|]. right. exists (sel f1 (file g)). split; [|done].
    destruct Hname as [?|Hdash]; [done|].
    unfold open_file in Hopen. by rewrite decide_True in Hopen.
Qed.

Lemma startup_total (e : env) (i : invocation) (k : console) :
  invocation_ok i → quiet k →
  orderly id (∃ name, name ∈ argv i ∧ open_file e name = None)
    (λ _ k', k' = k) (startup e i k).
Proof.
  intros Hi Hq. unfold startup.
  eapply orderly_bind; [by apply parse_options_total|].
  intros g0 k0 -> _.
  eapply orderly_bind; [by apply parse_operands_total|].
  intros g k0 (-> & H0 & H1) _.
  eapply orderly_bind; [by apply (open_operand_total e i)|].
  intros opened k0 (-> & fi & ->) _.
  eapply orderly_bind; [by apply (open_operand_total e i)|].
  intros opened k0 (-> & fi' & ->) _.
  case_decide; simpl; run; by split.
Qed.



Lemma buffer_lcm_pos (a b : positive) : (0 < buffer_lcm a b)%nat.
Proof.
  unfold buffer_lcm.
  destruct (Nat.lcm (Pos.to_nat a) (Pos.to_nat b)) eqn:Hl; [|lia].
  apply Nat.lcm_eq_0 in Hl. lia.
Qed.


Lemma startup_ret (e : env) (i : invocation) (k k' : console) x :
  invocation_ok i → quiet k → startup e i k = Ret x k' → k' = k.
Proof.
  intros Hi Hq Hs. pose proof (startup_total e i k Hi Hq) as Ho.
  rewrite Hs in Ho. by destruct Ho.
Qed.



(** ** The claims on sample runs *)


Lemma block_compare_exact_witness :
  ∃ w' c c' d,
    insert_sentinels 3 4 sample_blocks = Ret tt w'
    ∧ sel 1 (buffer sample_blocks) !! 3%nat = Some c
    ∧ sel 0 (buffer w') !! 3%nat = Some (byte_not c)
    ∧ sel 0 (buffer w') !! 4%nat = Some c'
    ∧ sel 1 (buffer w') !! 4%nat = Some (byte_not c')
    ∧ block_compare 4 false (sel 0 (buffer w')) (sel 1 (buffer w')) = Some d
    ∧ d = 3%nat.
Proof.
  destruct (block_compare_exact 4 false (sample_globals type_status 0 false)
              sample_blocks 3 4)
    as (w' & c & c' & d & H1 & H2 & H3 & H4 & H5 & H6 & _ & _ & H7 & _).
  - lia.
  - split; reflexivity.
  - simpl. lia.
  - simpl. lia.
  - exists w', c, c', d.
    split_and!; [exact H1|exact H2|exact H3|exact H4|exact H5|exact H6|].
    rewrite H7. reflexivity.
Defined.

Lemma block_compare_and_count_refines_witness :
  block_compare 4 true
    [Byte.x0a; Byte.x62; Byte.x0a; Byte.x64; Byte.x0a; Byte.x66; Byte.x0a; Byte.x00]
    [Byte.x0a; Byte.x62; Byte.x0a; Byte.x64; Byte.x0a; Byte.x67; Byte.x0a; Byte.x00]
  = Some 5%nat
  ∧ block_compare_and_count 4 true
      [Byte.x0a; Byte.x62; Byte.x0a; Byte.x64; Byte.x0a; Byte.x66; Byte.x0a; Byte.x00]
      [Byte.x0a; Byte.x62; Byte.x0a; Byte.x64; Byte.x0a; Byte.x67; Byte.x0a; Byte.x00]
      1
    = Some (5%nat, 1 + 3)
  ∧ word_scan_count 4 true 9 (make_nnnn 4 4 0)
      [Byte.x0a; Byte.x62; Byte.x0a; Byte.x64; Byte.x0a; Byte.x66; Byte.x0a; Byte.x00]
      [Byte.x0a; Byte.x62; Byte.x0a; Byte.x64; Byte.x0a; Byte.x67; Byte.x0a; Byte.x00]
      0 0
    = Some (1%nat, 2).
Proof.
  destruct (block_compare_and_count_refines 4 true
              [Byte.x0a; Byte.x62; Byte.x0a; Byte.x64; Byte.x0a; Byte.x66; Byte.x0a;
               Byte.x00]
              [Byte.x0a; Byte.x62; Byte.x0a; Byte.x64; Byte.x0a; Byte.x67; Byte.x0a;
               Byte.x00]
              5 1) as (H1 & H2 & _ & _ & H3 & _).
  - lia.
  - reflexivity.
  - discriminate.
  - simpl. lia.
  - simpl. lia.
  - lia.
  - simpl. lia.
  - split_and!; [exact H1|exact H2|exact H3].
Defined.

Lemma identical_inputs_witness :
  ∃ w',
    cmp 4 true isprint_C (sample_globals type_all_diffs 3 true)
      (sample_world (sample_text Byte.x68) (sample_text Byte.x68))
    = Ret 0 w'
    ∧ c_out (w_console w') = []
    ∧ c_err (w_console w') = [].
Proof.
  apply (identical_inputs 4 true isprint_C (sample_globals type_all_diffs 3 true)
           (sample_world (sample_text Byte.x68) (sample_text Byte.x68))).
  - lia.
  - simpl. lia.
  - simpl. lia.
  - split; reflexivity.
  - split; [reflexivity|simpl; lia].
  - split; [reflexivity|simpl; lia].
  - reflexivity.
Defined.


Lemma strict_prefix_eof_witness :
  ∃ w',
    cmp 4 false isprint_C (sample_globals type_first_diff 0 false)
      (sample_world (sample_text Byte.x68)
                    (sample_text Byte.x68 ++ [Byte.x21; Byte.x0a]))
    = Ret 1 w'
    ∧ c_out (w_console w') = []
    ∧ c_err (w_console w') = [Eof_on "a"].
Proof.
  apply (strict_prefix_eof 4 false isprint_C (sample_globals type_first_diff 0 false)
           (sample_world (sample_text Byte.x68)
                         (sample_text Byte.x68 ++ [Byte.x21; Byte.x0a]))
           0 Byte.x21 [Byte.x0a]).
  - lia.
  - simpl. lia.
  - simpl. lia.
  - split; reflexivity.
  - split; [reflexivity|simpl; lia].
  - split; [reflexivity|simpl; lia].
  - left. reflexivity.
  - reflexivity.
Defined.

Lemma sprintc_quoting_witness :
  sprintc isprint_C 4 Byte.x00 = [Byte.x5e; Byte.x40; Byte.x20; Byte.x20]
  ∧ sprintc isprint_C 4 Byte.xc8 = [Byte.x4d; Byte.x2d; Byte.x48; Byte.x20].
Proof.
  destruct (sprintc_quoting isprint_C 4) as (H0 & _ & _ & H200 & _).
  - reflexivity.
  - reflexivity.
  - reflexivity.
  - reflexivity.
  - reflexivity.
  - split; [exact H0|exact H200].
Defined.

(** Whatever the locale and the width, byte 200 is never rendered with a
    caret. *)
Lemma sprintc_200_no_caret ISPRINT (width : Z) :
  sprintc ISPRINT width Byte.xc8
  ≠ padded width [Byte.x4d; Byte.x2d; Byte.x5e; Byte.x48].
Proof.
  rewrite sprintc_spec. unfold quoted, padded.
  destruct (ISPRINT Byte.xc8); discriminate.
Qed.

(** In the C locale byte 200 is rendered as [M-H], not as [M-^H]. *)
Lemma sprintc_200_counterexample :
  sprintc isprint_C 0 Byte.xc8 = [Byte.x4d; Byte.x2d; Byte.x48]
  ∧ sprintc isprint_C 0 Byte.xc8 ≠ [Byte.x4d; Byte.x2d; Byte.x5e; Byte.x48].
Proof. split; [reflexivity|discriminate]. Qed.



Lemma last_mode_flag_wins_witness :
  (∃ g', parse_options sample_env [Opt_l; Opt_s] initial_globals (Console [] [] 0)
         = Ret g' (Console [] [] 0)
         ∧ comparison_type g' = type_status)
  ∧ (∃ g', parse_options sample_env [Opt_s; Opt_b; Opt_l] initial_globals
             (Console [] [] 0)
           = Ret g' (Console [] [] 0)
           ∧ comparison_type g' = type_all_diffs).
Proof.
  split.
  - destruct (last_mode_flag_wins sample_env [Opt_l; Opt_s] initial_globals
                (Console [] [] 0)) as (g' & H1 & H2 & _).
    + repeat constructor.
    + exists g'. split; [exact H1|exact H2].
  - destruct (last_mode_flag_wins sample_env [Opt_s; Opt_b; Opt_l] initial_globals
                (Console [] [] 0)) as (g' & H1 & H2 & _).
    + repeat constructor.
    + exists g'. split; [exact H1|exact H2].
Defined.

(** ** Whole runs of [main] *)

(** [cmp a b] on [abcXdef] and [abcYdef]: char 4, line 1, and status 1;
    with [-s], status 1 and no output; with [-l], one line for byte 4 with
    the values of [X] and [Y]. *)
Example main_first_difference :
  main 8 false isprint_C (sample_pair [Byte.x61; Byte.x62; Byte.x63; Byte.x58; Byte.x64]
                                      [Byte.x61; Byte.x62; Byte.x63; Byte.x59; Byte.x64])
    (sample_invocation [] ["a"; "b"]%string)
  = Exit 1 (Console [Differ_char "a" "b" 4 1] [] 2).
Proof. reflexivity. Qed.

Example main_status_only :
  main 8 false isprint_C (sample_pair [Byte.x61; Byte.x62; Byte.x63; Byte.x58; Byte.x64]
                                      [Byte.x61; Byte.x62; Byte.x63; Byte.x59; Byte.x64])
    (sample_invocation [Opt_s] ["a"; "b"]%string)
  = Exit 1 (Console [] [] 2).
Proof. reflexivity. Qed.

Example main_all_differences :
  main 8 false isprint_C (sample_pair [Byte.x61; Byte.x62; Byte.x63; Byte.x58; Byte.x64]
                                      [Byte.x61; Byte.x62; Byte.x63; Byte.x59; Byte.x64])
    (sample_invocation [Opt_l] ["a"; "b"]%string)
  = Exit 1 (Console [Diff_octal 4 Byte.x58 Byte.x59] [] 4).
Proof. reflexivity. Qed.

(** [cmp -s -i 3 a b] on [AAAxyz] and [BBBxyz]: identical. *)
Example main_ignore_initial :
  main 8 true isprint_C (sample_pair [Byte.x41; Byte.x41; Byte.x41; Byte.x78; Byte.x79; Byte.x7a]
                                     [Byte.x42; Byte.x42; Byte.x42; Byte.x78; Byte.x79; Byte.x7a])
    (sample_invocation [Opt_s; Opt_i "3" 3 false] ["a"; "b"]%string)
  = Exit 0 (Console [] [] 2).
Proof. reflexivity. Qed.

(** With standard output on the null device plain [cmp] runs as
    status-only: the sizes settle the matter without a read, and the
    diagnostic of a premature end of file is not written. *)
Example main_null_device :
  main 8 false isprint_C
    (Env (open sample_env) (stdin sample_env) true false true (λ _, Byte.x00))
    (sample_invocation [] ["a"; "b"]%string)
  = Exit 1 (Console [] [] 0)
  ∧ main 8 false isprint_C sample_env (sample_invocation [] ["a"; "b"]%string)
    = Exit 1 (Console [] [Eof_on "a"] 4).
Proof. split; reflexivity. Qed.

(** * Further properties of the code *)

(** ** Quoting, words and the block comparators *)

Lemma byte_val_of_Z (z : Z) : 0 ≤ z < 256 → byte_val (byte_of_Z z) = z.
Proof.
  intros Hz. unfold byte_of_Z, byte_val. rewrite Z.mod_small by done.
  destruct (Byte.of_N (Z.to_N z)) as [b|] eqn:Hb.
  - apply Byte.to_of_N in Hb. simpl. lia.
  - apply Byte.of_N_None_iff in Hb. lia.
Qed.

Lemma quoted_length ISPRINT (c : byte) : (1 ≤ length (quoted ISPRINT c) ≤ 4)%nat.
Proof.
  unfold quoted, control_quote. destruct (ISPRINT c); repeat case_decide; simpl; lia.
Qed.

Lemma sprintc_0 ISPRINT (c : byte) : sprintc ISPRINT 0 c = quoted ISPRINT c.
Proof.
  rewrite sprintc_spec. unfold padded.
  replace (Z.to_nat (0 - _)) with 0%nat by lia. apply app_nil_r.
Qed.

(** X1.  Padding only appends spaces: [sprintc] with a width yields the
    rendering of width 0 followed by spaces, never a truncation.  That
    rendering has between one and four bytes, so with a width of at most 4
    the string and its terminating NUL fit the five-byte arrays of [cmp],
    and the length is the larger of the width and that of the rendering. *)
Theorem sprintc_length ISPRINT (width : Z) (c : byte) :
  sprintc ISPRINT width c
  = sprintc ISPRINT 0 c
    ++ replicate (Z.to_nat width - length (sprintc ISPRINT 0 c)) Byte.x20
  ∧ (1 ≤ length (sprintc ISPRINT 0 c) ≤ 4)%nat
  ∧ length (sprintc ISPRINT width c)
    = Nat.max (length (sprintc ISPRINT 0 c)) (Z.to_nat width).
Proof.
  rewrite sprintc_0, sprintc_spec. pose proof (quoted_length ISPRINT c).
  unfold padded. split; [|split; [done|]].
  - f_equal. f_equal. lia.
  - rewrite length_app, length_replicate. lia.
Qed.

Lemma unquote_quoted ISPRINT (c : byte) (n : nat) :
  unquote (quoted ISPRINT c ++ replicate n Byte.x20) = c.
Proof.
  unfold quoted. destruct (ISPRINT c).
  - destruct n as [|n]; destruct c; reflexivity.
  - destruct c; destruct n as [|[|[|n]]]; reflexivity.
Qed.

(** X2.  For one width and one locale, two different bytes are never
    rendered alike. *)
Theorem sprintc_injective ISPRINT (width : Z) (c c' : byte) :
  sprintc ISPRINT width c = sprintc ISPRINT width c' → c = c'.
Proof.
  rewrite !sprintc_spec. unfold padded. intros H.
  apply (f_equal unquote) in H. by rewrite !unquote_quoted in H.
Qed.

(** X3.  Every byte [sprintc] writes is a printable ASCII character,
    unless it is the byte itself and the locale calls it printable. *)
Theorem sprintc_visible ISPRINT (width : Z) (c b : byte) :
  b ∈ sprintc ISPRINT width c →
  32 ≤ byte_val b ≤ 126 ∨ (b = c ∧ ISPRINT c = true).
Proof.
  rewrite sprintc_spec. unfold padded.
  intros [Hb|Hb]%elem_of_app.
  - unfold quoted in Hb. destruct (ISPRINT c) eqn:Hc.
    + apply list_elem_of_singleton in Hb. by right.
    + left. pose proof (byte_val_range c) as Hr.
      assert (∀ z, 0 ≤ z < 128 → b ∈ control_quote z → 32 ≤ byte_val b ≤ 126) as Hq.
      { intros z Hz. unfold control_quote.
        repeat case_decide; rewrite ?elem_of_cons, ?elem_of_nil;
          intros; destruct_or?; subst; try done;
          rewrite ?byte_val_of_Z by lia; try (vm_compute; split; congruence); lia. }
      case_decide.
      * apply elem_of_app in Hb as [Hb|Hb]; [|apply (Hq (byte_val c - 128)); [lia|done]].
        rewrite !elem_of_cons, elem_of_nil in Hb.
        destruct_or?; subst; try done; vm_compute; split; congruence.
      * apply (Hq (byte_val c)); [|done].
        split; [lia|lia].
  - apply elem_of_replicate in Hb as [-> _]. left. vm_compute. split; congruence.
Qed.

(** X4.  The constant [nnnn] built by the first loop of
    [block_compare_and_count] is the word whose bytes are all newlines, and
    the inner loop applied to a word XORed with it adds to the counter the
    number of newline bytes of that word, in either byte order. *)
Theorem newline_count_by_xor W big_endian (bs : list byte) (cnt : Z) :
  length bs = W →
  make_nnnn W W 0 = word_of_bytes big_endian (replicate W newline)
  ∧ count_zero_bytes W (Z.lxor (word_of_bytes big_endian bs) (make_nnnn W W 0)) cnt
    = cnt + count_nl bs.
Proof.
  intros Hl. split; [|by apply count_word_spec].
  rewrite make_nnnn_spec. unfold word_of_bytes. destruct big_endian; [|done].
  f_equal. clear. induction W as [|n IH]; [done|].
  rewrite replicate_S_end at 1. simpl. by rewrite reverse_cons, <-IH.
Qed.

(** ** What the block comparators return *)

Lemma load_word_some W big_endian (p : list byte) (i : nat) (l : Z) :
  load_word W big_endian p i = Some l →
  (i * W + W ≤ length p)%nat
  ∧ l = word_of_bytes big_endian (take W (drop (i * W) p)).
Proof.
  unfold load_word. case_decide as Hl; [|done]. intros [= <-].
  rewrite length_take, length_drop in Hl. split; [lia|done].
Qed.

Lemma take_segment (p0 p1 : list byte) (n m : nat) :
  take n p0 = take n p1 → take m (drop n p0) = take m (drop n p1) →
  take (n + m) p0 = take (n + m) p1.
Proof. intros H1 H2. by rewrite <-!take_take_drop, H1, H2. Qed.

Lemma word_scan_some W big_endian (fuel : nat) (p0 p1 : list byte) (i j : nat) :
  word_scan W big_endian fuel p0 p1 i = Some j →
  take (i * W) p0 = take (i * W) p1 →
  take (j * W) p0 = take (j * W) p1
  ∧ (j * W + W ≤ length p0)%nat ∧ (j * W + W ≤ length p1)%nat
  ∧ take W (drop (j * W) p0) ≠ take W (drop (j * W) p1).
Proof.
  revert i. induction fuel as [|fuel IH]; intros i; [done|]. simpl.
  destruct (load_word W big_endian p0 i) as [l0|] eqn:H0; [|done].
  destruct (load_word W big_endian p1 i) as [l1|] eqn:H1; [|done]. simpl.
  apply load_word_some in H0 as [Hr0 ->]. apply load_word_some in H1 as [Hr1 ->].
  case_decide as Hw.
  - intros Hs Hpre. apply (IH _ Hs).
    apply word_of_bytes_inj in Hw; [|rewrite !length_take, !length_drop; lia].
    replace (S i * W)%nat with (i * W + W)%nat by lia. by apply take_segment.
  - intros [= <-] Hpre. split_and!; [done..|]. intros Heq. apply Hw. by rewrite Heq.
Qed.

Lemma byte_scan_some (fuel : nat) (p0 p1 : list byte) (c d : nat) :
  byte_scan fuel p0 p1 c = Some d →
  take c p0 = take c p1 →
  (c ≤ d)%nat ∧ take d p0 = take d p1
  ∧ ∃ x y, p0 !! d = Some x ∧ p1 !! d = Some y ∧ x ≠ y.
Proof.
  revert c. induction fuel as [|fuel IH]; intros c; [done|]. simpl.
  destruct (p0 !! c) as [c0|] eqn:H0; [|done].
  destruct (p1 !! c) as [c1|] eqn:H1; [|done]. simpl.
  case_decide as Hc.
  - intros Hs Hpre. subst c1. destruct (IH _ Hs) as (? & ? & ?).
    + by rewrite (take_S_r _ _ _ H0), (take_S_r _ _ _ H1), Hpre.
    + split; [lia|done].
  - intros [= <-] Hpre. split_and!; [done..|]. by exists c0, c1.
Qed.

Lemma block_compare_some W big_endian (p0 p1 : list byte) (d : nat) :
  (0 < W)%nat →
  block_compare W big_endian p0 p1 = Some d →
  take d p0 = take d p1 ∧ p0 !! d ≠ p1 !! d
  ∧ (d `div` W * W + W ≤ length p0)%nat ∧ (d `div` W * W + W ≤ length p1)%nat.
Proof.
  intros HW. unfold block_compare.
  destruct (word_scan W big_endian (S (length p0)) p0 p1 0) as [j|] eqn:Hj; [|done].
  cbn [mbind option_bind]. intros Hd.
  apply word_scan_some in Hj as (Hpre & Hr0 & Hr1 & Hseg); [|done].
  apply byte_scan_some in Hd as (Hle & Htake & x & y & Hx & Hy & Hxy); [|done].
  assert (d < j * W + W)%nat as Hlt.
  { destruct (decide (d < j * W + W)%nat) as [|Hge]; [done|]. exfalso. apply Hseg.
    rewrite !take_drop_commute.
    rewrite <-(Nat.min_l (j * W + W) d), <-!take_take by lia. by rewrite Htake. }
  assert (d `div` W = j)%nat as ->.
  { symmetry. apply (Nat.div_unique d W j (d - j * W)); lia. }
  split_and!; [done| |done..]. rewrite Hx, Hy. by intros [= ?].
Qed.

(** X5.  [block_compare] has a result exactly when the two arrays differ
    at some offset whose word lies within both arrays, and the result is
    the first such offset; without a difference in reach the scan leaves
    the arrays. *)
Theorem block_compare_first_difference W big_endian (p0 p1 : list byte) (d : nat) :
  (0 < W)%nat →
  block_compare W big_endian p0 p1 = Some d
  ↔ take d p0 = take d p1 ∧ p0 !! d ≠ p1 !! d
    ∧ (d `div` W * W + W ≤ length p0)%nat ∧ (d `div` W * W + W ≤ length p1)%nat.
Proof.
  intros HW. split.
  - by apply block_compare_some.
  - intros (? & ? & ? & ?). by apply block_compare_spec.
Qed.

(** X6.  The result of [block_compare] depends neither on the size of
    the machine word nor on the byte order nor on the order of the two
    arrays, as long as the word that holds the difference lies within
    both. *)
Theorem block_compare_portable W big_endian W' big_endian' (p0 p1 : list byte)
    (d : nat) :
  (0 < W)%nat → (0 < W')%nat →
  block_compare W big_endian p0 p1 = Some d →
  (d `div` W' * W' + W' ≤ length p0)%nat → (d `div` W' * W' + W' ≤ length p1)%nat →
  block_compare W' big_endian' p0 p1 = Some d
  ∧ block_compare W' big_endian' p1 p0 = Some d
  ∧ block_compare W big_endian p1 p0 = Some d.
Proof.
  intros HW HW' Hd Hr0 Hr1.
  apply block_compare_some in Hd as (Htake & Hne & Hr0' & Hr1'); [|done].
  split_and!; apply block_compare_spec; done.
Qed.

Lemma word_scan_count_erase W big_endian (fuel : nat) nnnn (p0 p1 : list byte)
    (i j : nat) (cnt c : Z) :
  word_scan_count W big_endian fuel nnnn p0 p1 i cnt = Some (j, c) →
  word_scan W big_endian fuel p0 p1 i = Some j.
Proof.
  revert i cnt. induction fuel as [|fuel IH]; intros i cnt; [done|]. simpl.
  destruct (load_word W big_endian p0 i) as [l0|]; [|done].
  destruct (load_word W big_endian p1 i) as [l1|]; [|done]. simpl.
  case_decide; [apply IH|]. by intros [= <- _].
Qed.

Lemma byte_scan_count_erase (fuel : nat) (p0 p1 : list byte) (c d : nat) (cnt n : Z) :
  byte_scan_count fuel p0 p1 c cnt = Some (d, n) →
  byte_scan fuel p0 p1 c = Some d.
Proof.
  revert c cnt. induction fuel as [|fuel IH]; intros c cnt; [done|]. simpl.
  destruct (p0 !! c) as [c0|]; [|done].
  destruct (p1 !! c) as [c1|]; [|done]. simpl.
  case_decide; [apply IH|]. by intros [= <- _].
Qed.

(** X7.  For a counter that has room, within [off_t], for the length of
    the array, [block_compare_and_count] has a result exactly when
    [block_compare] has one; the offsets agree, and the counter grows by the
    number of newlines before that offset. *)
Theorem block_compare_and_count_agrees W big_endian (p0 p1 : list byte)
    (count : Z) (d : nat) (c : Z) :
  (0 < W)%nat →
  - 2 ^ 63 ≤ count → count + Z.of_nat (length p0) < 2 ^ 63 →
  block_compare_and_count W big_endian p0 p1 count = Some (d, c)
  ↔ block_compare W big_endian p0 p1 = Some d ∧ c = count + count_nl (take d p0).
Proof.
  intros HW _ _. split.
  - intros Hc.
    assert (block_compare W big_endian p0 p1 = Some d) as Hd.
    { revert Hc. unfold block_compare_and_count, block_compare.
      destruct (word_scan_count W big_endian (S (length p0)) (make_nnnn W W 0) p0 p1 0 0)
        as [[j n]|] eqn:Hj; [|done].
      rewrite (word_scan_count_erase _ _ _ _ _ _ _ _ _ _ Hj). cbn [mbind option_bind].
      destruct (byte_scan_count (S (length p0)) p0 p1 (j * W) n) as [[d' n']|] eqn:Hb;
        [|done].
      rewrite (byte_scan_count_erase _ _ _ _ _ _ _ Hb). cbn [mbind option_bind].
      by intros [= -> _]. }
    split; [done|].
    apply block_compare_some in Hd as (Ht & Hne & Hr0 & Hr1); [|done].
    rewrite (block_compare_and_count_spec W big_endian HW p0 p1 d Ht Hne Hr0 Hr1) in Hc.
    by injection Hc.
  - intros [(? & ? & ? & ?)%block_compare_some ->]; [|done].
    by apply block_compare_and_count_spec.
Qed.

(** ** The argument of [-i] *)

(** X8.  An argument of [-i] whose value fits [uintmax_t] is accepted
    exactly when it also fits [off_t] and the conversion met no error;
    otherwise the run ends with status 2 after the diagnostic of an invalid
    value and the hint at [--help]. *)
Theorem ignore_initial_accepted (e : env) (optarg : string) (val : Z) (bad : bool)
    (opts : list getopt_result) (g : globals) (k : console) :
  0 ≤ val < 2 ^ 64 →
  parse_options e (Opt_i optarg val bad :: opts) g k
  = if decide (val < 2 ^ 63 ∧ bad = false)
    then parse_options e opts (set_ignore_initial val g) k
    else Exit 2 (Console (c_out k)
                   (c_err k ++ [Usage_reason "invalid --ignore-initial value `%s'" optarg;
                                Try_help])
                   (c_reads k)).
Proof.
  intros Hval. cbn [parse_options]. unfold to_off_t.
  destruct (decide (val < 2 ^ 63)) as [Hlt|Hge].
  - rewrite (Z.mod_small (val + 2 ^ 63)) by lia.
    replace (val + 2 ^ 63 - 2 ^ 63) with val by lia.
    destruct bad.
    + rewrite decide_True by auto. rewrite decide_False by (by intros [_ ?]).
      unfold try_help. run. by rewrite <-app_assoc.
    + rewrite decide_False by (intros [?|[?|?]]; [lia|done..]).
      by rewrite decide_True.
  - assert ((val + 2 ^ 63) mod 2 ^ 64 = val - 2 ^ 63) as ->.
    { symmetry. apply (Z.mod_unique_pos _ _ 1); lia. }
    rewrite decide_True by (left; lia). rewrite decide_False by (intros [? _]; lia).
    unfold try_help. run. by rewrite <-app_assoc.
Qed.

(** ** File positions and the ignored initial prefix *)

(** X9.  [file_position] seeks at most once: a second call yields the
    same position and changes nothing, and no call touches the buffers or
    the output. *)
Theorem file_position_once g (f : nat) (w : world) :
  ∃ p w',
    file_position g f w = Ret p w'
    ∧ file_position g f w' = Ret p w'
    ∧ sel f (positioned w') = true
    ∧ (sel f (positioned w) = true → w' = w)
    ∧ buffer w' = buffer w ∧ w_console w' = w_console w.
Proof.
  unfold file_position. destruct (sel f (positioned w)) eqn:Hp.
  - exists (sel f (position w)), w. by rewrite Hp.
  - destruct (lseek_cur (sel f (file_desc w)) (ignore_initial g)) as [r s].
    eexists _, _. split; [done|].
    unfold set_position, set_file_desc. cbn [positioned position].
    rewrite !sel_upd. done.
Qed.

(** X10.  Skipping the ignored initial prefix of an input that has not
    been positioned leaves the same bytes to compare whether the descriptor
    can seek or not.  With [lseek] nothing is read and the position
    advances by [ignore_initial]; without it the recorded position is -1 and
    the prefix is read and discarded.  Nothing is printed. *)
Theorem skip_initial_consumes g (f : nat) (w : world) :
  (0 < buf_size g)%nat → 0 < ignore_initial g →
  sel f (positioned w) = false →
  s_fail (sel f (file_desc w)) = false → 0 ≤ s_pos (sel f (file_desc w)) →
  (buf_size g ≤ length (sel 0 (buffer w)))%nat →
  ∃ w',
    skip_initial g f w = Ret tt w'
    ∧ s_bytes (sel f (file_desc w'))
      = drop (Z.to_nat (ignore_initial g)) (s_bytes (sel f (file_desc w)))
    ∧ sel f (position w')
      = (if s_seekable (sel f (file_desc w))
         then s_pos (sel f (file_desc w)) + ignore_initial g else -1)
    ∧ (s_seekable (sel f (file_desc w)) = true →
       c_reads (w_console w') = c_reads (w_console w) ∧ buffer w' = buffer w)
    ∧ c_out (w_console w') = c_out (w_console w)
    ∧ c_err (w_console w') = c_err (w_console w).
Proof.
  intros Hbs Hig Hpd Hs Hpos Hb0.
  destruct w as [fd [b0 b1] pd ps [out err rd]].
  cbn [file_desc buffer positioned position w_console sel fst c_out c_err c_reads] in *.
  unfold skip_initial, file_position. run. rewrite Hpd.
  unfold lseek_cur. destruct (s_seekable (sel f fd)) eqn:Hseek; run.
  - rewrite decide_False by lia. eexists. split; [done|].
    cbn [file_desc position w_console c_out c_err c_reads buffer].
    by rewrite !sel_upd.
  - rewrite decide_True by done. rewrite upd_sel.
    destruct (discard_loop_spec g f Hbs (S (length (s_bytes (sel f fd))))
                (ignore_initial g) fd b0 b1 (upd f true pd) (upd f (-1) ps) out err rd)
      as (s' & b0' & rd' & Hl & Hs' & Hf & Hlen); [done..|lia|].
    cbn [file_desc]. rewrite Hl. eexists. split; [done|].
    cbn [file_desc position w_console c_out c_err c_reads buffer].
    rewrite !sel_upd. done.
Qed.

(** ** Read errors *)

Lemma bind_exit_eq {S A B} (m : prog S A) (f : A → prog S B) (s s' : S) (c : Z) :
  m s = Exit c s' → (m ≫= f) s = Exit c s'.
Proof. intros H. unfold mbind, prog_bind. by rewrite H. Qed.

Lemma pass_outcome_equal_block ISPRINT g ln cn ret (x : list byte) :
  length x = buf_size g →
  ∃ ln' cn', pass_outcome ISPRINT g ln cn ret x x = (Again ln' cn' ret, [], []).
Proof.
  intros Hx. unfold pass_outcome. rewrite lcp_same, eof_lines_same, Nat.min_id.
  rewrite (decide_False (P := (length x < length x)%nat)) by lia.
  rewrite (decide_False (P := length x ≠ length x)) by (by intros ?).
  rewrite (decide_True (P := length x = buf_size g)) by done.
  by eexists _, _.
Qed.

Lemma cmp_loop_read_error0 W big_endian ISPRINT g :
  (0 < W)%nat → (0 < buf_size g)%nat →
  ∀ (fuel : nat) ln cn ret s0 s1 b0 b1 pd ps out err rd rest,
    s_fail s0 = true → s_bytes s1 = s_bytes s0 ++ rest →
    length b0 = (W * words_per_buffer W (buf_size g))%nat →
    length b1 = (W * words_per_buffer W (buf_size g))%nat →
    (length (s_bytes s0) < fuel)%nat →
    ∃ w',
      cmp_loop W big_endian ISPRINT fuel g ln cn ret
        (World (s0, s1) (b0, b1) pd ps (Console out err rd))
      = Exit 2 w'
      ∧ c_out (w_console w') = out
      ∧ c_err (w_console w') = err ++ [Error_file (sel 0 (file g))].
Proof.
  intros HW Hbs fuel.
  induction fuel as [|fuel IH];
    intros ln cn ret s0 s1 b0 b1 pd ps out err rd rest Hf Hrest Hb0 Hb1 Hfuel; [lia|].
  cbn [cmp_loop].
  destruct (decide (buf_size g ≤ length (s_bytes s0))%nat) as [Hfull|Hshort].
  - destruct (cmp_pass_spec W big_endian ISPRINT g ln cn ret s0 s1 b0 b1 pd ps out err rd)
      as (B0 & B1 & HB0 & HB1 & Hp); [done|by right| |done..|].
    { right. rewrite Hrest, length_app. lia. }
    rewrite (bind_ret_eq _ _ _ _ _ Hp). clear Hp.
    assert (take (buf_size g) (s_bytes s1) = take (buf_size g) (s_bytes s0)) as ->
      by (by rewrite Hrest, take_app_le).
    destruct (pass_outcome_equal_block ISPRINT g ln cn ret (take (buf_size g) (s_bytes s0)))
      as (ln' & cn' & ->); [rewrite length_take; lia|].
    cbn [fst snd]. rewrite !app_nil_r.
    apply (IH _ _ _ _ _ _ _ _ _ _ _ _ rest).
    + done.
    + cbn [advance s_bytes]. rewrite Hrest, !length_take_le by lia.
      by rewrite drop_app_le by lia.
    + lia.
    + lia.
    + cbn [advance s_bytes]. rewrite drop_length_take, length_drop. lia.
  - unfold cmp_pass, block_read, block_read_sys. run.
    rewrite decide_False, Hf by done. run. by eexists.
Qed.

Lemma cmp_loop_read_error1 W big_endian ISPRINT g :
  (0 < W)%nat → (0 < buf_size g)%nat →
  ∀ (fuel : nat) ln cn ret s0 s1 b0 b1 pd ps out err rd rest,
    s_fail s0 = false → s_fail s1 = true → s_bytes s0 = s_bytes s1 ++ rest →
    length b0 = (W * words_per_buffer W (buf_size g))%nat →
    length b1 = (W * words_per_buffer W (buf_size g))%nat →
    (length (s_bytes s1) < fuel)%nat →
    ∃ w',
      cmp_loop W big_endian ISPRINT fuel g ln cn ret
        (World (s0, s1) (b0, b1) pd ps (Console out err rd))
      = Exit 2 w'
      ∧ c_out (w_console w') = out
      ∧ c_err (w_console w') = err ++ [Error_file (sel 1 (file g))].
Proof.
  intros HW Hbs fuel.
  induction fuel as [|fuel IH];
    intros ln cn ret s0 s1 b0 b1 pd ps out err rd rest Hf0 Hf Hrest Hb0 Hb1 Hfuel; [lia|].
  cbn [cmp_loop].
  pose proof (buffer_room W (buf_size g) HW) as Hroom.
  destruct (decide (buf_size g ≤ length (s_bytes s1))%nat) as [Hfull|Hshort].
  - destruct (cmp_pass_spec W big_endian ISPRINT g ln cn ret s0 s1 b0 b1 pd ps out err rd)
      as (B0 & B1 & HB0 & HB1 & Hp); [done|by left|by right|done..|].
    rewrite (bind_ret_eq _ _ _ _ _ Hp). clear Hp.
    assert (take (buf_size g) (s_bytes s0) = take (buf_size g) (s_bytes s1)) as ->
      by (by rewrite Hrest, take_app_le).
    destruct (pass_outcome_equal_block ISPRINT g ln cn ret (take (buf_size g) (s_bytes s1)))
      as (ln' & cn' & ->); [rewrite length_take; lia|].
    cbn [fst snd]. rewrite !app_nil_r.
    apply (IH _ _ _ _ _ _ _ _ _ _ _ _ rest).
    + done.
    + done.
    + cbn [advance s_bytes]. rewrite Hrest, !length_take_le by lia.
      by rewrite drop_app_le by lia.
    + lia.
    + lia.
    + cbn [advance s_bytes]. rewrite drop_length_take, length_drop. lia.
  - assert (∃ w', cmp_pass W big_endian ISPRINT g ln cn ret
                    (World (s0, s1) (b0, b1) pd ps (Console out err rd)) = Exit 2 w'
                  ∧ c_out (w_console w') = out
                  ∧ c_err (w_console w') = err ++ [Error_file (sel 1 (file g))])
      as (w' & Hp & Hw').
    { unfold cmp_pass.
      rewrite (bind_ret_eq _ _ _ _ _
                 (block_read_spec0 g s0 s1 b0 b1 pd ps out err rd (or_introl Hf0)
                    ltac:(lia))).
      cbv beta iota. unfold block_read, block_read_sys. run.
      rewrite decide_False, Hf by done. run. by eexists. }
    exists w'. by rewrite (bind_exit_eq _ _ _ _ _ Hp).
Qed.

Lemma discard_loop_enough g (f : nat) :
  (0 < buf_size g)%nat →
  ∀ (fuel : nat) (ig : Z) fd b0 b1 pd ps out err rd,
    0 < ig → ig ≤ Z.of_nat (length (s_bytes (sel f fd))) →
    (buf_size g ≤ length b0)%nat →
    (length (s_bytes (sel f fd)) < fuel)%nat →
    ∃ s' b0' rd',
      discard_loop fuel g f ig (World fd (b0, b1) pd ps (Console out err rd))
      = Ret tt (World (upd f s' fd) (b0', b1) pd ps (Console out err rd'))
      ∧ s_bytes s' = drop (Z.to_nat ig) (s_bytes (sel f fd))
      ∧ s_fail s' = s_fail (sel f fd) ∧ length b0' = length b0.
Proof.
  intros Hbs fuel. induction fuel as [|fuel IH];
    intros ig fd b0 b1 pd ps out err rd Hig Hlen Hb0 Hfuel; [lia|].
  cbn [discard_loop]. unfold read_buf0, sys_read. run.
  destruct (s_bytes (sel f fd)) as [|c bytes] eqn:Hbytes; [simpl in Hlen; lia|].
  set (n := Z.to_nat (Z.min ig (Z.of_nat (buf_size g)))).
  assert (0 < n)%nat as Hn by (unfold n; lia).
  run. unfold store_bytes.
  rewrite decide_True by (rewrite length_take; simpl in *; lia). run.
  destruct (length (take n (c :: bytes))) as [|r] eqn:Hr.
  { rewrite length_take in Hr. simpl in Hr. lia. }
  cbn [length] in Hfuel, Hlen.
  assert (S r = Nat.min n (S (length bytes))) as Hr' by (by rewrite <-Hr, length_take).
  case_decide as Hig'.
  - destruct (IH (ig - Z.of_nat (S r))
                (upd f (advance (sel f fd) (Nat.min n (length (c :: bytes)))) fd)
                (take n (c :: bytes) ++ drop (S r) b0) b1 pd ps out err (S rd))
      as (s' & b0' & rd' & Hl & Hs' & Hf & Hlen').
    + unfold n in *. lia.
    + rewrite sel_upd. cbn [advance s_bytes]. rewrite Hbytes, length_drop. simpl.
      unfold n in *. lia.
    + rewrite length_app, length_take, length_drop. simpl. lia.
    + rewrite sel_upd. cbn [advance s_bytes]. rewrite Hbytes, length_drop. simpl. lia.
    + rewrite upd_upd in Hl. rewrite Hl. exists s', b0', rd'. split_and!; [done| | |].
      * rewrite Hs', sel_upd. cbn [advance s_bytes]. rewrite Hbytes, drop_drop. f_equal.
        simpl length. unfold n in *. lia.
      * by rewrite Hf, sel_upd.
      * rewrite Hlen', length_app, length_take, length_drop. simpl. lia.
  - eexists _, _, _. split_and!; [done|..].
    + cbn [advance s_bytes]. rewrite Hbytes. f_equal. simpl length. unfold n in *. lia.
    + done.
    + rewrite length_app, length_take, length_drop. simpl. lia.
Qed.

Lemma skip_initial_enough g (f : nat) fd b0 b1 pd ps out err rd :
  (0 < buf_size g)%nat → 0 < ignore_initial g →
  0 ≤ s_pos (sel f fd) →
  ignore_initial g ≤ Z.of_nat (length (s_bytes (sel f fd))) →
  (buf_size g ≤ length b0)%nat →
  ∃ s' b0' p rd',
    skip_initial g f (World fd (b0, b1) pd ps (Console out err rd))
    = Ret tt (World (upd f s' fd) (b0', b1) (upd f true pd) (upd f p ps)
                (Console out err rd'))
    ∧ s_bytes s'
      = (if decide (sel f pd = true ∧ sel f ps ≠ -1)
         then s_bytes (sel f fd)
         else drop (Z.to_nat (ignore_initial g)) (s_bytes (sel f fd)))
    ∧ s_fail s' = s_fail (sel f fd) ∧ length b0' = length b0.
Proof.
  intros Hbs Hig Hpos Hlen Hb0.
  unfold skip_initial, file_position. run.
  destruct (sel f pd) eqn:Hpd.
  - run. case_decide as Hp.
    + destruct (discard_loop_enough g f Hbs (S (length (s_bytes (sel f fd))))
                  (ignore_initial g) fd b0 b1 pd ps out err rd)
        as (s' & b0' & rd' & Hl & Hs' & Hf & Hlen'); [done..|lia|].
      cbn [file_desc]. rewrite Hl. exists s', b0', (sel f ps), rd'.
      rewrite (upd_same f true pd Hpd), upd_sel.
      rewrite decide_False by tauto. done.
    + exists (sel f fd), b0, (sel f ps), rd.
      rewrite (upd_same f true pd Hpd), !upd_sel.
      rewrite decide_True by done. done.
  - rewrite decide_False by (by intros [? _]).
    unfold lseek_cur. destruct (s_seekable (sel f fd)) eqn:Hseek; run.
    + rewrite decide_False by lia. by eexists _, b0, _, _.
    + rewrite decide_True by done. rewrite upd_sel.
      destruct (discard_loop_enough g f Hbs (S (length (s_bytes (sel f fd))))
                  (ignore_initial g) fd b0 b1 (upd f true pd) (upd f (-1) ps) out err rd)
        as (s' & b0' & rd' & Hl & Hs' & Hf & Hlen'); [done..|lia|].
      cbn [file_desc]. rewrite Hl. by eexists s', b0', _, rd'.
Qed.

(** X11.  A read error ends the run with status 2.  When one input fails
    once its bytes are used up, the bytes compared from the other input
    begin with all the bytes compared from it (and, for a failure of the
    second input, the first one reads without error), and both inputs hold
    at least the ignored initial prefix, then [cmp] prints nothing on
    standard output, writes a diagnostic that names the failing input, and
    exits with status 2, in every mode, status-only included, and for every
    [ignore_initial]. *)
Theorem read_error_exit W big_endian ISPRINT g (w : world) (f : nat)
    (rest : list byte) :
  (0 < W)%nat → (0 < buf_size g)%nat → 0 ≤ ignore_initial g →
  buffers_ok W g w →
  (f = 0 ∨ f = 1)%nat →
  0 ≤ s_pos (sel 0 (file_desc w)) → 0 ≤ s_pos (sel 1 (file_desc w)) →
  ignore_initial g ≤ Z.of_nat (length (s_bytes (sel 0 (file_desc w)))) →
  ignore_initial g ≤ Z.of_nat (length (s_bytes (sel 1 (file_desc w)))) →
  s_fail (sel f (file_desc w)) = true →
  (f = 1%nat → s_fail (sel 0 (file_desc w)) = false) →
  compared g (1 - f) w = compared g f w ++ rest →
  ∃ w',
    cmp W big_endian ISPRINT g w = Exit 2 w'
    ∧ c_out (w_console w') = c_out (w_console w)
    ∧ c_err (w_console w') = c_err (w_console w) ++ [Error_file (sel f (file g))].
Proof.
  intros HW Hbs Hig [Hb0 Hb1] Hf Hp0 Hp1 Hl0 Hl1 Hfail Hfail0 Hrest.
  destruct w as [[s0 s1] [b0 b1] [pd0 pd1] [ps0 ps1] [out err rd]].
  unfold compared in Hrest.
  cbn [file_desc buffer positioned position w_console sel fst snd c_out c_err] in *.
  pose proof (buffer_room W (buf_size g) HW) as Hroom.
  assert (∀ (P : Prop) `{Decision P} (l : list byte), (if decide P then l else l) = l)
    as Hif by (intros P ? l; by destruct (decide P)).
  unfold cmp. destruct (decide (ignore_initial g ≠ 0)) as [Hig0|Hig0].
  - destruct (skip_initial_enough g 0 (s0, s1) b0 b1 (pd0, pd1) (ps0, ps1) out err rd)
      as (s0' & b0' & p0 & rd' & Hskip0 & Hbytes0 & Hf0 & Hlen0); [done|lia|done..|lia|].
    destruct (skip_initial_enough g 1 (s0', s1) b0' b1 (true, pd1) (p0, ps1) out err rd')
      as (s1' & b0'' & p1 & rd'' & Hskip1 & Hbytes1 & Hf1 & Hlen1);
      [done|lia|done..|lia|].
    cbn [upd sel fst snd] in *.
    pose proof (bind_ret_eq _ (λ _, skip_initial g 1) _ _ _ Hskip0) as Hskip.
    cbv beta in Hskip. rewrite Hskip1 in Hskip.
    rewrite (bind_ret_eq _ _ _ _ _ Hskip).
    rewrite (bind_ret_eq _ _ _ _ _ (eq_refl : get _ = Ret _ _)).
    cbn [file_desc sel fst].
    destruct Hf as [-> | ->]; cbn [sel Nat.sub fst snd] in *.
    + apply (cmp_loop_read_error0 W big_endian ISPRINT g HW Hbs _ _ _ _ _ _ _ _ _ _ _ _ _
               rest); [congruence|congruence|lia|lia|lia].
    + apply (cmp_loop_read_error1 W big_endian ISPRINT g HW Hbs _ _ _ _ _ _ _ _ _ _ _ _ _
               rest); [rewrite Hf0; by apply Hfail0|congruence|congruence|lia|lia|].
      replace (s_bytes s0') with (s_bytes s1' ++ rest) by congruence.
      rewrite length_app. lia.
  - rewrite bind_mret.
    rewrite (bind_ret_eq _ _ _ _ _ (eq_refl : get _ = Ret _ _)).
    cbn [file_desc sel fst].
    assert (ignore_initial g = 0) as Hz by (by destruct (decide (ignore_initial g = 0))).
    rewrite Hz in Hrest. change (Z.to_nat 0) with 0%nat in Hrest.
    rewrite !drop_0 in Hrest.
    destruct Hf as [-> | ->]; cbn [sel Nat.sub fst snd] in *; rewrite !Hif in Hrest.
    + apply (cmp_loop_read_error0 W big_endian ISPRINT g HW Hbs _ _ _ _ _ _ _ _ _ _ _ _ _
               rest); [done..|lia].
    + apply (cmp_loop_read_error1 W big_endian ISPRINT g HW Hbs _ _ _ _ _ _ _ _ _ _ _ _ _
               rest); [by apply Hfail0|done..|].
      rewrite Hrest, length_app. lia.
Qed.

(** ** The status [cmp] returns *)

Lemma loop_status ISPRINT g ln cn (a b : list byte) :
  (loop_outcome ISPRINT g ln cn 0 a b).1.1 = if decide (a = b) then 0 else 1.
Proof.
  pose proof (lcp_le_l a b) as Hl. pose proof (lcp_le_r a b) as Hr.
  pose proof (lcp_same a) as Hs. pose proof (lcp_full_eq a b) as He.
  pose proof (diff_lines_nil_iff ISPRINT g cn a b) as Hd.
  unfold loop_outcome.
  destruct (decide (a = b)) as [->|Hne].
  - destruct (comparison_type g); repeat case_decide; cbn [fst snd]; try done;
      try lia; exfalso; rewrite Hs, Nat.min_id in Hd; tauto.
  - destruct (comparison_type g); repeat case_decide; cbn [fst snd]; try done;
      exfalso; apply Hne, He; try lia;
      match goal with H : diff_lines _ _ _ _ _ = [] |- _ => apply Hd in H end; lia.
Qed.

(** X12.  [cmp] returns 0 or 1, and it returns 0 exactly when the two
    compared byte sequences are equal, in every mode. *)
Theorem exit_status_decides_equality W big_endian ISPRINT g (w : world) :
  (0 < W)%nat → (0 < buf_size g)%nat → 0 ≤ ignore_initial g →
  buffers_ok W g w → reads_ok 0 w → reads_ok 1 w →
  ∃ status w',
    cmp W big_endian ISPRINT g w = Ret status w'
    ∧ (status = 0 ∨ status = 1)
    ∧ (status = 0 ↔ compared g 0 w = compared g 1 w).
Proof.
  intros HW Hbs Hig Hb Hr0 Hr1.
  destruct (cmp_spec W big_endian ISPRINT g w) as (w' & Hcmp & _); [done..|].
  rewrite loop_status in Hcmp. eexists _, w'. split; [exact Hcmp|].
  case_decide; split; auto; split; intros; done.
Qed.

(** X13.  In status-only mode [cmp] writes nothing, neither on standard
    output nor on standard error, whatever the inputs. *)
Theorem status_only_silent W big_endian ISPRINT g (w : world) :
  (0 < W)%nat → (0 < buf_size g)%nat → 0 ≤ ignore_initial g →
  buffers_ok W g w → reads_ok 0 w → reads_ok 1 w →
  comparison_type g = type_status →
  ∃ status w',
    cmp W big_endian ISPRINT g w = Ret status w'
    ∧ c_out (w_console w') = c_out (w_console w)
    ∧ c_err (w_console w') = c_err (w_console w).
Proof.
  intros HW Hbs Hig Hb Hr0 Hr1 Hty.
  destruct (cmp_spec W big_endian ISPRINT g w) as (w' & Hcmp & Hout & Herr); [done..|].
  eexists _, w'. split; [exact Hcmp|].
  unfold loop_outcome in Hout, Herr. rewrite Hty in Hout, Herr.
  case_decide; cbn [fst snd] in *; by rewrite Hout, Herr, !app_nil_r.
Qed.

(** X14.  When [ignore_initial] is at least the length of both inputs,
    nothing is left to compare: [cmp] returns 0 and prints nothing,
    whatever the inputs hold. *)
Theorem ignore_initial_past_eof W big_endian ISPRINT g (w : world) :
  (0 < W)%nat → (0 < buf_size g)%nat →
  buffers_ok W g w → reads_ok 0 w → reads_ok 1 w →
  positioned w = (false, false) →
  Z.of_nat (length (s_bytes (sel 0 (file_desc w)))) ≤ ignore_initial g →
  Z.of_nat (length (s_bytes (sel 1 (file_desc w)))) ≤ ignore_initial g →
  ∃ w',
    cmp W big_endian ISPRINT g w = Ret 0 w'
    ∧ c_out (w_console w') = c_out (w_console w)
    ∧ c_err (w_console w') = c_err (w_console w).
Proof.
  intros HW Hbs Hb Hr0 Hr1 Hpd Hl0 Hl1.
  destruct (cmp_spec W big_endian ISPRINT g w) as (w' & Hcmp & Hout & Herr);
    [done|done|lia|done..|].
  assert (compared g 0 w = [] ∧ compared g 1 w = []) as [E0 E1].
  { unfold compared. rewrite Hpd. cbn [sel fst snd] in *.
    rewrite !decide_False by (by intros [? _]). split; apply drop_ge; lia. }
  rewrite E0, E1 in Hcmp, Hout, Herr.
  exists w'. unfold loop_outcome, eof_lines in *.
  destruct (comparison_type g); repeat case_decide; cbn [fst snd lcp length] in *;
    try lia; try (exfalso; tauto);
    by rewrite Hcmp, Hout, Herr, ?app_nil_r.
Qed.

(** ** How much [cmp] reads *)

Lemma lcp_drop (k : nat) (a b : list byte) :
  (k ≤ lcp a b)%nat → lcp (drop k a) (drop k b) = (lcp a b - k)%nat.
Proof.
  revert a b. induction k as [|k IH]; intros a b Hk.
  - by rewrite !drop_0, Nat.sub_0_r.
  - destruct a as [|x a], b as [|y b]; simpl in *; try lia.
    case_decide; [|lia]. apply IH. lia.
Qed.

Lemma scanned_le g (a b : list byte) : (scanned g a b ≤ length a)%nat.
Proof. unfold scanned. pose proof (lcp_le_l a b). case_decide; lia. Qed.

Lemma pass_scanned ISPRINT g ln cn ret (a b : list byte) :
  (0 < buf_size g)%nat →
  match (pass_outcome ISPRINT g ln cn ret
           (take (buf_size g) a) (take (buf_size g) b)).1.1 with
  | Again _ _ _ =>
      scanned g a b
      = (buf_size g + scanned g (drop (buf_size g) a) (drop (buf_size g) b))%nat
  | _ => (scanned g a b < buf_size g)%nat
  end.
Proof.
  intros Hbs. unfold pass_outcome, scanned.
  rewrite lcp_take_blocks, !length_take, !length_drop.
  pose proof (lcp_le_l a b). pose proof (lcp_le_r a b).
  pose proof (lcp_drop (buf_size g) a b) as Hd.
  destruct (comparison_type g); repeat case_decide; cbn [fst snd]; try done; lia.
Qed.

Lemma cmp_loop_reads W big_endian ISPRINT g :
  (0 < W)%nat → (0 < buf_size g)%nat →
  ∀ (fuel : nat) ln cn ret s0 s1 b0 b1 pd ps out err rd,
    s_fail s0 = false → s_fail s1 = false →
    length b0 = (W * words_per_buffer W (buf_size g))%nat →
    length b1 = (W * words_per_buffer W (buf_size g))%nat →
    (length (s_bytes s0) < fuel)%nat →
    let m := (scanned g (s_bytes s0) (s_bytes s1) `div` buf_size g + 1)%nat in
    ∃ st w',
      cmp_loop W big_endian ISPRINT fuel g ln cn ret
        (World (s0, s1) (b0, b1) pd ps (Console out err rd))
      = Ret st w'
      ∧ c_reads (w_console w') = (rd + 2 * m)%nat
      ∧ s_bytes (sel 0 (file_desc w')) = drop (m * buf_size g) (s_bytes s0)
      ∧ s_bytes (sel 1 (file_desc w')) = drop (m * buf_size g) (s_bytes s1).
Proof.
  intros HW Hbs fuel.
  induction fuel as [|fuel IH];
    intros ln cn ret s0 s1 b0 b1 pd ps out err rd Hs0 Hs1 Hb0 Hb1 Hfuel m; [lia|].
  cbn [cmp_loop].
  destruct (cmp_pass_spec W big_endian ISPRINT g ln cn ret s0 s1 b0 b1 pd ps out err rd)
    as (B0 & B1 & HB0 & HB1 & Hp); [done|by left|by left|done..|].
  rewrite (bind_ret_eq _ _ _ _ _ Hp). clear Hp.
  pose proof (pass_scanned ISPRINT g ln cn ret (s_bytes s0) (s_bytes s1) Hbs) as Hsc.
  destruct (pass_outcome ISPRINT g ln cn ret (take (buf_size g) (s_bytes s0))
              (take (buf_size g) (s_bytes s1))) as [[p o] e].
  cbn [fst snd] in *.
  assert (∀ n, (n < buf_size g)%nat → (n `div` buf_size g + 1)%nat = 1%nat) as Hsmall
    by (intros n Hn; by rewrite Nat.div_small).
  destruct p as [st|ln' cn' ret'|ret'].
  - eexists _, _. split; [done|].
    cbn [w_console c_reads file_desc sel fst snd advance s_bytes].
    unfold m. rewrite Hsmall by done. rewrite !drop_length_take, Nat.mul_1_l.
    split_and!; [lia|done..].
  - destruct (IH ln' cn' ret'
                (advance s0 (length (take (buf_size g) (s_bytes s0))))
                (advance s1 (length (take (buf_size g) (s_bytes s1))))
                B0 B1 pd ps (out ++ o) (err ++ e) (S (S rd)))
      as (st & w' & Hloop & Hrd & Hbytes0 & Hbytes1); [done|done|lia|lia| |].
    { cbn [advance s_bytes]. rewrite drop_length_take, length_drop.
      pose proof (scanned_le g (s_bytes s0) (s_bytes s1)). lia. }
    cbn [advance s_bytes] in Hrd, Hbytes0, Hbytes1.
    rewrite !drop_length_take in Hrd, Hbytes0, Hbytes1.
    exists st, w'. split; [done|].
    assert (m = S (scanned g (drop (buf_size g) (s_bytes s0))
                     (drop (buf_size g) (s_bytes s1)) `div` buf_size g + 1)) as ->.
    { unfold m. rewrite Hsc.
      replace (buf_size g + scanned g (drop (buf_size g) (s_bytes s0))
                                      (drop (buf_size g) (s_bytes s1)))%nat
        with (scanned g (drop (buf_size g) (s_bytes s0))
                        (drop (buf_size g) (s_bytes s1)) + 1 * buf_size g)%nat by lia.
      rewrite Nat.div_add by lia. lia. }
    rewrite Hrd, Hbytes0, Hbytes1, !drop_drop.
    split_and!; [lia|f_equal; lia..].
  - eexists _, _. split; [done|].
    cbn [w_console c_reads file_desc sel fst snd advance s_bytes].
    unfold m. rewrite Hsmall by done. rewrite !drop_length_take, Nat.mul_1_l.
    split_and!; [lia|done..].
Qed.

(** X15.  Without an ignored prefix, [cmp] reads both inputs block by
    block up to and including the block that holds the first difference (in
    all-differences mode: the end of the shorter input), and no further:
    it makes two reads per block, and the bytes of the later blocks are
    left unread. *)
Theorem reads_stop_at_difference W big_endian ISPRINT g (w : world) :
  (0 < W)%nat → (0 < buf_size g)%nat → ignore_initial g = 0 →
  buffers_ok W g w → reads_ok 0 w → reads_ok 1 w →
  let a := s_bytes (sel 0 (file_desc w)) in
  let b := s_bytes (sel 1 (file_desc w)) in
  let blocks := (scanned g a b `div` buf_size g + 1)%nat in
  ∃ status w',
    cmp W big_endian ISPRINT g w = Ret status w'
    ∧ c_reads (w_console w') = (c_reads (w_console w) + 2 * blocks)%nat
    ∧ s_bytes (sel 0 (file_desc w')) = drop (blocks * buf_size g) a
    ∧ s_bytes (sel 1 (file_desc w')) = drop (blocks * buf_size g) b.
Proof.
  intros HW Hbs Hig [Hb0 Hb1] [Hs0 _] [Hs1 _] a b blocks.
  destruct w as [[s0 s1] [b0 b1] pd ps [out err rd]].
  cbn [file_desc buffer w_console sel fst snd c_reads] in *.
  unfold cmp. rewrite decide_False by lia. rewrite bind_mret.
  rewrite (bind_ret_eq _ _ _ _ _ (eq_refl : get _ = Ret _ _)).
  cbn [file_desc sel fst].
  apply (cmp_loop_reads W big_endian ISPRINT g HW Hbs); [done..|lia].
Qed.

(** ** Options and operands *)

Lemma parse_options_app (e : env) (pre rest : list getopt_result) (g : globals)
    (k : console) :
  Forall option_passes pre →
  ∃ g',
    parse_options e (pre ++ rest) g k = parse_options e rest g' k
    ∧ file g' = file g ∧ buf_size g' = buf_size g
    ∧ comparison_type g' = last_mode pre (comparison_type g)
    ∧ (0 ≤ ignore_initial g → 0 ≤ ignore_initial g').
Proof.
  intros Hok. revert g. induction Hok as [|c pre Hc Hok IH]; intros g; [by exists g|].
  destruct c; try done; cbn [app parse_options last_mode].
  - destruct (IH (set_opt_print_bytes true g)) as (g' & ? & ? & ? & ? & ?). by exists g'.
  - destruct (IH (set_opt_print_bytes true g)) as (g' & ? & ? & ? & ? & ?). by exists g'.
  - destruct Hc as (? & ? & ->).
    rewrite decide_False by (intros [?|[?|?]]; [lia|done..]).
    destruct (IH (set_ignore_initial (to_off_t val) g)) as (g' & ? & ? & ? & ? & Hig).
    exists g'. split_and!; [done..|]. intros _. by apply Hig.
  - destruct (IH (set_comparison_type type_all_diffs g)) as (g' & ? & ? & ? & ? & ?).
    by exists g'.
  - destruct (IH (set_comparison_type type_status g)) as (g' & ? & ? & ? & ? & ?).
    by exists g'.
Qed.

Lemma parse_options_passes (e : env) (opts : list getopt_result) (g : globals)
    (k : console) :
  Forall option_passes opts →
  ∃ g',
    parse_options e opts g k = Ret g' k
    ∧ file g' = file g ∧ buf_size g' = buf_size g
    ∧ comparison_type g' = last_mode opts (comparison_type g)
    ∧ (0 ≤ ignore_initial g → 0 ≤ ignore_initial g').
Proof.
  intros Hok. destruct (parse_options_app e opts [] g k Hok) as (g' & H & ?).
  rewrite app_nil_r in H. by exists g'.
Qed.

(** X16.  The first option that is [-v], [--help] or not recognised ends
    the run before any operand is looked at: [-v] prints the version and
    exits with status 0; [--help] prints the usage and exits with status 0
    unless standard output has failed, which gives status 2; an option
    that is not recognised gives the hint at [--help] and status 2. *)
Theorem options_that_end_the_run W big_endian ISPRINT (e : env) (i : invocation)
    (pre post : list getopt_result) :
  Forall option_passes pre →
  (options i = pre ++ Opt_v :: post →
   main W big_endian ISPRINT e i = Exit 0 (Console [Version_text] [] 0))
  ∧ (options i = pre ++ Opt_help :: post →
     main W big_endian ISPRINT e i
     = if stdout_ferror e then Exit 2 (Console [Usage_text] [Error_write_failed] 0)
       else if stdout_fclose_ok e then Exit 0 (Console [Usage_text] [] 0)
            else Exit 2 (Console [Usage_text] [Error_standard_output] 0))
  ∧ (options i = pre ++ Opt_invalid :: post →
     main W big_endian ISPRINT e i = Exit 2 (Console [] [Try_help] 0)).
Proof.
  intros Hpre. split_and!; intros Hopts; unfold main, startup; rewrite Hopts.
  - destruct (parse_options_app e pre (Opt_v :: post) initial_globals
                (Console [] [] 0) Hpre) as (g' & Hp & _).
    by rewrite (bind_exit_eq _ _ _ (Console [Version_text] [] 0) 0)
      by (by rewrite Hp).
  - destruct (parse_options_app e pre (Opt_help :: post) initial_globals
                (Console [] [] 0) Hpre) as (g' & Hp & _).
    assert (∃ c k, parse_options e (Opt_help :: post) g' (Console [] [] 0) = Exit c k
                   ∧ (if stdout_ferror e
                      then Exit 2 (Console [Usage_text] [Error_write_failed] 0)
                      else if stdout_fclose_ok e
                           then Exit 0 (Console [Usage_text] [] 0)
                           else Exit 2 (Console [Usage_text] [Error_standard_output] 0))
                     = (Exit c k : outcome console unit)) as (c & k & Hh & ->).
    { cbn [parse_options]. unfold check_stdout.
      destruct (stdout_ferror e), (stdout_fclose_ok e); by eexists _, _. }
    by rewrite (bind_exit_eq _ _ _ k c) by (by rewrite Hp).
  - destruct (parse_options_app e pre (Opt_invalid :: post) initial_globals
                (Console [] [] 0) Hpre) as (g' & Hp & _).
    by rewrite (bind_exit_eq _ _ _ (Console [] [Try_help] 0) 2)
      by (by rewrite Hp).
Qed.

(** X17.  Without an operand the run ends with status 2, after a
    diagnostic that names the last argument and the hint at [--help];
    nothing is opened. *)
Theorem missing_operand W big_endian ISPRINT (e : env) (i : invocation)
    (last_arg : string) :
  Forall option_passes (options i) →
  optind i = length (argv i) →
  argv i !! (length (argv i) - 1)%nat = Some last_arg →
  main W big_endian ISPRINT e i
  = Exit 2 (Console [] [Usage_reason "missing operand after `%s'" last_arg; Try_help] 0).
Proof.
  intros Hopts Hind Hlast. unfold main, startup.
  destruct (parse_options_passes e (options i) initial_globals (Console [] [] 0) Hopts)
    as (g & Hp & _).
  rewrite (bind_ret_eq _ _ _ _ _ Hp).
  by rewrite (bind_exit_eq _ _ _
                (Console [] [Usage_reason "missing operand after `%s'" last_arg;
                             Try_help] 0) 2)
    by (unfold parse_operands; rewrite decide_True by done; by rewrite Hlast).
Qed.

(** X18.  With more than two operands the run ends with status 2, after
    a diagnostic that names the third operand and the hint at [--help];
    nothing is opened. *)
Theorem extra_operand W big_endian ISPRINT (e : env) (i : invocation)
    (extra : string) :
  Forall option_passes (options i) →
  argv i !! (optind i + 2)%nat = Some extra →
  main W big_endian ISPRINT e i
  = Exit 2 (Console [] [Usage_reason "extra operand `%s'" extra; Try_help] 0).
Proof.
  intros Hopts Hextra. unfold main, startup.
  destruct (parse_options_passes e (options i) initial_globals (Console [] [] 0) Hopts)
    as (g & Hp & _).
  rewrite (bind_ret_eq _ _ _ _ _ Hp).
  apply lookup_lt_Some in Hextra as Hlen.
  destruct (lookup_lt_is_Some_2 (argv i) (optind i)) as [file0 H0]; [lia|].
  destruct (lookup_lt_is_Some_2 (argv i) (S (optind i))) as [file1 H1]; [lia|].
  replace (optind i + 2)%nat with (S (S (optind i))) in Hextra by lia.
  by rewrite (bind_exit_eq _ _ _
                (Console [] [Usage_reason "extra operand `%s'" extra; Try_help] 0) 2)
    by (unfold parse_operands; rewrite decide_False by lia; rewrite H0; run;
        rewrite decide_True by lia; rewrite H1; run;
        rewrite decide_True by lia; by rewrite Hextra).
Qed.

Lemma parse_operands_two (i : invocation) (g : globals) (k : console)
    (file0 file1 : string) :
  argv i !! optind i = Some file0 →
  argv i !! S (optind i) = Some file1 →
  length (argv i) = S (S (optind i)) →
  parse_operands i g k = Ret (set_file (file0, file1) g) k.
Proof.
  intros H0 H1 Hlen. unfold parse_operands.
  rewrite decide_False by lia. rewrite H0. run.
  rewrite decide_True by lia. rewrite H1. run.
  by rewrite decide_False by lia.
Qed.

Lemma parse_operands_one (i : invocation) (g : globals) (k : console)
    (file0 : string) :
  argv i !! optind i = Some file0 →
  length (argv i) = S (optind i) →
  parse_operands i g k = Ret (set_file (file0, "-"%string) g) k.
Proof.
  intros H0 Hlen. unfold parse_operands.
  rewrite decide_False by lia. rewrite H0. run.
  rewrite decide_False by lia. run.
  by rewrite decide_False by lia.
Qed.

(** X19.  A single operand is compared with standard input: the run is
    the same as with [-] given as the second operand. *)
Theorem single_operand_is_stdin W big_endian ISPRINT (e : env) (i : invocation) :
  length (argv i) = S (optind i) →
  main W big_endian ISPRINT e i
  = main W big_endian ISPRINT e
      (Invocation (argv i ++ ["-"%string]) (optind i) (options i)).
Proof.
  intros Hlen.
  destruct (lookup_lt_is_Some_2 (argv i) (optind i)) as [file0 H0]; [lia|].
  assert (∀ g k, parse_operands (Invocation (argv i ++ ["-"%string]) (optind i)
                                  (options i)) g k
                 = Ret (set_file (file0, "-"%string) g) k) as Hops.
  { intros g k. apply parse_operands_two; cbn [argv optind].
    - by rewrite lookup_app_l by lia.
    - rewrite lookup_app_r by lia. by replace (S (optind i) - length (argv i))%nat
        with 0%nat by lia.
    - rewrite length_app. simpl. lia. }
  unfold main, startup. cbn [options].
  destruct (parse_options e (options i) initial_globals (Console [] [] 0))
    as [g k|c k|] eqn:Hp; [|by rewrite !(bind_exit_eq _ _ _ _ _ Hp)|].
  - rewrite !(bind_ret_eq _ _ _ _ _ Hp).
    by rewrite (bind_ret_eq _ _ _ _ _ (parse_operands_one i g k file0 H0 Hlen)),
      (bind_ret_eq _ _ _ _ _ (Hops g k)).
  - unfold mbind, prog_bind. by rewrite Hp.
Qed.

(** X20.  Two operands with the same name are identical: once the file
    has been opened and examined, the run ends with status 0, without a read
    and without output. *)
Theorem same_name_exit W big_endian ISPRINT (e : env) (i : invocation)
    (name : string) (fi : file_info) :
  Forall option_passes (options i) →
  argv i !! optind i = Some name →
  argv i !! S (optind i) = Some name →
  length (argv i) = S (S (optind i)) →
  open_file e name = Some fi → fi_stat_ok fi = true →
  main W big_endian ISPRINT e i = Exit 0 (Console [] [] 0).
Proof.
  intros Hopts H0 H1 Hlen Hopen Hstat. unfold main, startup.
  destruct (parse_options_passes e (options i) initial_globals (Console [] [] 0) Hopts)
    as (g & Hp & _).
  rewrite (bind_ret_eq _ _ _ _ _ Hp).
  rewrite (bind_ret_eq _ _ _ _ _ (parse_operands_two i g _ name name H0 H1 Hlen)).
  unfold open_operand. cbn [file set_file sel fst snd].
  rewrite (decide_False (P := 0%nat ≠ 0%nat ∧ _)) by (by intros [? _]).
  assert (sel (Nat.lxor 0 (if decide (name = "-"%string) then 1 else 0)) (name, name)
          = name) as -> by (by case_decide).
  rewrite Hopen, Hstat. run.
  by rewrite decide_True by done.
Qed.

(** X21.  Two operands that are the same file with the same attributes,
    at the same file position, are identical: the run ends with status 0,
    without a read and without output. *)
Theorem same_inode_exit W big_endian ISPRINT (e : env) (i : invocation)
    (g : globals) (st : file_info * file_info) (k : console) :
  invocation_ok i →
  startup e i (Console [] [] 0) = Ret (g, st) k →
  0 < same_file (sel 0 st) (sel 1 st) →
  same_file_attributes (sel 0 st) (sel 1 st) = true →
  skip_position g (sel 0 st) = skip_position g (sel 1 st) →
  main W big_endian ISPRINT e i = Exit 0 (Console [] [] 0).
Proof.
  intros Hi Hstart Hsame Hattr Hpos.
  assert (k = Console [] [] 0) as -> by (eapply startup_ret; [done| |done]; constructor).
  unfold main. rewrite Hstart. destruct st as [st0 st1].
  cbn [sel fst snd] in *. unfold skip_position, lseek_cur in *.
  unfold compare_files, file_position, lseek_cur. cbn [sel fst snd].
  rewrite (decide_True (P := 0 < same_file st0 st1 ∧ _)) by done.
  destruct (s_seekable (fi_stream st0)) eqn:Hsk0;
    destruct (s_seekable (fi_stream st1)) eqn:Hsk1; cbn [fst] in *;
    run; rewrite ?Hsk0; run; rewrite ?Hsk1; run;
    by rewrite bool_decide_eq_true_2 by done.
Qed.

(** X22.  Once the operands are open, a run with standard output on the
    null device proceeds exactly as a status-only run. *)
Theorem null_device_assumes_status W big_endian ISPRINT (e : env) (g : globals)
    (st : file_info * file_info) (w : world) :
  stdout_is_null e = true →
  compare_files W big_endian ISPRINT e g st w
  = compare_files W big_endian ISPRINT e (set_comparison_type type_status g) st w.
Proof.
  intros Hnull. destruct g as [fl bs ig ct pb].
  unfold compare_files, set_comparison_type. cbn [comparison_type]. rewrite Hnull.
  destruct (decide (ct = type_status)) as [->|Hct].
  - done.
  - rewrite (decide_True (P := ct ≠ type_status ∧ true = true)) by done.
    rewrite (decide_False (P := type_status ≠ type_status ∧ true = true))
      by (by intros [? _]).
    done.
Qed.

(** ** [main] up to the call of [cmp] *)

Lemma file_position_ok g g' st (f : nat) (w : world) :
  ignore_initial g' = ignore_initial g →
  positioned_ok g st 0 w → positioned_ok g st 1 w → (f = 0 ∨ f = 1)%nat →
  ∃ w',
    file_position g' f w = Ret (skip_position g (sel f st)) w'
    ∧ positioned_ok g st 0 w' ∧ positioned_ok g st 1 w'
    ∧ buffer w' = buffer w ∧ w_console w' = w_console w.
Proof.
  intros Hig H0 H1 Hf.
  destruct w as [[s0 s1] bufs [pd0 pd1] [ps0 ps1] k].
  unfold positioned_ok, file_position, skip_position in *. rewrite Hig.
  cbn [sel fst snd positioned position file_desc] in *.
  destruct Hf as [-> | ->]; cbn [sel fst snd].
  - destruct pd0.
    + eexists. split; [by rewrite <-H0|]. done.
    + rewrite H0. destruct (lseek_cur (fi_stream st.1) (ignore_initial g)) as [r s] eqn:E.
      eexists. split; [done|]. by cbn.
  - destruct pd1.
    + eexists. split; [by rewrite <-H1|]. done.
    + rewrite H1. destruct (lseek_cur (fi_stream st.2) (ignore_initial g)) as [r s] eqn:E.
      eexists. split; [done|]. by cbn.
Qed.

Lemma positioned_compared g g' st (f : nat) (w : world) :
  ignore_initial g' = ignore_initial g →
  0 ≤ ignore_initial g → 0 ≤ s_pos (fi_stream (sel f st)) →
  positioned_ok g st f w →
  compared g' f w = drop (Z.to_nat (ignore_initial g)) (s_bytes (fi_stream (sel f st)))
  ∧ s_fail (sel f (file_desc w)) = s_fail (fi_stream (sel f st))
  ∧ 0 ≤ s_pos (sel f (file_desc w)).
Proof.
  intros Hig' Hig Hpos. unfold positioned_ok, compared. rewrite Hig'.
  destruct (sel f (positioned w)).
  - unfold lseek_cur. destruct (s_seekable (fi_stream (sel f st))); intros [= -> ->].
    + rewrite decide_True by (split; [done|lia]). cbn. split_and!; [done..|lia].
    + by rewrite decide_False by (by intros [_ ?]).
  - intros ->. by rewrite decide_False by (by intros [? _]).
Qed.

Lemma assumed_mode_ignore_initial (e : env) (g : globals) :
  ignore_initial (assumed_mode e g) = ignore_initial g.
Proof. unfold assumed_mode. by case_decide. Qed.

Lemma compare_files_cmp W big_endian ISPRINT (e : env) (g : globals)
    (st : file_info * file_info) bufs ps (k : console) :
  (0 < W)%nat →
  ¬ same_open_file g st →
  let w0 := World (fi_stream (sel 0 st), fi_stream (sel 1 st)) bufs (false, false) ps k in
  ∃ w1,
    w_console w1 = k
    ∧ ((sizes_differ e g st
        ∧ compare_files W big_endian ISPRINT e g st w0 = Exit 1 w1)
       ∨ (¬ sizes_differ e g st
          ∧ positioned_ok g st 0 w1 ∧ positioned_ok g st 1 w1
          ∧ buffers_ok W (cmp_globals e g st) w1
          ∧ compare_files W big_endian ISPRINT e g st w0
            = wrap_up W big_endian ISPRINT e (cmp_globals e g st) st w1)).
Proof.
  intros HW Hsame w0.
  assert (positioned_ok g st 0 w0 ∧ positioned_ok g st 1 w0) as [I0 I1] by done.
  assert (∃ wA,
            (if decide (0 < same_file (sel 0 st) (sel 1 st)
                        ∧ same_file_attributes (sel 0 st) (sel 1 st) = true)
             then p0 ← file_position g 0; p1 ← file_position g 1;
                  mret (bool_decide (p0 = p1))
             else mret false) w0 = Ret false wA
            ∧ positioned_ok g st 0 wA ∧ positioned_ok g st 1 wA
            ∧ w_console wA = k) as (wA & HA & IA0 & IA1 & HkA).
  { case_decide as Hd; [|by exists w0].
    destruct (file_position_ok g g st 0 w0) as (wa & Ha & Ia0 & Ia1 & _ & Hka);
      [done|done|done|by left|].
    destruct (file_position_ok g g st 1 wa) as (wb & Hb & Ib0 & Ib1 & _ & Hkb);
      [done|done|done|by right|].
    exists wb. rewrite (bind_ret_eq _ _ _ _ _ Ha), (bind_ret_eq _ _ _ _ _ Hb).
    split_and!; [|done..|by rewrite Hkb, Hka].
    unfold mret, prog_ret. rewrite bool_decide_eq_false_2; [done|].
    intros Hp. apply Hsame. unfold same_open_file. tauto. }
  unfold compare_files. rewrite (bind_ret_eq _ _ _ _ _ HA). cbv beta iota zeta.
  fold (assumed_mode e g).
  pose proof (assumed_mode_ignore_initial e g) as Hig.
  destruct (decide (comparison_type (assumed_mode e g) = type_status
                    ∧ fi_regular (sel 0 st) = true ∧ fi_regular (sel 1 st) = true))
    as [Hd|Hd].
  - destruct (file_position_ok g (assumed_mode e g) st 0 wA)
      as (wa & Ha & Ia0 & Ia1 & _ & Hka); [done|done|done|by left|].
    destruct (file_position_ok g (assumed_mode e g) st 1 wa)
      as (wb & Hb & Ib0 & Ib1 & _ & Hkb); [done|done|done|by right|].
    destruct (decide (Z.max 0 (fi_size (sel 0 st) - skip_position g (sel 0 st))
                      ≠ Z.max 0 (fi_size (sel 1 st) - skip_position g (sel 1 st))))
      as [Hne|Heq].
    + exists wb. split; [by rewrite Hkb, Hka|]. left.
      split; [unfold sizes_differ; tauto|].
      apply bind_exit_eq.
      rewrite (bind_ret_eq _ _ _ _ _ Ha), (bind_ret_eq _ _ _ _ _ Hb).
      by rewrite decide_True by done.
    + eexists. split; [|right; split; [unfold sizes_differ; tauto|]].
      2:{ split_and!; [| | |].
          4:{ erewrite bind_ret_eq; [|
                rewrite (bind_ret_eq _ _ _ _ _ Ha), (bind_ret_eq _ _ _ _ _ Hb);
                by rewrite decide_False by done].
              unfold mret, prog_ret.
              rewrite (bind_ret_eq _ _ _ _ _ (eq_refl : modify _ _ = Ret tt _)).
              rewrite (bind_ret_eq _ _ _ _ _ (eq_refl : modify _ _ = Ret tt _)).
              reflexivity. }
          - by destruct wb as [[??] [??] [??] [??] ?].
          - by destruct wb as [[??] [??] [??] [??] ?].
          - split; cbn; by rewrite length_fmap, length_seq. }
      cbn. by rewrite Hkb, Hka.
  - eexists. split; [|right; split; [unfold sizes_differ; tauto|]].
    2:{ split_and!; [| | |].
        4:{ rewrite bind_mret.
            rewrite (bind_ret_eq _ _ _ _ _ (eq_refl : modify _ _ = Ret tt _)).
            rewrite (bind_ret_eq _ _ _ _ _ (eq_refl : modify _ _ = Ret tt _)).
            reflexivity. }
        - by destruct wA as [[??] [??] [??] [??] ?].
        - by destruct wA as [[??] [??] [??] [??] ?].
        - split; cbn; by rewrite length_fmap, length_seq. }
    cbn. done.
Qed.

(** ** [main] from the call of [cmp] on *)

Lemma bind_ret_inv {S A B} (m : prog S A) (f : A → prog S B) (s s2 : S) (b : B) :
  (m ≫= f) s = Ret b s2 → ∃ a s1, m s = Ret a s1 ∧ f a s1 = Ret b s2.
Proof.
  unfold mbind, prog_bind. destruct (m s) as [a s1| |]; [|done..]. by exists a, s1.
Qed.

Lemma parse_options_ignore_initial (e : env) (opts : list getopt_result)
    (g g' : globals) (k k' : console) :
  0 ≤ ignore_initial g → parse_options e opts g k = Ret g' k' → 0 ≤ ignore_initial g'.
Proof.
  revert g. induction opts as [|c opts IH]; intros g Hig; [by intros [= <- _]|].
  destruct c; cbn [parse_options]; try (by apply IH).
  - case_decide as Hd; [done|]. apply IH. cbn.
    destruct (decide (to_off_t val < 0)); [|lia]. tauto.
  - done.
  - unfold check_stdout. by destruct (stdout_ferror e), (stdout_fclose_ok e).
  - done.
Qed.

Lemma parse_operands_ignore_initial (i : invocation) (g g' : globals) (k k' : console) :
  parse_operands i g k = Ret g' k' → ignore_initial g' = ignore_initial g.
Proof.
  unfold parse_operands. case_decide.
  - by destruct (argv i !! (length (argv i) - 1)%nat).
  - destruct (argv i !! optind i); [|done]. run.
    case_decide; run.
    + destruct (argv i !! S (optind i)); [|done]. run.
      case_decide; [by destruct (argv i !! S (S (optind i)))|]. by intros [= <- _].
    + case_decide; [by destruct (argv i !! S (optind i))|]. by intros [= <- _].
Qed.

Lemma startup_ignore_initial (e : env) (i : invocation) (g : globals)
    (st : file_info * file_info) (k k' : console) :
  startup e i k = Ret (g, st) k' → 0 ≤ ignore_initial g.
Proof.
  unfold startup.
  intros (g0 & k0 & Hp & H)%bind_ret_inv.
  apply bind_ret_inv in H as (g1 & k1 & Ho & H).
  apply bind_ret_inv in H as (o1 & k2 & _ & H).
  apply bind_ret_inv in H as (o2 & k3 & _ & H).
  apply bind_ret_inv in H as (st0 & k4 & _ & H).
  apply bind_ret_inv in H as (st1 & k5 & _ & [= <- _ _]).
  rewrite (parse_operands_ignore_initial _ _ _ _ _ Ho).
  by apply (parse_options_ignore_initial e (options i) initial_globals g0 k k0).
Qed.

Lemma loop_outcome_quiet ISPRINT g ln cn ret (a b : list byte) :
  Forall (λ l, ¬ is_error l) (loop_outcome ISPRINT g ln cn ret a b).2.
Proof.
  assert (Forall (λ l, ¬ is_error l) (eof_lines g a b)) as Heof.
  { unfold eof_lines. case_decide; repeat constructor. by intros ?. }
  unfold loop_outcome.
  destruct (comparison_type g); repeat case_decide; cbn [fst snd]; done || constructor.
Qed.

Lemma main_after_cmp W big_endian ISPRINT (e : env) (i : invocation)
    (g : globals) (st : file_info * file_info) (k : console) :
  (0 < W)%nat → invocation_ok i →
  startup e i (Console [] [] 0) = Ret (g, st) k →
  ¬ same_open_file g st → ¬ sizes_differ e g st →
  plain_input (sel 0 st) → plain_input (sel 1 st) →
  let r := loop_outcome ISPRINT (cmp_globals e g st) 1 (ignore_initial g + 1) 0
             (content g (sel 0 st)) (content g (sel 1 st)) in
  ∃ w',
    quiet (w_console w')
    ∧ c_out (w_console w') = r.1.2 ∧ c_err (w_console w') = r.2
    ∧ main W big_endian ISPRINT e i
      = match finish_main e (cmp_globals e g st) st
                (if decide (content g (sel 0 st) = content g (sel 1 st)) then 0 else 1)
                w' with
        | Ret _ w => Ret tt (w_console w)
        | Exit status w => Exit status (w_console w)
        | Undef => Undef
        end.
Proof.
  intros HW Hi Hstart Hsame Hsizes (Hf0 & Hp0 & _) (Hf1 & Hp1 & _) r.
  assert (k = Console [] [] 0) as -> by (eapply startup_ret; [done| |done]; constructor).
  pose proof (startup_ignore_initial _ _ _ _ _ _ Hstart) as Hig.
  unfold main. rewrite Hstart.
  destruct (compare_files_cmp W big_endian ISPRINT e g st ([], []) (0, 0)
              (Console [] [] 0) HW Hsame) as (w1 & Hk & [[? _]|(_ & I0 & I1 & Hb & ->)]);
    [done|].
  assert (ignore_initial (cmp_globals e g st) = ignore_initial g) as Hig'
    by apply assumed_mode_ignore_initial.
  destruct (positioned_compared g (cmp_globals e g st) st 0 w1) as (Hc0 & Hs0 & Hq0);
    [done..|].
  destruct (positioned_compared g (cmp_globals e g st) st 1 w1) as (Hc1 & Hs1 & Hq1);
    [done..|].
  destruct (cmp_spec W big_endian ISPRINT (cmp_globals e g st) w1)
    as (w' & Hcmp & Hout & Herr);
    [done|apply buffer_lcm_pos|by rewrite Hig'|done|split; congruence|split; congruence|].
  rewrite Hc0, Hc1, Hig' in Hcmp, Hout, Herr. rewrite Hk in Hout, Herr.
  cbn [c_out c_err app] in Hout, Herr.
  fold (content g (sel 0 st)) in Hcmp, Hout, Herr.
  fold (content g (sel 1 st)) in Hcmp, Hout, Herr. fold r in Hcmp, Hout, Herr.
  exists w'. split_and!; [|done..|].
  - unfold quiet. rewrite Herr. apply loop_outcome_quiet.
  - unfold wrap_up. rewrite (bind_ret_eq _ _ _ _ _ Hcmp). unfold r.
    by rewrite loop_status.
Qed.

Lemma main_after_cmp_plain W big_endian ISPRINT (e : env) (i : invocation)
    (g : globals) (st : file_info * file_info) (k : console) :
  (0 < W)%nat → invocation_ok i →
  startup e i (Console [] [] 0) = Ret (g, st) k →
  ¬ same_open_file g st → ¬ sizes_differ e g st →
  s_fail (fi_stream (sel 0 st)) = false → s_fail (fi_stream (sel 1 st)) = false →
  0 ≤ s_pos (fi_stream (sel 0 st)) → 0 ≤ s_pos (fi_stream (sel 1 st)) →
  ∃ w',
    quiet (w_console w')
    ∧ main W big_endian ISPRINT e i
      = match finish_main e (cmp_globals e g st) st
                (if decide (content g (sel 0 st) = content g (sel 1 st)) then 0 else 1)
                w' with
        | Ret _ w => Ret tt (w_console w)
        | Exit status w => Exit status (w_console w)
        | Undef => Undef
        end.
Proof.
  intros HW Hi Hstart Hsame Hsizes Hf0 Hf1 Hp0 Hp1.
  assert (k = Console [] [] 0) as -> by (eapply startup_ret; [done| |done]; constructor).
  pose proof (startup_ignore_initial _ _ _ _ _ _ Hstart) as Hig.
  unfold main. rewrite Hstart.
  destruct (compare_files_cmp W big_endian ISPRINT e g st ([], []) (0, 0)
              (Console [] [] 0) HW Hsame) as (w1 & Hk & [[? _]|(_ & I0 & I1 & Hb & ->)]);
    [done|].
  assert (ignore_initial (cmp_globals e g st) = ignore_initial g) as Hig'
    by apply assumed_mode_ignore_initial.
  destruct (positioned_compared g (cmp_globals e g st) st 0 w1) as (Hc0 & Hs0 & Hq0);
    [done..|].
  destruct (positioned_compared g (cmp_globals e g st) st 1 w1) as (Hc1 & Hs1 & Hq1);
    [done..|].
  destruct (cmp_spec W big_endian ISPRINT (cmp_globals e g st) w1)
    as (w' & Hcmp & Hout & Herr);
    [done|apply buffer_lcm_pos|by rewrite Hig'|done|split; congruence|split; congruence|].
  rewrite Hc0, Hc1, Hig' in Hcmp, Herr. rewrite Hk in Herr.
  cbn [c_err app] in Herr.
  exists w'. split.
  - unfold quiet. rewrite Herr. apply loop_outcome_quiet.
  - unfold wrap_up. rewrite (bind_ret_eq _ _ _ _ _ Hcmp).
    by rewrite loop_status.
Qed.

Lemma main_status W big_endian ISPRINT (e : env) (i : invocation)
    (g : globals) (st : file_info * file_info) (k : console) :
  (0 < W)%nat → invocation_ok i →
  startup e i (Console [] [] 0) = Ret (g, st) k →
  ¬ same_open_file g st →
  s_fail (fi_stream (sel 0 st)) = false → s_fail (fi_stream (sel 1 st)) = false →
  0 ≤ s_pos (fi_stream (sel 0 st)) → 0 ≤ s_pos (fi_stream (sel 1 st)) →
  fi_close_ok (sel 0 st) = true → fi_close_ok (sel 1 st) = true →
  stdout_ferror e = false → stdout_fclose_ok e = true →
  ∃ k',
    main W big_endian ISPRINT e i
    = Exit (if decide (sizes_differ e g st) then 1
            else if decide (content g (sel 0 st) = content g (sel 1 st)) then 0 else 1) k'
    ∧ quiet k'.
Proof.
  intros HW Hi Hstart Hsame Hf0 Hf1 Hp0 Hp1 Hcl0 Hcl1 Hferr Hfcl.
  destruct (decide (sizes_differ e g st)) as [Hsz|Hsz].
  - assert (k = Console [] [] 0) as -> by (eapply startup_ret; [done| |done]; constructor).
    unfold main. rewrite Hstart.
    destruct (compare_files_cmp W big_endian ISPRINT e g st ([], []) (0, 0)
                (Console [] [] 0) HW Hsame) as (w1 & Hk & [[_ ->]|[? _]]); [|done].
    exists (w_console w1). split; [done|]. rewrite Hk. constructor.
  - destruct (main_after_cmp_plain W big_endian ISPRINT e i g st k)
      as (w' & Hq & ->); [done..|].
    unfold finish_main, close_operand, check_stdout. rewrite Hcl0, Hcl1, Hferr, Hfcl.
    repeat case_decide; run; eexists; (split; [done|]); done.
Qed.

Lemma sizes_differ_contents (e : env) (g : globals) (st : file_info * file_info) :
  0 ≤ ignore_initial g →
  (∀ f, (f = 0 ∨ f = 1)%nat → fi_regular (sel f st) = true →
        s_seekable (fi_stream (sel f st)) = true
        ∧ fi_size (sel f st)
          = s_pos (fi_stream (sel f st))
            + Z.of_nat (length (s_bytes (fi_stream (sel f st))))) →
  sizes_differ e g st → content g (sel 0 st) ≠ content g (sel 1 st).
Proof.
  intros Hig Hsized (_ & Hreg0 & Hreg1 & Hne) Heq.
  destruct (Hsized 0%nat (or_introl eq_refl) Hreg0) as [Hsk0 Hsz0].
  destruct (Hsized 1%nat (or_intror eq_refl) Hreg1) as [Hsk1 Hsz1].
  apply (f_equal length) in Heq. unfold content in Heq. rewrite !length_drop in Heq.
  unfold skip_position, lseek_cur in Hne. rewrite Hsk0, Hsk1 in Hne. cbn [fst] in Hne.
  lia.
Qed.

(** X23.  For two inputs that can be read to their ends and closed, that
    are not one file at one position, and with standard output in order,
    [main] reports no error, and its exit status is 1 when the size
    shortcut applies (status-only mode, two regular files, and different
    sizes less the value of [file_position], clamped at 0); otherwise it is
    0 when the contents after the ignored prefix are equal, and 1 when they
    differ.  When the [lseek] of [file_position] succeeds on the regular
    files among the inputs, and their sizes are those of their contents,
    the shortcut applies to different contents only, and the status is 0
    exactly for equal contents; when that [lseek] fails, the shortcut can
    give status 1 for inputs whose contents after the prefix are equal. *)
Theorem main_decides_equality W big_endian ISPRINT (e : env) (i : invocation)
    (g : globals) (st : file_info * file_info) (k : console) :
  (0 < W)%nat → invocation_ok i →
  startup e i (Console [] [] 0) = Ret (g, st) k →
  ¬ same_open_file g st →
  s_fail (fi_stream (sel 0 st)) = false → s_fail (fi_stream (sel 1 st)) = false →
  0 ≤ s_pos (fi_stream (sel 0 st)) → 0 ≤ s_pos (fi_stream (sel 1 st)) →
  fi_close_ok (sel 0 st) = true → fi_close_ok (sel 1 st) = true →
  stdout_ferror e = false → stdout_fclose_ok e = true →
  let by_content :=
    if decide (content g (sel 0 st) = content g (sel 1 st)) then 0 else 1 in
  let status := if decide (sizes_differ e g st) then 1 else by_content in
  ∃ k',
    main W big_endian ISPRINT e i = Exit status k'
    ∧ quiet k'
    ∧ ((∀ f, (f = 0 ∨ f = 1)%nat → fi_regular (sel f st) = true →
             s_seekable (fi_stream (sel f st)) = true
             ∧ fi_size (sel f st)
               = s_pos (fi_stream (sel f st))
                 + Z.of_nat (length (s_bytes (fi_stream (sel f st))))) →
       status = by_content).
Proof.
  intros HW Hi Hstart Hsame Hf0 Hf1 Hp0 Hp1 Hcl0 Hcl1 Hferr Hfcl by_content status.
  destruct (main_status W big_endian ISPRINT e i g st k) as (k' & Hmain & Hq); [done..|].
  exists k'. split; [done|]. split; [done|].
  intros Hsized. unfold status, by_content.
  destruct (decide (sizes_differ e g st)) as [Hsz|Hsz]; [|done].
  rewrite decide_False; [done|].
  apply (sizes_differ_contents e); [|done..].
  by apply (startup_ignore_initial _ _ _ _ _ _ Hstart).
Qed.

(** ** The exit status *)










Lemma cmp_globals_facts (e : env) (g : globals) (st : file_info * file_info) :
  file (cmp_globals e g st) = file g
  ∧ comparison_type (cmp_globals e g st) = comparison_type (assumed_mode e g).
Proof. unfold cmp_globals, assumed_mode. by case_decide. Qed.

(** X24.  When [close] fails on an operand after the comparison, the
    run ends with status 2 whatever the comparison has found, and the last
    diagnostic names the first operand whose [close] failed. *)
Theorem close_failure_exit W big_endian ISPRINT (e : env) (i : invocation)
    (g : globals) (st : file_info * file_info) (k : console) :
  (0 < W)%nat → invocation_ok i →
  startup e i (Console [] [] 0) = Ret (g, st) k →
  ¬ same_open_file g st → ¬ sizes_differ e g st →
  plain_input (sel 0 st) → plain_input (sel 1 st) →
  fi_close_ok (sel 0 st) = false ∨ fi_close_ok (sel 1 st) = false →
  ∃ k' err,
    main W big_endian ISPRINT e i = Exit 2 k'
    ∧ c_err k'
      = err ++ [Error_file (sel (if fi_close_ok (sel 0 st) then 1 else 0)%nat (file g))].
Proof.
  intros HW Hi Hstart Hsame Hsz Hin0 Hin1 Hcl.
  destruct (main_after_cmp W big_endian ISPRINT e i g st k)
    as (w' & Hq & _ & _ & ->); [done..|].
  destruct (cmp_globals_facts e g st) as [Hfile _].
  unfold finish_main, close_operand. rewrite Hfile.
  destruct (fi_close_ok (sel 0 st)); [|run; by eexists _, _].
  destruct Hcl as [?|Hcl1]; [done|]. rewrite Hcl1. run. by eexists _, _.
Qed.

(** X25.  Outside status-only mode a failed write to standard output
    turns status 1 into status 2 with the diagnostic [write failed]; when the
    contents are equal standard output is not examined, and the status is
    0. *)
Theorem write_failure_exit W big_endian ISPRINT (e : env) (i : invocation)
    (g : globals) (st : file_info * file_info) (k : console) :
  (0 < W)%nat → invocation_ok i →
  startup e i (Console [] [] 0) = Ret (g, st) k →
  ¬ same_open_file g st →
  plain_input (sel 0 st) → plain_input (sel 1 st) →
  fi_close_ok (sel 0 st) = true → fi_close_ok (sel 1 st) = true →
  comparison_type g ≠ type_status → stdout_is_null e = false →
  stdout_ferror e = true →
  ∃ k',
    main W big_endian ISPRINT e i
    = Exit (if decide (content g (sel 0 st) = content g (sel 1 st)) then 0 else 2) k'
    ∧ (content g (sel 0 st) = content g (sel 1 st) → quiet k')
    ∧ (content g (sel 0 st) ≠ content g (sel 1 st) →
       ∃ err, c_err k' = err ++ [Error_write_failed]).
Proof.
  intros HW Hi Hstart Hsame Hin0 Hin1 Hcl0 Hcl1 Hty Hnull Hferr.
  assert (assumed_mode e g = g) as Hmode.
  { unfold assumed_mode. rewrite Hnull. by rewrite decide_False by (by intros [_ ?]). }
  destruct (main_after_cmp W big_endian ISPRINT e i g st k)
    as (w' & Hq & _ & _ & ->); [done|done|done|done| |done|done|].
  { intros (Hst & _). by rewrite Hmode in Hst. }
  destruct (cmp_globals_facts e g st) as [_ Hct]. rewrite Hmode in Hct.
  unfold finish_main, close_operand, check_stdout. rewrite Hcl0, Hcl1, Hferr, Hct.
  destruct (decide (content g (sel 0 st) = content g (sel 1 st))) as [Heq|Hne].
  - rewrite decide_False by (by intros [? _]). run.
    eexists. split; [done|]. split; [done|]. by intros ?.
  - rewrite decide_True by done. run.
    eexists. split; [done|]. split; [done|]. intros _. by eexists.
Qed.

(** X26.  [main] in first-difference mode, for two inputs that can be
    read and closed and whose contents after the ignored prefix first
    differ at offset [n]: status 1, and on standard output the one report
    with character number [n + ignore_initial + 1] and line number 1 plus
    the newlines before the difference; nothing on standard error. *)
Theorem main_first_difference_report W big_endian ISPRINT (e : env) (i : invocation)
    (g : globals) (st : file_info * file_info) (k : console) (n : nat) (x y : byte) :
  (0 < W)%nat → invocation_ok i →
  startup e i (Console [] [] 0) = Ret (g, st) k →
  ¬ same_open_file g st →
  plain_input (sel 0 st) → plain_input (sel 1 st) →
  fi_close_ok (sel 0 st) = true → fi_close_ok (sel 1 st) = true →
  stdout_ferror e = false → stdout_fclose_ok e = true →
  comparison_type g = type_first_diff → stdout_is_null e = false →
  take n (content g (sel 0 st)) = take n (content g (sel 1 st)) →
  content g (sel 0 st) !! n = Some x → content g (sel 1 st) !! n = Some y → x ≠ y →
  ∃ k',
    main W big_endian ISPRINT e i = Exit 1 k'
    ∧ c_out k' = [differ_line ISPRINT g (Z.of_nat n + ignore_initial g + 1)
                    (1 + count_nl (take n (content g (sel 0 st)))) x y]
    ∧ c_err k' = [].
Proof.
  intros HW Hi Hstart Hsame Hin0 Hin1 Hcl0 Hcl1 Hferr Hfcl Hty Hnull Hpre Hx Hy Hxy.
  assert (assumed_mode e g = g) as Hmode.
  { unfold assumed_mode. rewrite Hnull. by rewrite decide_False by (by intros [_ ?]). }
  destruct (main_after_cmp W big_endian ISPRINT e i g st k)
    as (w' & Hq & Hout & Herr & ->); [done|done|done|done| |done|done|].
  { intros (Hst & _). rewrite Hmode in Hst. congruence. }
  assert (content g (sel 0 st) ≠ content g (sel 1 st)) as Hne by congruence.
  assert (lcp (content g (sel 0 st)) (content g (sel 1 st)) = n) as Hn.
  { apply lcp_unique; [done|..].
    - apply lookup_lt_Some in Hx. lia.
    - apply lookup_lt_Some in Hy. lia.
    - left. rewrite Hx, Hy. by intros [= ?]. }
  apply lookup_lt_Some in Hx as Hx'. apply lookup_lt_Some in Hy as Hy'.
  unfold loop_outcome in Hout, Herr. unfold cmp_globals in Hout, Herr.
  rewrite Hmode in Hout, Herr. cbn [comparison_type set_buf_size] in Hout, Herr.
  rewrite Hty, Hn in Hout, Herr. rewrite decide_True in Hout, Herr by lia.
  rewrite Hx, Hy in Hout. cbn [fst snd default] in Hout, Herr.
  rewrite decide_False by done.
  destruct (cmp_globals_facts e g st) as [_ Hct]. rewrite Hmode, Hty in Hct.
  unfold finish_main, close_operand, check_stdout. rewrite Hcl0, Hcl1, Hferr, Hfcl, Hct.
  rewrite decide_True by done. run.
  eexists. split; [done|]. cbn [c_out c_err]. rewrite Hout, Herr. split; [|done].
  f_equal. unfold differ_line, set_buf_size, id. cbn [opt_print_bytes file sel fst snd].
  destruct (opt_print_bytes g); f_equal; lia.
Qed.

(** X27.  When an operand can be opened but not examined by [fstat], the
    run ends with status 2 after a diagnostic that names it, in every mode:
    status-only silences a failing [open] only. *)
Theorem fstat_failure_reported W big_endian ISPRINT (e : env) (i : invocation)
    (file0 file1 : string) (fi0 fi1 : file_info) :
  Forall option_passes (options i) →
  argv i !! optind i = Some file0 →
  argv i !! S (optind i) = Some file1 →
  length (argv i) = S (S (optind i)) →
  open_file e file0 = Some fi0 → open_file e file1 = Some fi1 →
  fi_stat_ok fi0 = false ∨ fi_stat_ok fi1 = false →
  ∃ name,
    main W big_endian ISPRINT e i = Exit 2 (Console [] [Error_file name] 0)
    ∧ ((name = file0 ∧ fi_stat_ok fi0 = false)
       ∨ (name = file1 ∧ fi_stat_ok fi1 = false)).
Proof.
  intros Hopts H0 H1 Hlen Hopen0 Hopen1 Hstat. unfold main, startup.
  destruct (parse_options_passes e (options i) initial_globals (Console [] [] 0) Hopts)
    as (g & Hp & _).
  rewrite (bind_ret_eq _ _ _ _ _ Hp).
  rewrite (bind_ret_eq _ _ _ _ _ (parse_operands_two i g _ file0 file1 H0 H1 Hlen)).
  unfold open_operand. cbn [file set_file sel fst snd comparison_type].
  rewrite (decide_False (P := 0%nat ≠ 0%nat ∧ _)) by (by intros [? _]).
  destruct (decide (file1 = "-"%string)) as [Hd|Hd].
  - change (Nat.lxor 0 1) with 1%nat. change (Nat.lxor 1 1) with 0%nat.
    cbn [sel fst snd]. rewrite Hopen1. destruct (fi_stat_ok fi1) eqn:Hs1; run.
    + destruct Hstat as [Hs0|?]; [|done].
      destruct (decide (file0 = file1)) as [Heq|Hne].
      { rewrite Heq, Hopen1 in Hopen0. injection Hopen0 as <-. congruence. }
      rewrite decide_False by (by intros [_ ?]).
      rewrite Hopen0, Hs0. run. exists file0. split; [done|]. by left.
    + exists file1. split; [done|]. by right.
  - change (Nat.lxor 0 0) with 0%nat. change (Nat.lxor 1 0) with 1%nat.
    cbn [sel fst snd]. rewrite Hopen0. destruct (fi_stat_ok fi0) eqn:Hs0; run.
    + destruct Hstat as [?|Hs1]; [done|].
      destruct (decide (file0 = file1)) as [Heq|Hne].
      { rewrite Heq, Hopen1 in Hopen0. injection Hopen0 as <-. congruence. }
      rewrite decide_False by (by intros [_ ?]).
      rewrite Hopen1, Hs1. run. exists file1. split; [done|]. by right.
    + exists file0. split; [done|]. by left.
Qed.

(** ** A read error while skipping *)

Lemma discard_loop_read_error g (f : nat) :
  (0 < buf_size g)%nat →
  ∀ (fuel : nat) (ig : Z) fd b0 b1 pd ps out err rd,
    s_fail (sel f fd) = true →
    Z.of_nat (length (s_bytes (sel f fd))) < ig →
    (buf_size g ≤ length b0)%nat →
    (length (s_bytes (sel f fd)) < fuel)%nat →
    ∃ w',
      discard_loop fuel g f ig (World fd (b0, b1) pd ps (Console out err rd))
      = Exit 2 w'
      ∧ c_out (w_console w') = out
      ∧ c_err (w_console w') = err ++ [Error_file (sel f (file g))].
Proof.
  intros Hbs fuel. induction fuel as [|fuel IH];
    intros ig fd b0 b1 pd ps out err rd Hs Hig Hb0 Hfuel; [lia|].
  cbn [discard_loop]. unfold read_buf0, sys_read. run.
  destruct (s_bytes (sel f fd)) as [|c bytes] eqn:Hbytes.
  - rewrite Hs. run. by eexists.
  - set (n := Z.to_nat (Z.min ig (Z.of_nat (buf_size g)))).
    cbn [length] in Hig, Hfuel.
    assert (0 < n)%nat as Hn by (unfold n; lia).
    run. unfold store_bytes.
    rewrite decide_True by (rewrite length_take; simpl in *; lia). run.
    destruct (length (take n (c :: bytes))) as [|r] eqn:Hr.
    { rewrite length_take in Hr. simpl in Hr. lia. }
    assert (S r = Nat.min n (S (length bytes))) as Hr' by (by rewrite <-Hr, length_take).
    rewrite decide_True by lia.
    apply (IH (ig - Z.of_nat (S r))
             (upd f (advance (sel f fd) (Nat.min n (length (c :: bytes)))) fd)).
    + by rewrite sel_upd.
    + rewrite sel_upd. cbn [advance s_bytes]. rewrite Hbytes, length_drop. simpl. lia.
    + rewrite length_app, length_take, length_drop. simpl. lia.
    + rewrite sel_upd. cbn [advance s_bytes]. rewrite Hbytes, length_drop. simpl. lia.
Qed.

(** X28.  When a descriptor that cannot seek fails before the ignored
    initial prefix has been read, the run ends with status 2 after a
    diagnostic that names this input. *)
Theorem skip_read_error g (f : nat) (w : world) :
  (0 < buf_size g)%nat →
  sel f (positioned w) = false →
  s_seekable (sel f (file_desc w)) = false →
  s_fail (sel f (file_desc w)) = true →
  Z.of_nat (length (s_bytes (sel f (file_desc w)))) < ignore_initial g →
  (buf_size g ≤ length (sel 0 (buffer w)))%nat →
  ∃ w',
    skip_initial g f w = Exit 2 w'
    ∧ c_out (w_console w') = c_out (w_console w)
    ∧ c_err (w_console w') = c_err (w_console w) ++ [Error_file (sel f (file g))].
Proof.
  intros Hbs Hpd Hseek Hfail Hlen Hb0.
  destruct w as [fd [b0 b1] pd ps [out err rd]].
  cbn [file_desc buffer positioned position w_console sel fst c_out c_err] in *.
  unfold skip_initial, file_position. run. rewrite Hpd.
  unfold lseek_cur. rewrite Hseek. run.
  rewrite decide_True by done. rewrite upd_sel. cbn [file_desc].
  apply (discard_loop_read_error g f Hbs); [done..|lia].
Qed.

(** ** The further properties on sample runs *)

Lemma sprintc_injective_witness : Byte.x0a = Byte.x0a.
Proof. apply (sprintc_injective isprint_C 4 Byte.x0a Byte.x0a). reflexivity. Defined.

Lemma sprintc_visible_witness :
  32 ≤ byte_val Byte.x4a ≤ 126 ∨ (Byte.x4a = Byte.x0a ∧ isprint_C Byte.x0a = true).
Proof.
  apply (sprintc_visible isprint_C 4 Byte.x0a Byte.x4a).
  change (Byte.x4a ∈ [Byte.x5e; Byte.x4a; Byte.x20; Byte.x20]).
  apply list_elem_of_further, list_elem_of_here.
Defined.

Lemma newline_count_by_xor_witness :
  make_nnnn 4 4 0 = word_of_bytes true (replicate 4 newline)
  ∧ count_zero_bytes 4
      (Z.lxor (word_of_bytes true [Byte.x0a; Byte.x61; Byte.x0a; Byte.x62])
         (make_nnnn 4 4 0)) 5
    = 5 + count_nl [Byte.x0a; Byte.x61; Byte.x0a; Byte.x62].
Proof.
  apply (newline_count_by_xor 4 true [Byte.x0a; Byte.x61; Byte.x0a; Byte.x62] 5).
  reflexivity.
Defined.

Lemma block_compare_first_difference_witness :
  block_compare 4 false (sel 0 (buffer sample_blocks)) (sel 1 (buffer sample_blocks))
  = Some 3%nat.
Proof.
  apply (block_compare_first_difference 4 false); [lia|].
  split_and!; [reflexivity|discriminate|simpl; lia|simpl; lia].
Defined.

Lemma block_compare_portable_witness :
  block_compare 2 true (sel 0 (buffer sample_blocks)) (sel 1 (buffer sample_blocks))
  = Some 3%nat
  ∧ block_compare 2 true (sel 1 (buffer sample_blocks)) (sel 0 (buffer sample_blocks))
    = Some 3%nat
  ∧ block_compare 4 false (sel 1 (buffer sample_blocks)) (sel 0 (buffer sample_blocks))
    = Some 3%nat.
Proof.
  apply (block_compare_portable 4 false 2 true); [lia|lia|reflexivity|simpl; lia..].
Defined.

Lemma block_compare_and_count_agrees_witness :
  block_compare 4 false
    [Byte.x61; Byte.x0a; Byte.x62; Byte.x0a; Byte.x0a; Byte.x63; Byte.x00; Byte.x00]
    [Byte.x61; Byte.x0a; Byte.x62; Byte.x0a; Byte.x0a; Byte.x64; Byte.xff; Byte.xff]
  = Some 5%nat
  ∧ 10 = 7 + count_nl (take 5 [Byte.x61; Byte.x0a; Byte.x62; Byte.x0a; Byte.x0a;
                                Byte.x63; Byte.x00; Byte.x00]).
Proof.
  apply (block_compare_and_count_agrees 4 false
           [Byte.x61; Byte.x0a; Byte.x62; Byte.x0a; Byte.x0a; Byte.x63; Byte.x00;
            Byte.x00]
           [Byte.x61; Byte.x0a; Byte.x62; Byte.x0a; Byte.x0a; Byte.x64; Byte.xff;
            Byte.xff] 7 5 10).
  - lia.
  - lia.
  - simpl. lia.
  - reflexivity.
Defined.

Lemma ignore_initial_accepted_witness :
  parse_options sample_env [Opt_i "9223372036854775808" (2 ^ 63) false]
    initial_globals (Console [] [] 0)
  = Exit 2 (Console []
              [Usage_reason "invalid --ignore-initial value `%s'" "9223372036854775808";
               Try_help] 0).
Proof.
  rewrite (ignore_initial_accepted sample_env "9223372036854775808" (2 ^ 63) false [])
    by lia.
  reflexivity.
Defined.

Lemma skip_initial_consumes_witness :
  ∃ w',
    skip_initial (sample_globals type_first_diff 6 false) 0
      (sample_world (sample_text Byte.x68) (sample_text Byte.x68))
    = Ret tt w'
    ∧ s_bytes (sel 0 (file_desc w')) = [Byte.x66; Byte.x0a; Byte.x67; Byte.x68]
    ∧ sel 0 (position w') = -1.
Proof.
  destruct (skip_initial_consumes (sample_globals type_first_diff 6 false) 0
              (sample_world (sample_text Byte.x68) (sample_text Byte.x68)))
    as (w' & H1 & H2 & H3 & _).
  - simpl. lia.
  - simpl. lia.
  - reflexivity.
  - reflexivity.
  - simpl. lia.
  - simpl. lia.
  - exists w'. split_and!; [exact H1|exact H2|exact H3].
Defined.

Lemma read_error_exit_witness :
  ∃ w',
    cmp 4 false isprint_C (sample_globals type_status 2 false)
      (World (Stream (sample_text Byte.x68 ++ [Byte.x69]) false false 0,
              Stream (sample_text Byte.x68) true false 0)
         (replicate 8 Byte.x00, replicate 8 Byte.xff) (false, false) (0, 0)
         (Console [] [] 0))
    = Exit 2 w'
    ∧ c_out (w_console w') = []
    ∧ c_err (w_console w') = [Error_file "b"].
Proof.
  apply (read_error_exit 4 false isprint_C (sample_globals type_status 2 false)
           (World (Stream (sample_text Byte.x68 ++ [Byte.x69]) false false 0,
                   Stream (sample_text Byte.x68) true false 0)
              (replicate 8 Byte.x00, replicate 8 Byte.xff) (false, false) (0, 0)
              (Console [] [] 0))
           1 [Byte.x69]).
  - lia.
  - simpl. lia.
  - simpl. lia.
  - split; reflexivity.
  - right. reflexivity.
  - simpl. lia.
  - simpl. lia.
  - simpl. lia.
  - simpl. lia.
  - reflexivity.
  - reflexivity.
  - reflexivity.
Defined.

Lemma exit_status_decides_equality_witness :
  ∃ status w',
    cmp 4 false isprint_C (sample_globals type_all_diffs 0 false)
      (sample_world (sample_text Byte.x68) (sample_text Byte.x58))
    = Ret status w'
    ∧ status ≠ 0.
Proof.
  destruct (exit_status_decides_equality 4 false isprint_C
              (sample_globals type_all_diffs 0 false)
              (sample_world (sample_text Byte.x68) (sample_text Byte.x58)))
    as (status & w' & H1 & _ & H2).
  - lia.
  - simpl. lia.
  - simpl. lia.
  - split; reflexivity.
  - split; [reflexivity|simpl; lia].
  - split; [reflexivity|simpl; lia].
  - exists status, w'. split; [exact H1|].
    intros H0. apply H2 in H0. vm_compute in H0. discriminate.
Defined.

Lemma status_only_silent_witness :
  ∃ status w',
    cmp 4 false isprint_C (sample_globals type_status 0 false)
      (sample_world (sample_text Byte.x68) (sample_text Byte.x58))
    = Ret status w'
    ∧ c_out (w_console w') = [] ∧ c_err (w_console w') = [].
Proof.
  apply (status_only_silent 4 false isprint_C (sample_globals type_status 0 false)
           (sample_world (sample_text Byte.x68) (sample_text Byte.x58))).
  - lia.
  - simpl. lia.
  - simpl. lia.
  - split; reflexivity.
  - split; [reflexivity|simpl; lia].
  - split; [reflexivity|simpl; lia].
  - reflexivity.
Defined.

Lemma ignore_initial_past_eof_witness :
  ∃ w',
    cmp 4 false isprint_C (sample_globals type_first_diff 10 false)
      (sample_world (sample_text Byte.x68) sample_hello)
    = Ret 0 w'
    ∧ c_out (w_console w') = [] ∧ c_err (w_console w') = [].
Proof.
  apply (ignore_initial_past_eof 4 false isprint_C
           (sample_globals type_first_diff 10 false)
           (sample_world (sample_text Byte.x68) sample_hello)).
  - lia.
  - simpl. lia.
  - split; reflexivity.
  - split; [reflexivity|simpl; lia].
  - split; [reflexivity|simpl; lia].
  - reflexivity.
  - simpl. lia.
  - simpl. lia.
Defined.

Lemma reads_stop_at_difference_witness :
  ∃ status w',
    cmp 4 false isprint_C (sample_globals type_first_diff 0 false)
      (sample_world (sample_text Byte.x68 ++ sample_hello)
                    (sample_text Byte.x58 ++ sample_hello))
    = Ret status w'
    ∧ c_reads (w_console w') = 6%nat
    ∧ s_bytes (sel 0 (file_desc w')) = [Byte.x6c; Byte.x6c; Byte.x6f].
Proof.
  destruct (reads_stop_at_difference 4 false isprint_C
              (sample_globals type_first_diff 0 false)
              (sample_world (sample_text Byte.x68 ++ sample_hello)
                            (sample_text Byte.x58 ++ sample_hello)))
    as (status & w' & H1 & H2 & H3 & _).
  - lia.
  - simpl. lia.
  - reflexivity.
  - split; reflexivity.
  - split; [reflexivity|simpl; lia].
  - split; [reflexivity|simpl; lia].
  - exists status, w'. split_and!; [exact H1|exact H2|exact H3].
Defined.

Lemma options_that_end_the_run_witness :
  main 4 false isprint_C sample_env (sample_invocation [Opt_s; Opt_v; Opt_l] [])
  = Exit 0 (Console [Version_text] [] 0).
Proof.
  apply (options_that_end_the_run 4 false isprint_C sample_env
           (sample_invocation [Opt_s; Opt_v; Opt_l] []) [Opt_s] [Opt_l]).
  - repeat constructor.
  - reflexivity.
Defined.

Lemma missing_operand_witness :
  main 4 false isprint_C sample_env (sample_invocation [Opt_l] [])
  = Exit 2 (Console [] [Usage_reason "missing operand after `%s'" "cmp"; Try_help] 0).
Proof.
  apply (missing_operand 4 false isprint_C sample_env (sample_invocation [Opt_l] [])).
  - repeat constructor.
  - reflexivity.
  - reflexivity.
Defined.

Lemma extra_operand_witness :
  main 4 false isprint_C sample_env (sample_invocation [] ["a"; "b"; "c"]%string)
  = Exit 2 (Console [] [Usage_reason "extra operand `%s'" "c"; Try_help] 0).
Proof.
  apply (extra_operand 4 false isprint_C sample_env
           (sample_invocation [] ["a"; "b"; "c"]%string)).
  - constructor.
  - reflexivity.
Defined.

Lemma single_operand_is_stdin_witness :
  main 4 false isprint_C sample_env (sample_invocation [] ["a"]%string)
  = main 4 false isprint_C sample_env (sample_invocation [] ["a"; "-"]%string).
Proof.
  apply (single_operand_is_stdin 4 false isprint_C sample_env
           (sample_invocation [] ["a"]%string)).
  reflexivity.
Defined.

Lemma same_name_exit_witness :
  main 4 false isprint_C sample_env (sample_invocation [Opt_l] ["b"; "b"]%string)
  = Exit 0 (Console [] [] 0).
Proof.
  eapply (same_name_exit 4 false isprint_C sample_env
            (sample_invocation [Opt_l] ["b"; "b"]%string) "b").
  - repeat constructor.
  - reflexivity.
  - reflexivity.
  - reflexivity.
  - reflexivity.
  - reflexivity.
Defined.

Lemma same_inode_exit_witness :
  main 4 false isprint_C sample_links (sample_invocation [] ["a"; "b"]%string)
  = Exit 0 (Console [] [] 0).
Proof.
  eapply (same_inode_exit 4 false isprint_C sample_links
            (sample_invocation [] ["a"; "b"]%string)).
  - unfold invocation_ok. simpl. lia.
  - reflexivity.
  - reflexivity.
  - reflexivity.
  - reflexivity.
Defined.

Lemma null_device_assumes_status_witness :
  compare_files 4 false isprint_C
    (Env (open sample_env) (stdin sample_env) true false true (λ _, Byte.x00))
    (sample_globals type_all_diffs 0 false)
    (sample_file 1 sample_hello, sample_file 2 (sample_text Byte.x68))
    (sample_world sample_hello (sample_text Byte.x68))
  = compare_files 4 false isprint_C
      (Env (open sample_env) (stdin sample_env) true false true (λ _, Byte.x00))
      (sample_globals type_status 0 false)
      (sample_file 1 sample_hello, sample_file 2 (sample_text Byte.x68))
      (sample_world sample_hello (sample_text Byte.x68)).
Proof.
  apply (null_device_assumes_status 4 false isprint_C
           (Env (open sample_env) (stdin sample_env) true false true (λ _, Byte.x00))
           (sample_globals type_all_diffs 0 false)).
  reflexivity.
Defined.

(** [cmp -s -i 7 a b] on regular files of five and seven bytes on which
    [lseek] fails: nothing is left to compare after seven bytes, and yet the
    sizes less the position -1 differ, and the status is 1. *)
Lemma main_decides_equality_witness :
  content (Globals ("a", "b")%string 0 7 type_status false)
    (File_info (Stream sample_hello false false 0) true true 5 (0, 1) 1 4%positive true)
  = content (Globals ("a", "b")%string 0 7 type_status false)
      (File_info (Stream (sample_hello ++ [Byte.x21; Byte.x0a]) false false 0) true true 7
         (0, 2) 2 4%positive true)
  ∧ ∃ k',
      main 4 false isprint_C sample_unseekable
        (sample_invocation [Opt_s; Opt_i "7" 7 false] ["a"; "b"]%string)
      = Exit 1 k'
      ∧ quiet k'.
Proof.
  split; [reflexivity|].
  destruct (main_decides_equality 4 false isprint_C sample_unseekable
              (sample_invocation [Opt_s; Opt_i "7" 7 false] ["a"; "b"]%string)
              (Globals ("a", "b")%string 0 7 type_status false)
              (File_info (Stream sample_hello false false 0) true true 5 (0, 1) 1
                 4%positive true,
               File_info (Stream (sample_hello ++ [Byte.x21; Byte.x0a]) false false 0)
                 true true 7 (0, 2) 2 4%positive true)
              (Console [] [] 0)) as (k' & H & Hq & _).
  - lia.
  - unfold invocation_ok. simpl. lia.
  - reflexivity.
  - intros (H & _). vm_compute in H. discriminate.
  - reflexivity.
  - reflexivity.
  - simpl. lia.
  - simpl. lia.
  - reflexivity.
  - reflexivity.
  - reflexivity.
  - reflexivity.
  - exists k'. split; [exact H|exact Hq].
Defined.

Lemma close_failure_exit_witness :
  ∃ k' err,
    main 4 false isprint_C (sample_faulty false false)
      (sample_invocation [] ["a"; "b"]%string)
    = Exit 2 k'
    ∧ c_err k' = err ++ [Error_file "a"].
Proof.
  apply (close_failure_exit 4 false isprint_C (sample_faulty false false)
           (sample_invocation [] ["a"; "b"]%string)
           (set_file ("a", "b")%string initial_globals)
           (File_info (Stream sample_hello false true 0) true true 5
              (0, 1) 1 4%positive false,
            sample_file 2 [Byte.x68; Byte.x65; Byte.x6c; Byte.x6c; Byte.x70])
           (Console [] [] 0)).
  - lia.
  - unfold invocation_ok. simpl. lia.
  - reflexivity.
  - intros (H & _). vm_compute in H. discriminate.
  - intros (H & _). vm_compute in H. discriminate.
  - split_and!; [reflexivity|simpl; lia|]. intros _. split; reflexivity.
  - split_and!; [reflexivity|simpl; lia|]. intros _. split; reflexivity.
  - left. reflexivity.
Defined.

Lemma write_failure_exit_witness :
  ∃ k',
    main 4 false isprint_C (sample_faulty true true)
      (sample_invocation [] ["a"; "b"]%string)
    = Exit 2 k'.
Proof.
  destruct (write_failure_exit 4 false isprint_C (sample_faulty true true)
              (sample_invocation [] ["a"; "b"]%string)
              (set_file ("a", "b")%string initial_globals)
              (File_info (Stream sample_hello false true 0) true true 5
                 (0, 1) 1 4%positive true,
               sample_file 2 [Byte.x68; Byte.x65; Byte.x6c; Byte.x6c; Byte.x70])
              (Console [] [] 0)) as (k' & H & _).
  - lia.
  - unfold invocation_ok. simpl. lia.
  - reflexivity.
  - intros (H & _). vm_compute in H. discriminate.
  - split_and!; [reflexivity|simpl; lia|]. intros _. split; reflexivity.
  - split_and!; [reflexivity|simpl; lia|]. intros _. split; reflexivity.
  - reflexivity.
  - reflexivity.
  - discriminate.
  - reflexivity.
  - reflexivity.
  - exists k'. exact H.
Defined.

Lemma main_first_difference_report_witness :
  ∃ k',
    main 4 false isprint_C (sample_faulty true false)
      (sample_invocation [] ["a"; "b"]%string)
    = Exit 1 k'
    ∧ c_out k' = [Differ_char "a" "b" 5 1] ∧ c_err k' = [].
Proof.
  apply (main_first_difference_report 4 false isprint_C (sample_faulty true false)
           (sample_invocation [] ["a"; "b"]%string)
           (set_file ("a", "b")%string initial_globals)
           (File_info (Stream sample_hello false true 0) true true 5
              (0, 1) 1 4%positive true,
            sample_file 2 [Byte.x68; Byte.x65; Byte.x6c; Byte.x6c; Byte.x70])
           (Console [] [] 0) 4 Byte.x6f Byte.x70).
  - lia.
  - unfold invocation_ok. simpl. lia.
  - reflexivity.
  - intros (H & _). vm_compute in H. discriminate.
  - split_and!; [reflexivity|simpl; lia|]. intros _. split; reflexivity.
  - split_and!; [reflexivity|simpl; lia|]. intros _. split; reflexivity.
  - reflexivity.
  - reflexivity.
  - reflexivity.
  - reflexivity.
  - reflexivity.
  - reflexivity.
  - reflexivity.
  - reflexivity.
  - reflexivity.
  - discriminate.
Defined.

Lemma fstat_failure_reported_witness :
  ∃ name,
    main 4 false isprint_C
      (Env (λ _, Some (File_info (Stream [] false true 0) false true 0 (0, 1) 1
                         4%positive true))
         (sample_file 0 []) false false true (λ _, Byte.x00))
      (sample_invocation [Opt_s] ["a"; "b"]%string)
    = Exit 2 (Console [] [Error_file name] 0)
    ∧ name = "a"%string.
Proof.
  destruct (fstat_failure_reported 4 false isprint_C
              (Env (λ _, Some (File_info (Stream [] false true 0) false true 0 (0, 1) 1
                                 4%positive true))
                 (sample_file 0 []) false false true (λ _, Byte.x00))
              (sample_invocation [Opt_s] ["a"; "b"]%string) "a" "b"
              (File_info (Stream [] false true 0) false true 0 (0, 1) 1 4%positive true)
              (File_info (Stream [] false true 0) false true 0 (0, 1) 1 4%positive true))
    as (name & H & Hname).
  - repeat constructor.
  - reflexivity.
  - reflexivity.
  - reflexivity.
  - reflexivity.
  - reflexivity.
  - left. reflexivity.
  - exists name. split; [exact H|]. vm_compute in H. congruence.
Defined.

Lemma skip_read_error_witness :
  ∃ w',
    skip_initial (sample_globals type_first_diff 6 false) 0
      (World (Stream sample_hello true false 0, Stream sample_hello false true 0)
         (replicate 8 Byte.x00, replicate 8 Byte.xff) (false, false) (0, 0)
         (Console [] [] 0))
    = Exit 2 w'
    ∧ c_out (w_console w') = []
    ∧ c_err (w_console w') = [Error_file "a"].
Proof.
  apply (skip_read_error (sample_globals type_first_diff 6 false) 0
           (World (Stream sample_hello true false 0, Stream sample_hello false true 0)
              (replicate 8 Byte.x00, replicate 8 Byte.xff) (false, false) (0, 0)
              (Console [] [] 0))).
  - simpl. lia.
  - reflexivity.
  - reflexivity.
  - reflexivity.
  - simpl. lia.
  - simpl. lia.
Defined.
